(** * parallelrpclib: two-stage XML-RPC requests and the job schedulers

    A shallow embedding of [parallelrpclib/__init__.py].

    The module is effectful Python: it talks to the network through
    [xmlrpclib]/[httplib], waits on sockets with [select.select], mutates a
    per-transport sequence counter and produces its results lazily with
    generators.  The embedding keeps that structure:

    - Python values that travel through the schedulers are terms of [pyval];
      exceptions are terms of [exn] (instances of subclasses of [Exception],
      the only ones the module's [except Exception] clauses catch);
    - objects live in a store ([heap]) and are named by references, so two
      jobs that name the same proxy share its transport and its [_seq];
    - every collaborator that is not part of the module ([xmlrpclib.dumps],
      the connection, [select.select], the order in which a [dict] or a [set]
      is iterated, the remote endpoints, thread completion order) is a field
      of the environment record [Env];
    - a computation is a function from the store to an outcome, a new store
      and the list of observable events it performed ([M]); a generator is a
      computation whose [EvYield] events are, in order, the values it yields
      when it is consumed to exhaustion.

    Not embedded: [__repr__] of the ParallelServerProxy classes, and the
    attribute lookup [__getattr__] by which a method call on such an object
    reaches [__request]. *)

From stdpp Require Import gmap strings list fin_maps.

Set Default Proof Using "Type".
#[local] Set Warnings "-register-all".

(** ** Python values *)

(** A Python [float] other than NaN: a zero, an infinity, or [m * 2 ^ e]
    with its sign.  (NaN is left out: whether two NaNs are one dictionary
    key depends on the identity of the objects.) *)
Inductive pyfloat : Type :=
| FZero (neg : bool)
| FInf (neg : bool)
| FFinite (neg : bool) (m : positive) (e : Z).

#[global] Instance pyfloat_eq_dec : EqDecision pyfloat.
Proof. solve_decision. Defined.

(** The values a job can carry as its argument list and a call can return:
    [None], booleans, integers, floats, strings, tuples and lists. *)
Inductive pyval : Type :=
| PNone
| PBool (b : bool)
| PInt (z : Z)
| PFloat (x : pyfloat)
| PStr (s : string)
| PTuple (items : list pyval)
| PList (items : list pyval).

#[global] Instance pyval_eq_dec : EqDecision pyval.
Proof.
  refine (fix go (x y : pyval) : Decision (x = y) :=
    let _ : EqDecision pyval := @go in
    match x, y with
    | PNone, PNone => left _
    | PBool a, PBool b => cast_if (decide (a = b))
    | PInt a, PInt b => cast_if (decide (a = b))
    | PFloat a, PFloat b => cast_if (decide (a = b))
    | PStr a, PStr b => cast_if (decide (a = b))
    | PTuple a, PTuple b => cast_if (decide (a = b))
    | PList a, PList b => cast_if (decide (a = b))
    | _, _ => right _
    end); abstract congruence.
Defined.

(** [hash(v)] succeeds: a list is unhashable, a tuple is hashable when all
    its items are. *)
Fixpoint hashable (v : pyval) : bool :=
  match v with
  | PNone | PBool _ | PInt _ | PFloat _ | PStr _ => true
  | PTuple items => forallb hashable items
  | PList _ => false
  end.

(** *** Equality of values

    [a == b] on numbers compares the numbers, whatever their types:
    [1 == 1.0 == True], and equal numbers have equal hashes.  Tuples and
    lists are equal when they have the same type and their items are equal.
    [py_canon v] is the representative of the values equal to [v]: a boolean
    or a float whose value is an integer is represented by that integer, any
    other float by its odd mantissa and exponent. *)
Fixpoint strip_zeros (m : positive) (e : Z) : positive * Z :=
  match m with
  | xO m' => strip_zeros m' (e + 1)
  | _ => (m, e)
  end.

Definition float_canon (x : pyfloat) : pyval :=
  match x with
  | FZero _ => PInt 0
  | FInf neg => PFloat (FInf neg)
  | FFinite neg m e =>
      let '(m', e') := strip_zeros m e in
      if bool_decide (0 ≤ e')%Z
      then PInt ((if neg then -1 else 1) * Z.pos m' * 2 ^ e')
      else PFloat (FFinite neg m' e')
  end.

Fixpoint py_canon (v : pyval) : pyval :=
  match v with
  | PNone => PNone
  | PBool b => PInt (if b then 1 else 0)
  | PInt z => PInt z
  | PFloat x => float_canon x
  | PStr s => PStr s
  | PTuple items => PTuple (map py_canon items)
  | PList items => PList (map py_canon items)
  end.

(** [a == b] *)
Definition py_eq (a b : pyval) : bool := bool_decide (py_canon a = py_canon b).

(** Exceptions, all of them instances of [Exception]. *)
Inductive exn : Type :=
| NameError (msg : string)
| TypeError (msg : string)
| AssertionError
| KeyError
| ValueError (msg : string)
| AttributeError (msg : string)
| IOError (msg : string)
| UnknownProtocolError (msg : string)
| Fault (faultCode : Z) (faultString : string)
| OtherException (cls msg : string).

#[global] Instance exn_eq_dec : EqDecision exn.
Proof. solve_decision. Defined.

(** [isinstance(e, Fault)] *)
Definition is_Fault (e : exn) : bool :=
  match e with Fault _ _ => true | _ => false end.

(** [isinstance(e, (OSError, IOError))].  [UnknownProtocolError] is declared
    as a subclass of [IOError]; [OtherException cls msg] is an instance of
    the class named [cls] itself. *)
Definition is_OSError_or_IOError (e : exn) : bool :=
  match e with
  | IOError _ | UnknownProtocolError _ => true
  | OtherException cls _ => bool_decide (cls = "OSError")
  | _ => false
  end.

(** A [(result, exception)] pair as the schedulers yield them:
    [(v, None)] or [(None, exc)]. *)
Definition result : Type := pyval * option exn.

(** ** References, handles, events *)

Abbreviation ref := nat (only parsing).      (* identity of a Python object *)
Abbreviation conn := nat (only parsing).     (* an HTTP connection object [h] *)
Abbreviation sockfd := nat (only parsing).   (* the socket [h.sock] *)

(** The tuple [(h, verbose, seq)] that [TwoStageTransport.start_request]
    returns. *)
Definition handle : Type := conn * Z * nat.

(** What [TwoStageServerProxy.start_request] returns: that tuple, or the
    exception object it caught. *)
Inductive req_state : Type :=
| StHandle (hd : handle)
| StExc (e : exn).

#[global] Instance req_state_eq_dec : EqDecision req_state.
Proof. solve_decision. Defined.

(** A job [(object, methodname, arg_list)]. *)
Definition job : Type := ref * string * pyval.

(** The key [(m, a, p.request_format())] of the [formats] dictionary. *)
Definition fmtkey : Type := string * pyval * (option string * Z).

(** Keys of a dictionary are compared by [==], not by identity: [py_key k]
    is the representative of the keys equal to [k], and two keys are one key
    of a dictionary when their representatives are the same. *)
Class PyKey (K : Type) := py_key : K → K.

(** The method name is a string and the request format a pair of a string
    or [None] and an integer; the argument list is any value. *)
#[global] Instance fmtkey_PyKey : PyKey fmtkey :=
  λ k, (k.1.1, py_canon k.1.2, k.2).

(** A value of the [formats] dictionary: the representative proxy at first,
    overwritten by the request body that proxy built. *)
Inductive fmtval : Type :=
| FProxy (p : ref)
| FBody (body : string).

(** Observable events, in the order the program performs them. *)
Inductive event : Type :=
| EvMakeRequest (p : ref) (m : string) (a : pyval)   (* p.make_request(m, a) *)
| EvStartRequest (p : ref) (body : string)           (* p.start_request(body) *)
| EvClose (p : ref)                                  (* p.transport.close() *)
| EvSelect (fds : list sockfd)                       (* select.select(fds, [], fds) *)
| EvFinishRequest (p : ref) (st : req_state)         (* p.finish_request(st) *)
| EvCall (p : ref) (m : string) (a : pyval)          (* calling method m of p on a *)
| EvYield (r : result).                              (* yield r *)

#[global] Instance event_eq_dec : EqDecision event.
Proof. solve_decision. Defined.

(** The values a generator yielded, read off its events. *)
Definition yields (tr : list event) : list result :=
  omap (λ ev, match ev with EvYield r => Some r | _ => None end) tr.

Definition is_yield (ev : event) : bool :=
  match ev with EvYield _ => true | _ => false end.

Definition is_select (ev : event) : bool :=
  match ev with EvSelect _ => true | _ => false end.

(** ** The store *)

(** [TwoStageTransport]: the only state the module adds to
    [xmlrpclib.Transport] is the sequence counter [_seq]. *)
Record TwoStageTransport_obj : Type := MkTransport {
  t_seq : nat
}.

(** The fields of a [TwoStageServerProxy] instance. *)
Record TwoStageServerProxy_obj : Type := MkProxy {
  host : option string;
  handler : string;
  transport : TwoStageTransport_obj;
  encoding : option string;
  verbose : Z;
  allow_none : Z
}.

(** An object of the store: a [TwoStageServerProxy], an
    [xmlrpclib.ServerProxy] built for a URI, or anything else the caller put
    in a job. *)
Inductive obj : Type :=
| OTwoStage (px : TwoStageServerProxy_obj)
| OServerProxy (uri : string)
| OOther.

Record world : Type := World {
  heap : gmap ref obj;
  clock : nat
}.

(** [isinstance(p, TwoStageServerProxy)] *)
Definition is_two_stage (w : world) (p : ref) : bool :=
  match heap w !! p with
  | Some (OTwoStage _) => true
  | _ => false
  end.

(** ** Collaborators *)

(** The keyword arguments of [TwoStageServerProxy.__init__] that the
    constructor looks at ([context] is accepted and ignored). *)
Record proxy_kwargs : Type := MkKwargs {
  kw_transport : option ref;
  kw_encoding : option string;
  kw_verbose : Z;
  kw_allow_none : Z;
  kw_use_datetime : Z
}.

Definition default_kwargs : proxy_kwargs := MkKwargs None None 0 0 0.

Record Env : Type := MkEnv {
  (** [xmlrpclib.dumps(params, methodname, encoding=, allow_none=)] *)
  xml_dumps : pyval → string → option string → Z → exn + string;
  (** [Transport.make_connection(host)] for the [seq]-th request of the
      transport owned by proxy [p] *)
  make_connection : ref → option string → nat → exn + conn;
  (** [send_request; send_host; send_user_agent; send_content] on [h]:
      [None] when everything was written, [Some e] when one of them raised *)
  net_send : conn → option string → string → string → option exn;
  (** [h.sock] *)
  conn_sock : conn → option sockfd;
  (** [h.getresponse(buffering=True)]: raises, or a response with its
      status and body *)
  conn_getresponse : conn → exn + (Z * string);
  (** [Transport.parse_response(response)]: raises ([Fault] for a
      fault-shaped body), or the tuple of unmarshalled values *)
  xml_parse_response : string → exn + list pyval;
  (** [select.select(fds, [], fds)] without timeout at time [clock]: raises,
      or returns the lists [r] and [e]; both empty stands for a call that
      never returns *)
  sys_select : nat → list sockfd → exn + (list sockfd * list sockfd);
  (** the order in which [set(l)] is iterated *)
  set_iter : list sockfd → list sockfd;
  (** the order in which [formats.items()] lists a dictionary whose entries
      were inserted in the given order *)
  dict_items : list (fmtkey * fmtval) → list (fmtkey * fmtval);
  (** evaluating [getattr(p, m)] and calling it with the unpacked argument
      list [a], for an object [p] that is not a [TwoStageServerProxy], at
      time [clock] *)
  obj_call : ref → string → pyval → nat → exn + pyval;
  (** the order in which [n] threads started at time [clock] complete *)
  thread_schedule : nat → nat → list nat;
  (** [urllib.splittype], [urllib.splithost] *)
  splittype : string → option string * string;
  splithost : string → option string * string;
  (** [xmlrpclib.ServerProxy(uri, **kwargs)]: [Some e] when the constructor
      raises *)
  ServerProxy_init : string → proxy_kwargs → option exn
}.

(** ** Computations *)

Inductive outcome (A : Type) : Type :=
| Ok (a : A)         (* returned a *)
| Raise (e : exn)    (* raised e *)
| Hang.              (* blocked for ever *)
Arguments Ok {A} a.
Arguments Raise {A} e.
Arguments Hang {A}.

Definition M (A : Type) : Type := world → outcome A * world * list event.

Definition ret {A} (a : A) : M A := λ w, (Ok a, w, []).

Definition bind {A B} (m : M A) (k : A → M B) : M B := λ w,
  match m w with
  | (Ok a, w1, t1) => let '(o, w2, t2) := k a w1 in (o, w2, t1 ++ t2)
  | (Raise e, w1, t1) => (Raise e, w1, t1)
  | (Hang, w1, t1) => (Hang, w1, t1)
  end.

#[global] Instance M_ret : MRet M := @ret.
#[global] Instance M_bind : MBind M := λ A B k m, bind m k.

Definition raise {A} (e : exn) : M A := λ w, (Raise e, w, []).

Definition hang {A} : M A := λ w, (Hang, w, []).

(** [try: m  except Exception as exc: h exc] *)
Definition try_except {A} (m : M A) (h : exn → M A) : M A := λ w,
  match m w with
  | (Raise e, w1, t1) => let '(o, w2, t2) := h e w1 in (o, w2, t1 ++ t2)
  | r => r
  end.

Definition emit (ev : event) : M unit := λ w, (Ok tt, w, [ev]).

(** [yield r] *)
Definition yield (r : result) : M unit := emit (EvYield r).

Definition get_world : M world := λ w, (Ok w, w, []).

(** Read the clock and advance it. *)
Definition tick : M nat := λ w,
  (Ok (clock w), World (heap w) (S (clock w)), []).

Definition lift {A} (x : exn + A) : M A :=
  match x with
  | inl e => raise e
  | inr a => ret a
  end.

(** [assert(b)] *)
Definition py_assert (b : bool) : M unit :=
  if b then ret tt else raise AssertionError.

(** [for x in l: body x] *)
Fixpoint for_each {A} (l : list A) (body : A → M unit) : M unit :=
  match l with
  | [] => ret tt
  | x :: l' => body x;; for_each l' body
  end.

(** [len(v)] *)
Definition py_len (v : pyval) : M nat :=
  match v with
  | PTuple items | PList items => ret (length items)
  | PStr s => ret (String.length s)
  | PNone => raise (TypeError "object of type 'NoneType' has no len()")
  | PBool _ => raise (TypeError "object of type 'bool' has no len()")
  | PInt _ => raise (TypeError "object of type 'int' has no len()")
  | PFloat _ => raise (TypeError "object of type 'float' has no len()")
  end.

(** [v[0]] *)
Definition py_item0 (v : pyval) : M pyval :=
  match v with
  | PTuple (x :: _) | PList (x :: _) => ret x
  | PTuple [] => raise (OtherException "IndexError" "tuple index out of range")
  | PList [] => raise (OtherException "IndexError" "list index out of range")
  | PStr (String c _) => ret (PStr (String c EmptyString))
  | PStr EmptyString => raise (OtherException "IndexError" "string index out of range")
  | PNone => raise (TypeError "'NoneType' object has no attribute '__getitem__'")
  | PBool _ => raise (TypeError "'bool' object has no attribute '__getitem__'")
  | PInt _ => raise (TypeError "'int' object has no attribute '__getitem__'")
  | PFloat _ => raise (TypeError "'float' object has no attribute '__getitem__'")
  end.

(** The proxy object behind a reference the code uses as a
    [TwoStageServerProxy]. *)
Definition get_proxy (p : ref) : M TwoStageServerProxy_obj := λ w,
  match heap w !! p with
  | Some (OTwoStage px) => (Ok px, w, [])
  | _ => (Raise (AttributeError "not a TwoStageServerProxy"), w, [])
  end.

Definition set_proxy (p : ref) (px : TwoStageServerProxy_obj) : M unit := λ w,
  (Ok tt, World (<[p := OTwoStage px]> (heap w)) (clock w), []).

(** [object()]: a new object at a reference nothing else uses. *)
Definition alloc (o : obj) : M ref := λ w,
  let r := fresh (dom (heap w)) in
  (Ok r, World (<[r := o]> (heap w)) (clock w), []).

(** ** class TwoStageTransport *)

(** A transport is owned by exactly one [TwoStageServerProxy] (its
    constructor asserts that no transport is passed in and builds a new
    one), so [self] is given as the reference of the owning proxy.  The lock
    taken by every method is not modelled: the schedulers embedded below call
    the transport from one thread of control. *)
Module TwoStageTransport.
Section with_env.
Context (E : Env).

(** [self._seq += 1], returning the new [self._seq] *)
Definition incr_seq (self : ref) : M nat :=
  px ← get_proxy self;
  let n := S (t_seq (transport px)) in
  set_proxy self (MkProxy (host px) (handler px) (MkTransport n)
                          (encoding px) (verbose px) (allow_none px));;
  mret n.

(** [self.close()] *)
Definition close (self : ref) : M unit := emit (EvClose self).

(** [except Fault: raise] / [except: self.close(); raise] *)
Definition reraise {A} (self : ref) (e : exn) : M A :=
  if is_Fault e then raise e else (close self;; raise e).

Definition start_request (self : ref) (host : option string)
    (handler request_body : string) (verbose : Z) : M handle :=
  seq ← incr_seq self;
  h ← lift (make_connection E self host seq);
  match net_send E h host handler request_body with
  | None => mret (h, verbose, seq)
  | Some e => reraise self e
  end.

Definition get_sockfd (self : ref) (state : handle) : M (option sockfd) :=
  let '(h, verbose, seq) := state in
  px ← get_proxy self;
  py_assert (bool_decide (seq = t_seq (transport px)));;
  mret (conn_sock E h).

(** When the status is not 200 no branch of the [try] returns or raises,
    and control falls off the end of the function: the call returns
    [None].  ([self.verbose = verbose] sets a field of [xmlrpclib.Transport]
    that nothing embedded here reads.) *)
Definition finish_request (self : ref) (state : handle) : M pyval :=
  let '(h, verbose, seq) := state in
  px ← get_proxy self;
  py_assert (bool_decide (seq = t_seq (transport px)));;
  match conn_getresponse E h with
  | inl e => reraise self e
  | inr (status, body) =>
      if bool_decide (status = 200%Z) then
        match xml_parse_response E body with
        | inl e => reraise self e
        | inr items => mret (PTuple items)
        end
      else mret PNone
  end.

(** [select.select([sock], [], [sock], 0)] at time [clock]: a poll, which
    returns at once.  [sock] is [h.sock], which is [None] for a connection
    that has no socket. *)
Context (select_poll : nat → option sockfd → exn + (list sockfd * list sockfd)).

(** The [except (OSError, IOError)] clause covers the call of
    [get_sockfd] as well as the [select]. *)
Definition is_ready (self : ref) (state : handle) : M bool :=
  try_except
    (sock ← get_sockfd self state;
     t ← tick;
     '(r, e) ← lift (select_poll t sock);
     mret (bool_decide (0 < length r + length e)))
    (λ exc, if is_OSError_or_IOError exc then mret true else raise exc).
End with_env.
End TwoStageTransport.

(** ** class TwoStageServerProxy *)

Module TwoStageServerProxy.
Section with_env.
Context (E : Env).

(** [__init__(self, uri, transport=None, encoding=None, verbose=0,
    allow_none=0, use_datetime=0, context=None)]; the result is the new
    object. *)
Definition init (uri : string) (kw : proxy_kwargs) : M ref :=
  let '(type, uri) := splittype E uri in
  if bool_decide (type = Some "http") then
    let '(host, handler) := splithost E uri in
    let handler := if bool_decide (handler = "") then "/RPC2" else handler in
    py_assert (bool_decide (kw_transport kw = None));;
    alloc (OTwoStage (MkProxy host handler (MkTransport 0)
                              (kw_encoding kw) (kw_verbose kw) (kw_allow_none kw)))
  else raise (UnknownProtocolError "unsupported XML-RPC protocol").

Definition close (self : ref) : M unit := TwoStageTransport.close self.

Definition request_format (self : ref) : M (option string * Z) :=
  px ← get_proxy self;
  mret (encoding px, allow_none px).

Definition make_request (self : ref) (methodname : string) (params : pyval)
    : M string :=
  px ← get_proxy self;
  emit (EvMakeRequest self methodname params);;
  lift (xml_dumps E params methodname (encoding px) (allow_none px)).

Definition start_request (self : ref) (request : string) : M req_state :=
  emit (EvStartRequest self request);;
  try_except
    (px ← get_proxy self;
     hd ← TwoStageTransport.start_request E self (host px) (handler px)
            request (verbose px);
     mret (StHandle hd))
    (λ exc, mret (StExc exc)).

Definition get_sockfd (self : ref) (state : req_state) : M (option sockfd) :=
  match state with
  | StExc _ => mret None
  | StHandle hd => TwoStageTransport.get_sockfd E self hd
  end.

Definition finish_request (self : ref) (state : req_state) : M result :=
  emit (EvFinishRequest self state);;
  match state with
  | StExc exc => mret (PNone, Some exc)
  | StHandle hd =>
      try_except
        (response ← TwoStageTransport.finish_request E self hd;
         n ← py_len response;
         if bool_decide (n = 1) then
           v ← py_item0 response; mret (v, None)
         else mret (response, None))
        (λ exc, mret (PNone, Some exc))
  end.

Definition request (self : ref) (methodname : string) (params : pyval)
    : M result :=
  body ← make_request self methodname params;
  state ← start_request self body;
  finish_request self state.

Context (select_poll : nat → option sockfd → exn + (list sockfd * list sockfd)).

Definition is_ready (self : ref) (state : req_state) : M bool :=
  match state with
  | StExc _ => mret true
  | StHandle hd => TwoStageTransport.is_ready E select_poll self hd
  end.
End with_env.
End TwoStageServerProxy.

(** ** Dictionaries and lists *)

(** A [dict] whose keys are not countable ([formats]) is an association
    list with at most one entry per key, in insertion order.  An entry holds
    the key object that was inserted first: a later assignment under an equal
    key replaces the value and keeps that key. *)
Section dict.
Context {K V : Type} `{EqDecision K} `{PyKey K}.

(** [d[k]], [None] standing for [KeyError] *)
Fixpoint dict_get (k : K) (d : list (K * V)) : option V :=
  match d with
  | [] => None
  | (k', v) :: d' => if decide (py_key k = py_key k') then Some v else dict_get k d'
  end.

(** [d[k] = v] *)
Fixpoint dict_set (k : K) (v : V) (d : list (K * V)) : list (K * V) :=
  match d with
  | [] => [(k, v)]
  | (k', v') :: d' =>
      if decide (py_key k = py_key k') then (k', v) :: d' else (k', v') :: dict_set k v d'
  end.
End dict.

(** [l.remove(x)]: the list without the first item equal to [x]; [None]
    stands for [ValueError]. *)
Fixpoint list_remove {A} `{EqDecision A} (x : A) (l : list A) : option (list A) :=
  match l with
  | [] => None
  | y :: l' => if decide (x = y) then Some l' else (y ::.) <$> list_remove x l'
  end.

(** ** The schedulers *)

(** The functions of the module that are passed around as values.
    [RunSequentialJobs] and [RunThreadedJobs] take one positional argument,
    [_sequential_requests] and [_threaded_requests] take three. *)
Inductive callable : Type :=
| Fn_RunSequentialJobs
| Fn_RunThreadedJobs
| Fn_sequential_requests
| Fn_threaded_requests
| Fn_two_stage_requests
| Fn_hybrid_requests.

Section schedulers.
Context (E : Env).

Definition _sequential_request (proxy : ref) (methodname : string)
    (args : pyval) : M result :=
  try_except
    (w ← get_world;
     if is_two_stage w proxy then
       TwoStageServerProxy.request E proxy methodname args
     else
       t ← tick;
       emit (EvCall proxy methodname args);;
       v ← lift (obj_call E proxy methodname args t);
       mret (v, None))
    (λ exc, mret (PNone, Some exc)).

(** The generator expression
    [(_sequential_request(p, m, a) for p, m, a in jobs)]. *)
Definition RunSequentialJobs (jobs : list job) : M unit :=
  for_each jobs (λ '(p, m, a), r ← _sequential_request p m a; yield r).

Definition _sequential_requests (proxies : list ref) (methodname : string)
    (args : pyval) : M unit :=
  RunSequentialJobs (map (λ p, (p, methodname, args)) proxies).

(** *** RunThreadedJobs

    One thread per job runs [runit], which appends the job's result to
    [results].  The threads are started in the first loop; the order in
    which they complete is the environment's ([thread_schedule]), and each
    runs its single [_sequential_request] without being interleaved with
    another.  The generator joins the threads in submission order and,
    after each join, yields and removes everything in [results]. *)
Record pool : Type := MkPool {
  pending : list nat;       (* threads still running, in completion order *)
  finished : list nat;      (* threads that have completed *)
  results : list result     (* the shared [results] list *)
}.

(** [t.join()] for thread [i]: returns once thread [i] has completed;
    the threads that complete before it have appended their results. *)
Fixpoint join_loop (jobs : list job) (i : nat) (pend : list nat)
    (fin : list nat) (res : list result) : M pool :=
  match pend with
  | [] => hang
  | k :: pend' =>
      match jobs !! k with
      | Some (p, m, a) =>
          if bool_decide (k ∈ fin) then join_loop jobs i pend' fin res
          else
            r ← _sequential_request p m a;
            if bool_decide (k = i) then mret (MkPool pend' (k :: fin) (res ++ [r]))
            else join_loop jobs i pend' (k :: fin) (res ++ [r])
      | None => join_loop jobs i pend' fin res
      end
  end.

Definition join (jobs : list job) (i : nat) (st : pool) : M pool :=
  if bool_decide (i ∈ finished st) then mret st
  else join_loop jobs i (pending st) (finished st) (results st).

(** [for t in threads: t.join(); while results: yield results.pop(0)] *)
Fixpoint join_all (jobs : list job) (threads : list nat) (st : pool) : M unit :=
  match threads with
  | [] => mret tt
  | i :: threads' =>
      st' ← join jobs i st;
      for_each (results st') yield;;
      join_all jobs threads' (MkPool (pending st') (finished st') [])
  end.

Definition RunThreadedJobs (jobs : list job) : M unit :=
  t ← tick;
  let n := length jobs in
  join_all jobs (seq 0 n) (MkPool (thread_schedule E t n) [] []).

Definition _threaded_requests (proxies : list ref) (methodname : string)
    (args : pyval) : M unit :=
  RunThreadedJobs (map (λ p, (p, methodname, args)) proxies).

(** [for result in fallback(others): yield result].  A function defined
    with three positional parameters and called with one raises
    [TypeError] at the call. *)
Definition call_fallback (fallback : callable) (others : list job) : M unit :=
  match fallback with
  | Fn_RunSequentialJobs => RunSequentialJobs others
  | Fn_RunThreadedJobs => RunThreadedJobs others
  | Fn_sequential_requests =>
      raise (TypeError "_sequential_requests() takes exactly 3 arguments (1 given)")
  | Fn_threaded_requests =>
      raise (TypeError "_threaded_requests() takes exactly 3 arguments (1 given)")
  | Fn_two_stage_requests =>
      raise (TypeError "_two_stage_requests() takes exactly 3 arguments (1 given)")
  | Fn_hybrid_requests =>
      raise (TypeError "_hybrid_requests() takes exactly 3 arguments (1 given)")
  end.

(** *** RunTwoStageJobs *)

(** [hash(fmt)] for [fmt = (m, a, (encoding, allow_none))]: the method
    name and the request format are hashable, the argument list may not
    be. *)
Definition py_hash (fmt : fmtkey) : M unit :=
  if hashable fmt.1.2 then mret tt
  else raise (TypeError "unhashable type: 'list'").

(** [for p, m, a in tsjs: fmt = ...; if fmt not in formats: formats[fmt] = p] *)
Fixpoint collect_formats (tsjs : list job) (formats : list (fmtkey * fmtval))
    : M (list (fmtkey * fmtval)) :=
  match tsjs with
  | [] => mret formats
  | (p, m, a) :: tsjs' =>
      rf ← TwoStageServerProxy.request_format p;
      let fmt : fmtkey := (m, a, rf) in
      py_hash fmt;;
      match dict_get fmt formats with
      | Some _ => collect_formats tsjs' formats
      | None => collect_formats tsjs' (formats ++ [(fmt, FProxy p)])
      end
  end.

(** [for fmt, p in list(formats.items()):
       formats[fmt] = p.make_request(fmt[0], fmt[1])]
    The items were listed before the loop, so every [p] is the proxy that
    the first loop stored. *)
Fixpoint encode_formats (items : list (fmtkey * fmtval))
    (formats : list (fmtkey * fmtval)) : M (list (fmtkey * fmtval)) :=
  match items with
  | [] => mret formats
  | (fmt, FProxy p) :: items' =>
      body ← TwoStageServerProxy.make_request E p fmt.1.1 fmt.1.2;
      encode_formats items' (dict_set fmt (FBody body) formats)
  | (fmt, FBody _) :: _ =>
      raise (AttributeError "'str' object has no attribute 'make_request'")
  end.

(** [for p, m, a in tsjs:
       r = p.start_request(formats[(m, a, p.request_format())])
       started.append((p, r))]
    A value that is still a proxy cannot be written to a connection. *)
Fixpoint start_all (tsjs : list job) (formats : list (fmtkey * fmtval))
    (started : list (ref * req_state)) : M (list (ref * req_state)) :=
  match tsjs with
  | [] => mret started
  | (p, m, a) :: tsjs' =>
      rf ← TwoStageServerProxy.request_format p;
      let fmt : fmtkey := (m, a, rf) in
      py_hash fmt;;
      match dict_get fmt formats with
      | None => raise KeyError
      | Some (FBody body) =>
          r ← TwoStageServerProxy.start_request E p body;
          start_all tsjs' formats (started ++ [(p, r)])
      | Some (FProxy _) => raise (TypeError "request body must be a string")
      end
  end.

(** The [if tsjs:] branch. *)
Definition start_phase (tsjs : list job) : M (list (ref * req_state)) :=
  formats ← collect_formats tsjs [];
  formats ← encode_formats (dict_items E formats) formats;
  start_all tsjs formats [].

(** [for pr in started: sockfd = pr[0].get_sockfd(pr[1]); ...] *)
Fixpoint build_socklist (started : list (ref * req_state))
    (socklist : gmap sockfd (ref * req_state))
    : M (gmap sockfd (ref * req_state)) :=
  match started with
  | [] => mret socklist
  | pr :: started' =>
      sockfd ← TwoStageServerProxy.get_sockfd E pr.1 pr.2;
      match sockfd with
      | Some fd => build_socklist started' (<[fd := pr]> socklist)
      | None => build_socklist started' socklist
      end
  end.

(** [for k in set(r + e): p, r = pr = socklist[k]; started.remove(pr);
       del socklist[k]; yield p.finish_request(r)] *)
Fixpoint poll_ready (ks : list sockfd) (socklist : gmap sockfd (ref * req_state))
    (started : list (ref * req_state))
    : M (gmap sockfd (ref * req_state) * list (ref * req_state)) :=
  match ks with
  | [] => mret (socklist, started)
  | k :: ks' =>
      match socklist !! k with
      | None => raise KeyError
      | Some pr =>
          match list_remove pr started with
          | None => raise (ValueError "list.remove(x): x not in list")
          | Some started' =>
              res ← TwoStageServerProxy.finish_request E pr.1 pr.2;
              yield res;;
              poll_ready ks' (delete k socklist) started'
          end
      end
  end.

(** [while socklist: r, w, e = select.select(...); for k in set(r + e): ...]
    The call to [select] has no timeout: it returns at least one
    descriptor or does not return.  Every round then removes a key, so
    the loop body runs at most [size socklist] times; [fuel] is that
    bound. *)
Fixpoint poll_loop (fuel : nat) (socklist : gmap sockfd (ref * req_state))
    (started : list (ref * req_state)) : M (list (ref * req_state)) :=
  if bool_decide (socklist = ∅) then mret started
  else
    match fuel with
    | O => hang
    | S fuel' =>
        t ← tick;
        let fds := (map_to_list socklist).*1 in
        emit (EvSelect fds);;
        '(r, e) ← lift (sys_select E t fds);
        match set_iter E (r ++ e) with
        | [] => hang
        | ks =>
            '(socklist', started') ← poll_ready ks socklist started;
            poll_loop fuel' socklist' started'
        end
    end.

(** [for (p, r) in started: yield p.finish_request(r)] *)
Definition drain (started : list (ref * req_state)) : M unit :=
  for_each started (λ '(p, r),
    res ← TwoStageServerProxy.finish_request E p r; yield res).

(** The part of the generator after the [if tsjs: ... else: ...]. *)
Definition finish_phase (fallback : callable) (others : list job)
    (started : list (ref * req_state)) : M unit :=
  (if bool_decide (others = []) then mret tt
   else call_fallback fallback others);;
  socklist ← build_socklist started ∅;
  started' ← poll_loop (size socklist) socklist started;
  drain started'.

(** In the [else] branch the name [proxies] is neither a local nor a
    global of the module. *)
Definition RunTwoStageJobs (jobs : list job) (fallback : callable) : M unit :=
  w ← get_world;
  let tsjs := filter (λ j : job, is_two_stage w j.1.1) jobs in
  '(started, others) ←
    (if bool_decide (tsjs = []) then
       raise (NameError "global name 'proxies' is not defined")
     else
       let others := filter (λ j : job, ¬ is_two_stage w j.1.1) jobs in
       started ← start_phase tsjs;
       mret (started, others));
  finish_phase fallback others started.

Definition _two_stage_requests (proxies : list ref) (methodname : string)
    (params : pyval) : M unit :=
  RunTwoStageJobs (map (λ p, (p, methodname, params)) proxies)
                  Fn_RunSequentialJobs.

Definition _hybrid_requests (proxies : list ref) (methodname : string)
    (params : pyval) : M unit :=
  RunTwoStageJobs (map (λ p, (p, methodname, params)) proxies)
                  Fn_threaded_requests.
End schedulers.

(** ** The ParallelServerProxy classes *)

(** An item of [servers]: a [str] address, or any other object. *)
Inductive server : Type :=
| SAddr (s : string)
| SObject (r : ref).

(** [**kwargs] of [_ParallelServerProxy.__init__]: the optional
    [tssp_localhost_only], and what is passed on to the proxies. *)
Record psp_kwargs : Type := MkPspKwargs {
  kw_tssp_localhost_only : option bool;
  kw_proxy : proxy_kwargs
}.

(** The class [_make_psp] returns is determined by its arguments. *)
Record psp_class : Type := _make_psp {
  KIND : string;
  handle_request : callable;
  tssp_localhost_only : bool
}.

(** [pat in s] *)
Definition str_contains (pat s : string) : bool :=
  bool_decide (is_Some (String.index 0 pat s)).

Section facade.
Context (E : Env).

(** [xmlrpclib.ServerProxy(s, **kwargs)] *)
Definition new_ServerProxy (s : string) (kw : proxy_kwargs) : M ref :=
  match ServerProxy_init E s kw with
  | Some e => raise e
  | None => alloc (OServerProxy s)
  end.

(** [try: m  except UnknownProtocolError: h] *)
Definition except_UnknownProtocolError {A} (m h : M A) : M A :=
  try_except m (λ exc,
    match exc with
    | UnknownProtocolError _ => h
    | _ => raise exc
    end).

(** The body of [for s in servers] up to the [append]. *)
Definition make_proxy (tssp_lo : bool) (kw : proxy_kwargs) (s : server) : M ref :=
  match s with
  | SAddr s =>
      if negb tssp_lo || str_contains "://localhost" s
         || str_contains "://127.0.0." s || str_contains "://::1/" s
      then
        except_UnknownProtocolError
          (TwoStageServerProxy.init E s kw)
          (new_ServerProxy s kw)
      else new_ServerProxy s kw
  | SObject r => mret r
  end.

Fixpoint make_proxies (tssp_lo : bool) (kw : proxy_kwargs)
    (servers : list server) (proxies : list ref) : M (list ref) :=
  match servers with
  | [] => mret proxies
  | s :: servers' =>
      p ← make_proxy tssp_lo kw s;
      make_proxies tssp_lo kw servers' (proxies ++ [p])
  end.

(** [_ParallelServerProxy.__init__]; the result is [self.__proxies]. *)
Definition psp_init (cls : psp_class) (servers : list server)
    (kwargs : psp_kwargs) : M (list ref) :=
  let tssp_lo :=
    match kw_tssp_localhost_only kwargs with
    | Some b => b
    | None => tssp_localhost_only cls
    end in
  make_proxies tssp_lo (kw_proxy kwargs) servers [].

(** [handle_request(self.__proxies, methodname, params)] *)
Definition psp_request (cls : psp_class) (proxies : list ref)
    (methodname : string) (params : pyval) : M unit :=
  match handle_request cls with
  | Fn_sequential_requests => _sequential_requests E proxies methodname params
  | Fn_threaded_requests => _threaded_requests E proxies methodname params
  | Fn_two_stage_requests => _two_stage_requests E proxies methodname params
  | Fn_hybrid_requests => _hybrid_requests E proxies methodname params
  | Fn_RunSequentialJobs =>
      raise (TypeError "RunSequentialJobs() takes exactly 1 argument (3 given)")
  | Fn_RunThreadedJobs =>
      raise (TypeError "RunThreadedJobs() takes exactly 1 argument (3 given)")
  end.

(** [__close]: [for p in self.__proxies: p.__close()].  Inside the class
    body the name [__close] is mangled, so the attribute looked up on [p]
    is [_ParallelServerProxy__close].  [TwoStageServerProxy] defines
    [close] only and no [__getattr__]; on any other object the lookup and
    the call are the object's own, as in [_sequential_request]. *)
Definition psp_close (proxies : list ref) : M unit :=
  for_each proxies (λ p,
    w ← get_world;
    if is_two_stage w p then
      raise (AttributeError
        "'TwoStageServerProxy' object has no attribute '_ParallelServerProxy__close'")
    else
      t ← tick;
      emit (EvCall p "_ParallelServerProxy__close" (PTuple []));;
      lift (obj_call E p "_ParallelServerProxy__close" (PTuple []) t);;
      mret tt).
End facade.

Definition PretendParallelServerProxy : psp_class :=
  _make_psp "Pretend" Fn_sequential_requests false.

Definition ThreadedParallelServerProxy : psp_class :=
  _make_psp "Threaded" Fn_threaded_requests false.

Definition TwoStageParallelServerProxy : psp_class :=
  _make_psp "TwoStage" Fn_two_stage_requests false.

Definition HybridParallelServerProxy : psp_class :=
  _make_psp "Hybrid" Fn_hybrid_requests true.

Definition RunParallelJobs := RunTwoStageJobs.

(** ** A concrete environment

    Used to run the schedulers on concrete batches.  The scheme of an
    address is split off as [urllib.splittype] does, the host at the first
    [/] after [//]; a request body is the
    method name followed by a rendering of the arguments; the connection of
    the [seq]-th request of proxy [p] is [100 * p + seq] and its socket has
    the same number; sending to host ["down"] is refused; host ["missing"]
    answers 404 and host ["faulty"] answers with a fault. *)
Module Demo.

Fixpoint render (v : pyval) : string :=
  match v with
  | PNone => "nil"
  | PBool b => "boolean"
  | PInt z => "int"
  | PFloat x => "double"
  | PStr s => s
  | PTuple items => "(" +:+ String.concat "," (map render items) +:+ ")"
  | PList items => "[" +:+ String.concat "," (map render items) +:+ "]"
  end.

(** [str.lower] on ASCII letters. *)
Definition lower_ascii (c : Ascii.ascii) : Ascii.ascii :=
  let n := Ascii.nat_of_ascii c in
  if (65 <=? n) && (n <=? 90) then Ascii.ascii_of_nat (n + 32) else c.

Fixpoint lower (s : string) : string :=
  match s with
  | EmptyString => EmptyString
  | String c s' => String (lower_ascii c) (lower s')
  end.

(** The length of the match of [^([^/:]+):] without its colon, counted
    from a position where the characters before it are neither [/] nor
    [:]. *)
Fixpoint scheme_length (s : string) : option nat :=
  match s with
  | EmptyString => None
  | String c s' =>
      if Ascii.nat_of_ascii c =? 58 then Some 0        (* ':' *)
      else if Ascii.nat_of_ascii c =? 47 then None     (* '/' *)
      else S <$> scheme_length s'
  end.

(** [urllib.splittype]: the scheme is what precedes the first [:] when
    it is not empty and holds no [/]; it is returned in lower case, with
    the rest of the address after the colon. *)
Definition demo_splittype (url : string) : option string * string :=
  match scheme_length url with
  | Some (S n) =>
      (Some (lower (String.substring 0 (S n) url)),
       String.substring (S (S n)) (String.length url) url)
  | _ => (None, url)
  end.

Definition demo_splithost (url : string) : option string * string :=
  if String.prefix "//" url then
    let rest := String.substring 2 (String.length url) url in
    match String.index 0 "/" rest with
    | Some n => (Some (String.substring 0 n rest), String.substring n (String.length rest) rest)
    | None => (Some rest, "")
    end
  else (None, url).

(** The hosts of the proxies at references 0, 1, 2, ... *)
Definition env (hosts : list string)
    (select : nat → list sockfd → exn + (list sockfd * list sockfd))
    (schedule : nat → nat → list nat) : Env := {|
  xml_dumps a m enc an := inr (m +:+ render a);
  make_connection p h seq := inr (100 * p + seq);
  net_send h host handler body :=
    if bool_decide (host = Some "down")
    then Some (IOError "[Errno 111] Connection refused") else None;
  conn_sock h := Some h;
  conn_getresponse h :=
    match hosts !! (h `div` 100) with
    | Some "missing" => inr (404%Z, "Not Found")
    | Some "faulty" => inr (200%Z, "fault")
    | Some "reset" => inl (IOError "[Errno 104] Connection reset by peer")
    | Some name => inr (200%Z, name)
    | None => inl (IOError "no such connection")
    end;
  xml_parse_response body :=
    if bool_decide (body = "fault") then inl (Fault 1 "boom")
    else inr [PStr body];
  sys_select := select;
  set_iter := remove_dups;
  dict_items := id;
  obj_call p m a t := inr (PStr m);
  thread_schedule := schedule;
  splittype := demo_splittype;
  splithost := demo_splithost;
  ServerProxy_init uri kw :=
    match (demo_splittype uri).1 with
    | Some "http" | Some "https" => None
    | _ => Some (IOError "unsupported XML-RPC protocol")
    end
|}.

(** Every descriptor is ready at once. *)
Definition all_ready (t : nat) (fds : list sockfd)
    : exn + (list sockfd * list sockfd) :=
  inr (fds, []).

(** Threads complete in submission order. *)
Definition in_order (t n : nat) : list nat := seq 0 n.

Definition empty_world : world := World ∅ 0.

(** The store after [TwoStageServerProxy("http://" + h + "/")] for each
    host, followed by [n] objects of another class. *)
Definition two_stage_world (hosts : list string) (n : nat) : world :=
  World (list_to_map
           (imap (λ i h, (i, OTwoStage (MkProxy (Some h) "/" (MkTransport 0) None 0 0))) hosts
            ++ map (λ i, (i, OOther)) (seq (length hosts) n)))
        0.
End Demo.

(** * Specification vocabulary

    Definitions used to state the properties below: views of a trace, what
    a loop computes on its data, and what the loops maintain. *)

(** ** The store along a run *)

(** The same object, up to the sequence counter of a proxy's transport. *)
Definition same_object (o o' : option obj) : Prop :=
  match o, o' with
  | Some (OTwoStage a), Some (OTwoStage b) =>
      host a = host b ∧ handler a = handler b ∧ encoding a = encoding b
      ∧ verbose a = verbose b ∧ allow_none a = allow_none b
  | _, _ => o = o'
  end.

Definition same_objects (w w' : world) : Prop :=
  ∀ p, same_object (heap w !! p) (heap w' !! p).

(** [p.request_format()] read off the store. *)
Definition format_of (w : world) (p : ref) : option string * Z :=
  match heap w !! p with
  | Some (OTwoStage px) => (encoding px, allow_none px)
  | _ => (None, 0%Z)
  end.

(** The [formats] key of a job. *)
Definition key_of (w : world) (j : job) : fmtkey :=
  (j.1.2, j.2, format_of w j.1.1).

(** The key of a job as the dictionary sees it: two jobs have one entry in
    [formats] when their keys are equal by [==]. *)
Definition key_class (w : world) (j : job) : fmtkey := py_key (key_of w j).

(** The first job of the batch with its key. *)
Definition first_of_key (w : world) (tsjs : list job) (j : job) : Prop :=
  ∃ l1 l2, tsjs = l1 ++ j :: l2 ∧ key_class w j ∉ key_class w <$> l1.

(** The handle of a recorded pair carries the current token of its
    proxy's transport. *)
Definition handle_current (w : world) (pr : ref * req_state) : Prop :=
  match pr.2 with
  | StHandle hd =>
      ∃ px, heap w !! pr.1 = Some (OTwoStage px) ∧ t_seq (transport px) = hd.2
  | StExc _ => True
  end.

(** ** Views of a trace *)

Definition is_start_event (ev : event) : bool :=
  match ev with
  | EvMakeRequest _ _ _ | EvStartRequest _ _ | EvClose _ => true
  | _ => false
  end.

Definition is_fallback_event (ev : event) : bool :=
  match ev with
  | EvCall _ _ _ | EvYield _ => true
  | _ => false
  end.

Definition is_pipeline_event (ev : event) : bool :=
  match ev with
  | EvSelect _ | EvFinishRequest _ _ | EvClose _ | EvYield _ => true
  | _ => false
  end.

(** The calls of [make_request] and of [start_request] in a trace. *)
Definition make_request_calls (tr : list event) : list job :=
  omap (λ ev, match ev with EvMakeRequest p m a => Some (p, m, a) | _ => None end) tr.

Definition start_request_calls (tr : list event) : list (ref * string) :=
  omap (λ ev, match ev with EvStartRequest p body => Some (p, body) | _ => None end) tr.

(** The proxy an event of the two-stage protocol is about. *)
Definition multiplexed (ev : event) : option ref :=
  match ev with
  | EvStartRequest p _ | EvFinishRequest p _ => Some p
  | _ => None
  end.

(** Every event of every run of [m] satisfies [P], no run of [m] ends in [Hang],
    and the objects of the store keep their class and fields. *)
Definition emits {A} (P : event → Prop) (m : M A) : Prop :=
  ∀ w o w' tr, m w = (o, w', tr) →
    Forall P tr ∧ o ≠ Hang ∧ same_objects w w'.

(** ** RunSequentialJobs *)

(** The outcomes of the jobs, each run in the store its predecessors left:
    the i-th result is what [_sequential_request] returns for the i-th
    job. *)
Inductive job_results (E : Env) : list job → world → list result → world → Prop :=
| job_results_nil w : job_results E [] w [] w
| job_results_cons p m a jobs w r w1 t1 rs w2 :
    _sequential_request E p m a w = (Ok r, w1, t1) →
    job_results E jobs w1 rs w2 →
    job_results E ((p, m, a) :: jobs) w (r :: rs) w2.

(** ** RunTwoStageJobs: the start phase *)

(** The jobs [RunTwoStageJobs] pipelines ([tsjs]), and the [others]. *)
Definition two_stage_jobs (w : world) (jobs : list job) : list job :=
  filter (λ j : job, is_two_stage w j.1.1) jobs.

Definition other_jobs (w : world) (jobs : list job) : list job :=
  filter (λ j : job, ¬ is_two_stage w j.1.1) jobs.

(** What the first loop computes when every argument list is hashable. *)
Fixpoint collect_keys (w : world) (tsjs : list job)
    (formats : list (fmtkey * fmtval)) : list (fmtkey * fmtval) :=
  match tsjs with
  | [] => formats
  | j :: tsjs' =>
      match dict_get (key_of w j) formats with
      | Some _ => collect_keys w tsjs' formats
      | None => collect_keys w tsjs' (formats ++ [(key_of w j, FProxy j.1.1)])
      end
  end.

(** [xmlrpclib.dumps] on the components of a key. *)
Definition dumps_key (E : Env) (k : fmtkey) : exn + string :=
  xml_dumps E k.1.2 k.1.1 k.2.1 k.2.2.

(** An entry of [formats] as the first loop leaves it: a proxy whose request
    format is the one in the key. *)
Definition item_ok (w : world) (it : fmtkey * fmtval) : Prop :=
  ∃ p, it.2 = FProxy p ∧ is_two_stage w p = true ∧ format_of w p = it.1.2.

(** The call a stored proxy is asked to make. *)
Definition item_call (it : fmtkey * fmtval) : option job :=
  match it.2 with
  | FProxy p => Some (p, it.1.1.1, it.1.1.2)
  | FBody _ => None
  end.

(** The second loop does not touch the store: its outcome and its calls are
    a function of the items. *)
Fixpoint encode_items (E : Env) (items formats : list (fmtkey * fmtval))
    : outcome (list (fmtkey * fmtval)) * list event :=
  match items with
  | [] => (Ok formats, [])
  | (k, FProxy p) :: items' =>
      match dumps_key E k with
      | inl e => (Raise e, [EvMakeRequest p k.1.1 k.1.2])
      | inr body =>
          let '(o, tr) := encode_items E items' (dict_set k (FBody body) formats) in
          (o, EvMakeRequest p k.1.1 k.1.2 :: tr)
      end
  | (k, FBody _) :: _ =>
      (Raise (AttributeError "'str' object has no attribute 'make_request'"), [])
  end.

(** Each recorded pair holds what [start_request] returned for its job. *)
Definition started_by (E : Env) (j : job) (pr : ref * req_state) : Prop :=
  pr.1 = j.1.1
  ∧ ∃ body w w' tr,
      TwoStageServerProxy.start_request E j.1.1 body w = (Ok pr.2, w', tr).

(** ** RunTwoStageJobs: the fallback, the poll loop and the final loop *)

(** What a run of the fallback over jobs of another class looks like:
    calls and yields only, and a store whose objects are untouched. *)
Definition fallback_run (w : world) (w' : world) (tr : list event) : Prop :=
  heap w' = heap w ∧ Forall (λ ev, is_fallback_event ev = true) tr.

(** The fallback serves every job of another class it is given. *)
Definition fallback_completes (E : Env) (fallback : callable)
    (others : list job) : Prop :=
  ∀ w, Forall (λ j : job, is_two_stage w j.1.1 = false) others →
    ∃ w' tr, call_fallback E fallback others w = (Ok tt, w', tr)
      ∧ length (yields tr) = length others.

(** [select] returns at least one of the descriptors it was given, and a
    set is iterated without repetition. *)
Definition select_responsive (E : Env) : Prop :=
  ∀ t fds, fds ≠ [] →
    ∃ r e, sys_select E t fds = inr (r, e)
      ∧ set_iter E (r ++ e) ≠ []
      ∧ NoDup (set_iter E (r ++ e))
      ∧ set_iter E (r ++ e) ⊆ fds.

Definition is_handle (st : req_state) : bool :=
  match st with StHandle _ => true | StExc _ => false end.

(** What the loops maintain: [socklist] maps descriptors to recorded pairs
    whose state is a handle, each pair under at most one descriptor. *)
Definition socklist_ok (started : list (ref * req_state))
    (socklist : gmap sockfd (ref * req_state)) : Prop :=
  ∀ k pr, socklist !! k = Some pr → is_handle pr.2 = true ∧ pr ∈ started.

Definition socklist_inj (socklist : gmap sockfd (ref * req_state)) : Prop :=
  ∀ k1 k2 pr, socklist !! k1 = Some pr → socklist !! k2 = Some pr → k1 = k2.

(** The events of the poll loop and of the final loop: a [select], or a
    [finish_request] on a recorded pair followed by the [yield] of what it
    returned. *)
Inductive pipeline_trace (started : list (ref * req_state)) : list event → Prop :=
| pipeline_nil : pipeline_trace started []
| pipeline_select fds tr :
    pipeline_trace started tr →
    pipeline_trace started (EvSelect fds :: tr)
| pipeline_finish p st cl r tr :
    (p, st) ∈ started →
    cl = [] ∨ cl = [EvClose p] →
    pipeline_trace started tr →
    pipeline_trace started (EvFinishRequest p st :: cl ++ EvYield r :: tr).

(** The pairs of [started] whose start failed. *)
Definition failed (started : list (ref * req_state)) : list (ref * exn) :=
  omap (λ pr : ref * req_state,
          match pr.2 with StExc e => Some (pr.1, e) | StHandle _ => None end)
       started.

(** No [finish_request] on an exception object. *)
Definition no_failed_finish (tr : list event) : Prop :=
  Forall (λ ev, match ev with EvFinishRequest _ (StExc _) => False | _ => True end) tr.

(** The [finish_request] calls on exception objects, each with the value
    yielded right after it. *)
Fixpoint failed_results (tr : list event) : list (ref * exn * option result) :=
  match tr with
  | [] => []
  | EvFinishRequest p (StExc e) :: tr' =>
      (p, e, match tr' with EvYield r :: _ => Some r | _ => None end)
        :: failed_results tr'
  | _ :: tr' => failed_results tr'
  end.

(** The result of a job whose start failed is yielded without waiting for
    the poll loop: in the trace, its [finish_request] and the yield of
    [(None, exc)] come before any [select]. *)
Definition yielded_before_poll (tr : list event) (p : ref) (e : exn) : Prop :=
  ∃ tr1 tr2,
    tr = tr1 ++ EvFinishRequest p (StExc e) :: EvYield (PNone, Some e) :: tr2
    ∧ Forall (λ ev, is_select ev = false) tr1.

(** ** A request on one proxy *)

(** The proxy after [self._seq += 1] on its transport, and the store once
    the request of proxy [p] has been started. *)
Definition advance_seq (px : TwoStageServerProxy_obj) : TwoStageServerProxy_obj :=
  MkProxy (host px) (handler px) (MkTransport (S (t_seq (transport px))))
          (encoding px) (verbose px) (allow_none px).

Definition after_start (w : world) (p : ref) (px : TwoStageServerProxy_obj) : world :=
  World (<[p := OTwoStage (advance_seq px)]> (heap w)) (clock w).

(** The value of a response: the only item of a one-item tuple, the tuple
    itself otherwise. *)
Definition response_value (items : list pyval) : pyval :=
  match items with
  | [v] => v
  | _ => PTuple items
  end.

(** The events of [except Fault: raise] / [except: self.close(); raise]. *)
Definition close_unless_Fault (p : ref) (e : exn) : list event :=
  if is_Fault e then [] else [EvClose p].

(** ** The proxies of a ParallelServerProxy *)

(** The test on an address that [tssp_localhost_only] adds. *)
Definition local_address (s : string) : bool :=
  str_contains "://localhost" s || str_contains "://127.0.0." s
  || str_contains "://::1/" s.


(** The addresses that are given a [TwoStageServerProxy]. *)
Definition two_stage_address (E : Env) (tssp_lo : bool) (s : string) : bool :=
  bool_decide ((splittype E s).1 = Some "http") && (negb tssp_lo || local_address s).

(** What [TwoStageServerProxy.__init__] stores for a URI and its keyword
    arguments. *)
Definition new_proxy (E : Env) (uri : string) (kw : proxy_kwargs)
    : TwoStageServerProxy_obj :=
  let hh := splithost E (splittype E uri).2 in
  MkProxy hh.1 (if bool_decide (hh.2 = "") then "/RPC2" else hh.2) (MkTransport 0)
          (kw_encoding kw) (kw_verbose kw) (kw_allow_none kw).

(** ** The order in which started requests are finished *)

(** The calls of [finish_request] in a trace, and the calls of methods of
    objects of another class. *)
Definition finish_calls (tr : list event) : list (ref * req_state) :=
  omap (λ ev, match ev with EvFinishRequest p st => Some (p, st) | _ => None end) tr.

Definition method_calls (tr : list event) : list job :=
  omap (λ ev, match ev with EvCall p m a => Some (p, m, a) | _ => None end) tr.

(** The descriptor of a recorded pair: [h.sock] for a handle, none for an
    exception object. *)
Definition sockfd_of (E : Env) (pr : ref * req_state) : option sockfd :=
  match pr.2 with
  | StHandle hd => conn_sock E hd.1.1
  | StExc _ => None
  end.

(** No two started requests share a descriptor. *)
Definition distinct_sockets (E : Env) (started : list (ref * req_state)) : Prop :=
  ∀ pr1 pr2 fd,
    pr1 ∈ started → pr2 ∈ started →
    sockfd_of E pr1 = Some fd → sockfd_of E pr2 = Some fd → pr1 = pr2.

(** ** The outcome of a call, as the specification describes it

    "For each Job in order, perform the call synchronously (two-stage
    endpoints use a one-shot start-then-finish instead of their native
    atomic call), capturing any failure as an error Result."  The
    definitions below follow these words, not the code: they say which
    collaborators are asked, in which order, and which pair comes out. *)

(** Start-then-finish on the proxy [px] at reference [p] with an encoded
    body: connect, write, read the response and decode it.  The first
    failure is the error of the pair; a status other than 200, for which
    no collaborator raises, gives the [TypeError] of [len(None)]. *)
Definition exchange_outcome (E : Env) (p : ref) (px : TwoStageServerProxy_obj)
    (body : string) : result :=
  match make_connection E p (host px) (S (t_seq (transport px))) with
  | inl e => (PNone, Some e)
  | inr h =>
      match net_send E h (host px) (handler px) body with
      | Some e => (PNone, Some e)
      | None =>
          match conn_getresponse E h with
          | inl e => (PNone, Some e)
          | inr (status, rb) =>
              if bool_decide (status = 200%Z) then
                match xml_parse_response E rb with
                | inl e => (PNone, Some e)
                | inr items => (response_value items, None)
                end
              else (PNone, Some (TypeError "object of type 'NoneType' has no len()"))
          end
      end
  end.

(** The pair of one job and the store it leaves.  On a two-stage endpoint
    the arguments are encoded first, and the exchange uses up one token of
    the transport; on any other object the method is called, at the time of
    the clock. *)
Definition call_outcome (E : Env) (w : world) (j : job) : result * world :=
  match heap w !! j.1.1 with
  | Some (OTwoStage px) =>
      match xml_dumps E j.2 j.1.2 (encoding px) (allow_none px) with
      | inl e => ((PNone, Some e), w)
      | inr body => (exchange_outcome E j.1.1 px body, after_start w j.1.1 px)
      end
  | _ =>
      (match obj_call E j.1.1 j.1.2 j.2 (clock w) with
       | inl e => (PNone, Some e)
       | inr v => (v, None)
       end,
       World (heap w) (S (clock w)))
  end.

(** The pairs of a batch, each job run in the store its predecessors left. *)
Fixpoint outcomes (E : Env) (w : world) (jobs : list job) : list result :=
  match jobs with
  | [] => []
  | j :: jobs' => (call_outcome E w j).1 :: outcomes E (call_outcome E w j).2 jobs'
  end.

(** * Properties *)

(** ** Running computations *)

Ltac munfold :=
  unfold TwoStageServerProxy.finish_request, TwoStageServerProxy.start_request,
    TwoStageServerProxy.make_request, TwoStageServerProxy.get_sockfd,
    TwoStageServerProxy.request_format, TwoStageServerProxy.request,
    TwoStageTransport.finish_request, TwoStageTransport.start_request,
    TwoStageTransport.get_sockfd, TwoStageTransport.incr_seq,
    TwoStageTransport.reraise, TwoStageTransport.close,
    py_hash, py_len, py_item0, py_assert, get_proxy, set_proxy, lift, yield,
    emit, tick, get_world, try_except, hang, raise,
    mbind, M_bind, bind, mret, M_ret, ret in *.

Lemma bind_inv {A B} (m : M A) (k : A → M B) w o w' tr :
  (m ≫= k) w = (o, w', tr) →
  (∃ a w1 t1 t2, m w = (Ok a, w1, t1) ∧ k a w1 = (o, w', t2) ∧ tr = t1 ++ t2)
  ∨ (∃ e, m w = (Raise e, w', tr) ∧ o = Raise e)
  ∨ (m w = (Hang, w', tr) ∧ o = Hang).
Proof.
  unfold mbind, M_bind, bind. destruct (m w) as [[[a|e|] w1] t1].
  - destruct (k a w1) as [[o2 w2] t2] eqn:Hk. intros [= <- <- <-].
    left. by exists a, w1, t1, t2.
  - intros [= <- <- <-]. right; left. by exists e.
  - intros [= <- <- <-]. by right; right.
Qed.

Lemma bind_ok {A B} (m : M A) (k : A → M B) w a w1 t1 :
  m w = (Ok a, w1, t1) →
  (m ≫= k) w = let '(o, w2, t2) := k a w1 in (o, w2, t1 ++ t2).
Proof. unfold mbind, M_bind, bind. by intros ->. Qed.

Lemma bind_ok_nil {A B} (m : M A) (k : A → M B) w a w1 :
  m w = (Ok a, w1, []) → (m ≫= k) w = k a w1.
Proof.
  intros Hm. rewrite (bind_ok _ _ _ _ _ _ Hm).
  by destruct (k a w1) as [[o w2] t2].
Qed.

Lemma bind_raise {A B} (m : M A) (k : A → M B) w e w1 t1 :
  m w = (Raise e, w1, t1) → (m ≫= k) w = (Raise e, w1, t1).
Proof. unfold mbind, M_bind, bind. by intros ->. Qed.

Lemma yields_app tr1 tr2 : yields (tr1 ++ tr2) = yields tr1 ++ yields tr2.
Proof. apply omap_app. Qed.

(** ** The store along a run

    Nothing the schedulers do changes the class of an object or the fields
    of a proxy other than its transport's [_seq]. *)

Lemma same_object_refl o : same_object o o.
Proof. by destruct o as [[]|]. Qed.

Lemma same_object_trans o1 o2 o3 :
  same_object o1 o2 → same_object o2 o3 → same_object o1 o3.
Proof.
  destruct o1 as [[]|], o2 as [[]|], o3 as [[]|]; simpl; try done;
    try congruence; intuition congruence.
Qed.

#[global] Instance same_objects_preorder : PreOrder same_objects.
Proof.
  split.
  - intros w p. apply same_object_refl.
  - intros w1 w2 w3 H12 H23 p. eapply same_object_trans; [apply H12|apply H23].
Qed.

Lemma same_objects_two_stage w w' p :
  same_objects w w' → is_two_stage w' p = is_two_stage w p.
Proof.
  intros H. specialize (H p). unfold is_two_stage, same_object in *.
  repeat case_match; simplify_eq; done.
Qed.

Lemma same_objects_format w w' p :
  same_objects w w' → format_of w' p = format_of w p.
Proof.
  intros H. specialize (H p). unfold format_of, same_object in *.
  repeat case_match; simplify_eq; try done. intuition congruence.
Qed.

Lemma request_format_run p w :
  is_two_stage w p →
  TwoStageServerProxy.request_format p w = (Ok (format_of w p), w, []).
Proof.
  unfold is_two_stage, format_of. munfold.
  repeat case_match; simplify_eq; done.
Qed.

(** ** The methods of a proxy *)

(** [finish_request] never raises and leaves the store alone; on an
    exception object it returns [(None, exc)] without touching the
    transport. *)
Lemma finish_request_run E p st w :
  ∃ r cl, TwoStageServerProxy.finish_request E p st w
            = (Ok r, w, EvFinishRequest p st :: cl)
    ∧ (cl = [] ∨ cl = [EvClose p])
    ∧ (r.2 = None ∨ r.1 = PNone)
    ∧ (∀ e, st = StExc e → r = (PNone, Some e) ∧ cl = []).
Proof.
  destruct st as [[[h v] s]|e]; munfold; simpl.
  2: { eexists _, _; split; [done|]; naive_solver. }
  repeat (case_match; simplify_eq/=); eexists _, _;
    (split; [reflexivity|]); naive_solver.
Qed.

Lemma set_seq_same_objects w p px n :
  heap w !! p = Some (OTwoStage px) →
  same_objects w
    (World (<[p := OTwoStage (MkProxy (host px) (handler px) (MkTransport n)
                                       (encoding px) (verbose px) (allow_none px))]>
              (heap w)) (clock w)).
Proof.
  intros Hp q. simpl. destruct (decide (p = q)) as [<-|Hne].
  - rewrite lookup_insert_eq, Hp. done.
  - rewrite lookup_insert_ne by done. apply same_object_refl.
Qed.

(** [start_request] never raises: whatever the transport raises comes back
    as the state. *)
Lemma start_request_run E p body w :
  ∃ st w' cl, TwoStageServerProxy.start_request E p body w
                = (Ok st, w', EvStartRequest p body :: cl)
    ∧ (cl = [] ∨ cl = [EvClose p])
    ∧ same_objects w w'.
Proof.
  munfold; simpl.
  destruct (heap w !! p) as [[px| |]|] eqn:Hp; simpl;
    try (eexists _, _, _; split; [reflexivity|]; split; [by left|reflexivity]).
  pose proof (set_seq_same_objects w p px (S (t_seq (transport px))) Hp) as Hs.
  repeat (case_match; simplify_eq/=); eexists _, _, _;
    (split; [reflexivity|]); (split; [|done]); naive_solver.
Qed.

Lemma start_request_sentinel E p body w px e w1 t1 :
  heap w !! p = Some (OTwoStage px) →
  TwoStageTransport.start_request E p (host px) (handler px) body (verbose px) w
    = (Raise e, w1, t1) →
  TwoStageServerProxy.start_request E p body w
    = (Ok (StExc e), w1, EvStartRequest p body :: t1).
Proof.
  intros Hp Hrun. munfold; simpl in *. rewrite Hp in *; simpl in *.
  repeat (case_match; simplify_eq/=); congruence.
Qed.

Lemma make_request_run E p m a w px :
  heap w !! p = Some (OTwoStage px) →
  TwoStageServerProxy.make_request E p m a w
  = (match xml_dumps E a m (encoding px) (allow_none px) with
     | inl e => Raise e
     | inr body => Ok body
     end, w, [EvMakeRequest p m a]).
Proof.
  intros Hp. munfold; simpl. rewrite Hp; simpl.
  by destruct (xml_dumps E a m (encoding px) (allow_none px)).
Qed.

Lemma get_sockfd_run E p st w :
  ∃ o, TwoStageServerProxy.get_sockfd E p st w = (o, w, []) ∧ o ≠ Hang
       ∧ (∀ fd, o = Ok (Some fd) → ∃ hd, st = StHandle hd).
Proof.
  destruct st as [[[h v] s]|e]; munfold; simpl;
    repeat (case_match; simplify_eq/=); eexists; (split; [reflexivity|]);
    naive_solver.
Qed.

(** ** _sequential_request and RunSequentialJobs *)

(** On an object of another class the call is a single call of the
    method; what it raises is returned as the error of the pair. *)
Lemma sequential_request_other E p m a w :
  is_two_stage w p = false →
  _sequential_request E p m a w
  = (Ok (match obj_call E p m a (clock w) with
         | inl exc => (PNone, Some exc)
         | inr v => (v, None)
         end),
     World (heap w) (S (clock w)), [EvCall p m a]).
Proof.
  intros Hp. unfold _sequential_request. munfold; simpl. rewrite Hp; simpl.
  by destruct (obj_call E p m a (clock w)).
Qed.

(** [_sequential_request] returns a pair whatever happens during the call. *)
Lemma sequential_request_total E p m a w :
  ∃ r w' tr, _sequential_request E p m a w = (Ok r, w', tr)
    ∧ (r.2 = None ∨ r.1 = PNone)
    ∧ yields tr = []
    ∧ same_objects w w'.
Proof.
  destruct (is_two_stage w p) eqn:Hp.
  2: { rewrite sequential_request_other by done. eexists _, _, _.
       split; [done|]. split; [by case_match; [right|left]|].
       split; [done|]. intros q. apply same_object_refl. }
  unfold _sequential_request, try_except, get_world.
  rewrite (bind_ok_nil _ _ w w w) by done. rewrite Hp.
  unfold TwoStageServerProxy.request.
  unfold is_two_stage in Hp.
  destruct (heap w !! p) as [[px| |]|] eqn:Hpx; try done.
  unfold mbind at 1, M_bind at 1, bind at 1.
  rewrite (make_request_run E p m a w px Hpx).
  destruct (xml_dumps E a m (encoding px) (allow_none px)) as [e|body].
  { simpl. eexists _, _, _. split; [done|]. split; [by right|done]. }
  unfold mbind at 1, M_bind at 1, bind at 1.
  destruct (start_request_run E p body w) as (st & w1 & cl & -> & Hcl & Hw1).
  destruct (finish_request_run E p st w1) as (r & cl' & -> & Hcl' & Hr & _).
  simpl. eexists _, _, _. split; [done|]. split; [done|]. split; [|done].
  by destruct Hcl as [-> | ->], Hcl' as [-> | ->].
Qed.

Lemma job_results_length E jobs w rs w' :
  job_results E jobs w rs w' → length rs = length jobs.
Proof. induction 1; simpl; congruence. Qed.

Lemma RunSequentialJobs_run E jobs w :
  ∃ w' tr, RunSequentialJobs E jobs w = (Ok tt, w', tr)
    ∧ job_results E jobs w (yields tr) w'
    ∧ same_objects w w'.
Proof.
  revert w. induction jobs as [|[[p m] a] jobs IH]; intros w.
  { exists w, []. split; [done|]. split; [constructor|done]. }
  destruct (sequential_request_total E p m a w)
    as (r & w1 & t1 & Hr & _ & Ht1 & Hw1).
  destruct (IH w1) as (w2 & t2 & Hrest & Hres & Hw2).
  exists w2, ((t1 ++ [EvYield r]) ++ t2).
  split.
  { unfold RunSequentialJobs in *. simpl.
    erewrite bind_ok; [by rewrite Hrest|].
    by erewrite bind_ok by done. }
  split; [|by etrans].
  rewrite !yields_app, Ht1. simpl.
  by econstructor.
Qed.

(** ** RunTwoStageJobs: the two branches *)

Lemma RunTwoStageJobs_unfold E jobs fallback w :
  RunTwoStageJobs E jobs fallback w
  = if bool_decide (two_stage_jobs w jobs = []) then
      (Raise (NameError "global name 'proxies' is not defined"), w, [])
    else
      (started ← start_phase E (two_stage_jobs w jobs);
       finish_phase E fallback (other_jobs w jobs) started) w.
Proof.
  unfold RunTwoStageJobs, get_world.
  rewrite (bind_ok_nil _ _ w w w) by done.
  fold (two_stage_jobs w jobs). fold (other_jobs w jobs).
  case_bool_decide; [done|].
  unfold mbind, M_bind, bind.
  destruct (start_phase E (two_stage_jobs w jobs) w) as [[[started| |] w1] t1];
    simpl; try done.
  destruct (finish_phase _ _ _ _ _) as [[o w2] t2]. simpl.
  by rewrite app_nil_r.
Qed.

Lemma two_stage_jobs_Forall w jobs :
  Forall (λ j : job, is_two_stage w j.1.1 = true) (two_stage_jobs w jobs).
Proof.
  apply Forall_forall. intros j [Hj _]%list_elem_of_filter.
  by apply Is_true_true.
Qed.

Lemma other_jobs_Forall w jobs :
  Forall (λ j : job, is_two_stage w j.1.1 = false) (other_jobs w jobs).
Proof.
  apply Forall_forall. intros j [Hj _]%list_elem_of_filter.
  by destruct (is_two_stage w j.1.1).
Qed.

Lemma jobs_partition_length w jobs :
  length (two_stage_jobs w jobs) + length (other_jobs w jobs) = length jobs.
Proof.
  unfold two_stage_jobs, other_jobs.
  induction jobs as [|j jobs IH]; [done|].
  rewrite !filter_cons. destruct (decide _), (decide _); simpl; try lia; done.
Qed.

(** ** The formats dictionary *)

Lemma collect_formats_run tsjs formats w :
  Forall (λ j : job, is_two_stage w j.1.1 = true) tsjs →
  collect_formats tsjs formats w
  = if forallb (λ j : job, hashable j.2) tsjs
    then (Ok (collect_keys w tsjs formats), w, [])
    else (Raise (TypeError "unhashable type: 'list'"), w, []).
Proof.
  intros Hts. revert formats.
  induction Hts as [|[[p m] a] tsjs Hp _ IH]; intros formats; [done|].
  simpl in *.
  erewrite bind_ok_nil by (apply request_format_run; by rewrite Hp).
  unfold py_hash; simpl.
  destruct (hashable a); simpl.
  - erewrite bind_ok_nil by done. unfold key_of; simpl.
    by destruct (dict_get _ formats); simpl; rewrite IH.
  - by erewrite bind_raise by done.
Qed.

(** ** The start phase *)

Lemma encode_formats_run E items formats w :
  Forall (item_ok w) items →
  encode_formats E items formats w
  = let '(o, tr) := encode_items E items formats in (o, w, tr).
Proof.
  intros Hitems. revert formats.
  induction Hitems as [|[k v] items (p & Hv & Hp & Hf) _ IH]; intros formats;
    [done|].
  simpl in *. subst v. unfold is_two_stage, format_of in *.
  destruct (heap w !! p) as [[px| |]|] eqn:Hpx; try done.
  unfold mbind, M_bind, bind.
  rewrite (make_request_run E p _ _ w px Hpx).
  unfold dumps_key. rewrite <-Hf. simpl.
  destruct (xml_dumps E k.1.2 k.1.1 (encoding px) (allow_none px)); [done|].
  rewrite IH. by destruct (encode_items _ _ _).
Qed.

(** The third loop: every job is started, with the body stored under its
    key, and recorded in [started] whatever the outcome of the start. *)
Lemma start_all_run E tsjs formats started w :
  Forall (λ j : job, is_two_stage w j.1.1 = true) tsjs →
  Forall (λ j : job, hashable j.2 = true
            ∧ ∃ body, dict_get (key_of w j) formats = Some (FBody body)) tsjs →
  ∃ new w' tr, start_all E tsjs formats started w = (Ok (started ++ new), w', tr)
    ∧ same_objects w w'
    ∧ Forall (λ ev, is_start_event ev = true) tr
    ∧ make_request_calls tr = []
    ∧ new.*1 = (λ j : job, j.1.1) <$> tsjs
    ∧ Forall2 (λ (j : job) (s : ref * string),
                 s.1 = j.1.1
                 ∧ dict_get (key_of w j) formats = Some (FBody s.2))
              tsjs (start_request_calls tr).
Proof.
  intros Hts. revert started w Hts.
  induction tsjs as [|[[p m] a] tsjs IH]; intros started w Hts Hok.
  { exists [], w, []. rewrite app_nil_r. by repeat split. }
  apply Forall_cons in Hts as [Hp Hts]. apply Forall_cons in Hok as [[Ha [body Hk]] Hok].
  simpl in *.
  erewrite bind_ok_nil by (apply request_format_run; by rewrite Hp).
  unfold py_hash. simpl. rewrite Ha.
  erewrite bind_ok_nil by done.
  unfold key_of in Hk. simpl in Hk. rewrite Hk.
  destruct (start_request_run E p body w) as (st & w1 & cl & Hst & Hcl & Hw1).
  erewrite bind_ok by done.
  destruct (IH (started ++ [(p, st)]) w1) as (new & w2 & tr & -> & Hw2 & Htr & Hmk & Hnew & Hcalls).
  { eapply Forall_impl; [apply Hts|]. intros j Hj. simpl in *.
    by rewrite (same_objects_two_stage w w1). }
  { eapply Forall_impl; [apply Hok|]. intros j [? Hj]. simpl in *.
    split; [done|]. unfold key_of in *. by rewrite (same_objects_format w w1). }
  exists ((p, st) :: new), w2, ((EvStartRequest p body :: cl) ++ tr).
  rewrite <-app_assoc. split; [done|]. split; [by etrans|].
  split. { apply Forall_app. split; [|done]. by destruct Hcl as [-> | ->]; repeat constructor. }
  split. { unfold make_request_calls in *. rewrite omap_app, Hmk. by destruct Hcl as [-> | ->]. }
  split; [simpl; by f_equal|].
  unfold start_request_calls in *. rewrite omap_app.
  assert (omap (λ ev, match ev with EvStartRequest p body => Some (p, body) | _ => None end)
               (EvStartRequest p body :: cl) = [(p, body)]) as ->.
  { by destruct Hcl as [-> | ->]. }
  simpl. constructor; [done|].
  eapply Forall2_impl; [apply Hcalls|]. intros j s [? Hj]. simpl in *.
  split; [done|]. unfold key_of in *. by rewrite <-(same_objects_format w w1).
Qed.

(** ** What a computation can emit *)

Lemma emits_ret {A} P (a : A) : emits P (mret a).
Proof. intros w o w' tr [= <- <- <-]. done. Qed.

Lemma emits_raise {A} P e : emits P (@raise A e).
Proof. intros w o w' tr [= <- <- <-]. done. Qed.

Lemma emits_bind {A B} P (m : M A) (k : A → M B) :
  emits P m → (∀ a, emits P (k a)) → emits P (m ≫= k).
Proof.
  intros Hm Hk w o w' tr
    [(a & w1 & t1 & t2 & Hm1 & Hk1 & ->)|[(e & Hm1 & ->)|[Hm1 ->]]]%bind_inv.
  - apply Hm in Hm1 as (? & ? & ?). apply Hk in Hk1 as (? & ? & ?).
    split; [by apply Forall_app|]. split; [done|by etrans].
  - by apply Hm in Hm1 as (? & ? & ?).
  - by apply Hm in Hm1 as (? & ? & ?).
Qed.

Lemma emits_try_except {A} P (m : M A) (h : exn → M A) :
  emits P m → (∀ e, emits P (h e)) → emits P (try_except m h).
Proof.
  intros Hm Hh w o w' tr. unfold try_except.
  destruct (m w) as [[[a|e|] w1] t1] eqn:Hm1; apply Hm in Hm1 as (? & ? & ?).
  - by intros [= <- <- <-].
  - destruct (h e w1) as [[o2 w2] t2] eqn:Hh1. apply Hh in Hh1 as (? & ? & ?).
    intros [= <- <- <-]. split; [by apply Forall_app|]. split; [done|by etrans].
  - done.
Qed.

Lemma emits_emit P ev : P ev → emits P (emit ev).
Proof. intros Hev w o w' tr [= <- <- <-]. split; [by constructor|done]. Qed.

Lemma emits_lift {A} P (x : exn + A) : emits P (lift x).
Proof. destruct x; [apply emits_raise|apply emits_ret]. Qed.

Lemma emits_tick P : emits P tick.
Proof. intros w o w' tr [= <- <- <-]. split; [done|]. split; [done|]. intros p. apply same_object_refl. Qed.

Lemma emits_get_world P : emits P get_world.
Proof. intros w o w' tr [= <- <- <-]. done. Qed.

Lemma emits_for_each {A} P (l : list A) (body : A → M unit) :
  (∀ x, emits P (body x)) → emits P (for_each l body).
Proof.
  intros Hbody. induction l as [|x l IH]; simpl.
  - apply emits_ret.
  - apply emits_bind; [apply Hbody|]. intros _. apply IH.
Qed.

Lemma emits_weaken {A} (P Q : event → Prop) (m : M A) :
  (∀ ev, P ev → Q ev) → emits P m → emits Q m.
Proof.
  intros HPQ Hm w o w' tr Hrun. apply Hm in Hrun as (? & ? & ?).
  split; [by eapply Forall_impl|done].
Qed.

Lemma emits_request_format P p : emits P (TwoStageServerProxy.request_format p).
Proof.
  intros w o w' tr. munfold; simpl.
  repeat (case_match; simplify_eq/=); intros [= <- <- <-]; done.
Qed.

Lemma emits_make_request E P p m a :
  P (EvMakeRequest p m a) → emits P (TwoStageServerProxy.make_request E p m a).
Proof.
  intros HP w o w' tr. munfold; simpl.
  repeat case_match; simplify_eq/=; intros [= <- <- <-];
    (split; [by repeat constructor|done]).
Qed.

Lemma emits_start_request E P p body :
  P (EvStartRequest p body) → P (EvClose p) →
  emits P (TwoStageServerProxy.start_request E p body).
Proof.
  intros HP1 HP2 w o w' tr.
  destruct (start_request_run E p body w) as (st & w1 & cl & -> & Hcl & Hw).
  intros [= <- <- <-]. split; [|done].
  by destruct Hcl as [-> | ->]; repeat constructor.
Qed.

Lemma emits_finish_request E P p st :
  P (EvFinishRequest p st) → P (EvClose p) →
  emits P (TwoStageServerProxy.finish_request E p st).
Proof.
  intros HP1 HP2 w o w' tr.
  destruct (finish_request_run E p st w) as (r & cl & -> & Hcl & _).
  intros [= <- <- <-]. split; [|done].
  by destruct Hcl as [-> | ->]; repeat constructor.
Qed.

Lemma emits_get_sockfd E P p st : emits P (TwoStageServerProxy.get_sockfd E p st).
Proof.
  intros w o w' tr. destruct (get_sockfd_run E p st w) as (o1 & -> & Ho & _).
  intros [= <- <- <-]. done.
Qed.

(** The start phase encodes and starts; it yields nothing, runs no job of
    another class and does not block. *)
Lemma emits_collect_formats P tsjs formats :
  emits P (collect_formats tsjs formats).
Proof.
  revert formats. induction tsjs as [|[[p m] a] tsjs IH]; intros formats; simpl.
  { apply emits_ret. }
  apply emits_bind; [apply emits_request_format|]. intros rf.
  apply emits_bind.
  { unfold py_hash. case_match; [apply emits_ret|apply emits_raise]. }
  intros _. case_match; apply IH.
Qed.

Lemma emits_encode_formats E P items formats :
  (∀ p m a, P (EvMakeRequest p m a)) →
  emits P (encode_formats E items formats).
Proof.
  intros HP.
  revert formats. induction items as [|[k [p|b]] items IH]; intros formats; simpl.
  - apply emits_ret.
  - apply emits_bind; [by apply emits_make_request|]. intros body. apply IH.
  - apply emits_raise.
Qed.

Lemma emits_start_all E P tsjs formats started :
  (∀ p body, P (EvStartRequest p body)) → (∀ p, P (EvClose p)) →
  emits P (start_all E tsjs formats started).
Proof.
  intros HP1 HP2. revert started. induction tsjs as [|[[p m] a] tsjs IH]; intros started; simpl.
  { apply emits_ret. }
  apply emits_bind; [apply emits_request_format|]. intros rf.
  apply emits_bind.
  { unfold py_hash. case_match; [apply emits_ret|apply emits_raise]. }
  intros _. repeat case_match; try apply emits_raise.
  apply emits_bind; [by apply emits_start_request|]. intros r. apply IH.
Qed.

Lemma emits_start_phase E tsjs :
  emits (λ ev, is_start_event ev = true) (start_phase E tsjs).
Proof.
  unfold start_phase.
  apply emits_bind; [apply emits_collect_formats|]. intros formats.
  apply emits_bind; [by apply emits_encode_formats|]. intros formats'.
  by apply emits_start_all.
Qed.

(** ** The finish phase *)

Lemma pipeline_trace_app started tr1 tr2 :
  pipeline_trace started tr1 → pipeline_trace started tr2 →
  pipeline_trace started (tr1 ++ tr2).
Proof.
  induction 1 as [|fds tr _ IH|p st cl r tr Hin Hcl _ IH]; intros H2; simpl.
  - done.
  - constructor. by apply IH.
  - rewrite <-app_assoc. simpl. constructor; [done..|]. by apply IH.
Qed.

Lemma pipeline_trace_events started tr :
  pipeline_trace started tr → Forall (λ ev, is_pipeline_event ev = true) tr.
Proof.
  induction 1 as [|fds tr _ IH|p st cl r tr Hin Hcl _ IH].
  - constructor.
  - by constructor.
  - constructor; [done|]. apply Forall_app. split.
    + by destruct Hcl as [-> | ->]; repeat constructor.
    + by constructor.
Qed.

Lemma failed_results_app tr1 tr2 :
  no_failed_finish tr1 → failed_results (tr1 ++ tr2) = failed_results tr2.
Proof.
  induction 1 as [|ev tr1 Hev _ IH]; [done|]. simpl.
  destruct ev as [| | | |p [hd|e]| |]; done.
Qed.

Lemma no_failed_finish_start tr :
  Forall (λ ev, is_start_event ev = true) tr → no_failed_finish tr.
Proof. intros H. eapply Forall_impl; [done|]. by intros [| | | |p [hd|e]| |]. Qed.

Lemma list_remove_Some {A} `{EqDecision A} (x : A) l l' :
  list_remove x l = Some l' →
  ∃ l1 l2, l = l1 ++ x :: l2 ∧ l' = l1 ++ l2.
Proof.
  revert l'. induction l as [|y l IH]; intros l'; simpl; [done|].
  case_decide as Hxy.
  - intros [= <-]. subst y. by exists [], l.
  - destruct (list_remove x l) as [l''|]; [|done]. intros [= <-].
    destruct (IH l'' eq_refl) as (l1 & l2 & -> & ->).
    by exists (y :: l1), l2.
Qed.

Lemma failed_app l1 l2 : failed (l1 ++ l2) = failed l1 ++ failed l2.
Proof. apply omap_app. Qed.

Lemma socklist_ok_delete started socklist k :
  socklist_ok started socklist → socklist_ok started (delete k socklist).
Proof.
  intros Hok k' pr Hk'. apply lookup_delete_Some in Hk' as [_ Hk'].
  by apply (Hok k').
Qed.

Lemma build_socklist_run E started0 started socklist w :
  socklist_ok started0 socklist →
  started ⊆ started0 →
  ∃ o, build_socklist E started socklist w = (o, w, [])
    ∧ o ≠ Hang
    ∧ ∀ socklist', o = Ok socklist' → socklist_ok started0 socklist'.
Proof.
  revert socklist. induction started as [|[p st] started IH]; intros socklist Hok Hsub.
  { exists (Ok socklist). split; [done|]. split; [done|]. by intros ? [= <-]. }
  simpl. destruct (get_sockfd_run E p st w) as (o1 & Hrun & Ho1 & Hfd).
  destruct o1 as [[fd|]| |]; try done.
  - destruct (IH (<[fd := (p, st)]> socklist)) as (o & Hrest & ? & ?).
    { intros k pr. destruct (decide (fd = k)) as [<-|Hne].
      - rewrite lookup_insert_eq. intros [= <-]. simpl.
        destruct (Hfd fd eq_refl) as [hd ->]. split; [done|].
        apply Hsub. by left.
      - rewrite lookup_insert_ne by done. apply (Hok k). }
    { intros x Hx. apply Hsub. by right. }
    exists o. by erewrite bind_ok_nil by done.
  - destruct (IH socklist) as (o & Hrest & ? & ?); [done|..].
    { intros x Hx. apply Hsub. by right. }
    exists o. by erewrite bind_ok_nil by done.
  - exists (Raise e). by erewrite bind_raise by done.
Qed.

Lemma poll_ready_run E started0 ks socklist started w o w' tr :
  poll_ready E ks socklist started w = (o, w', tr) →
  socklist_ok started0 socklist →
  w' = w ∧ o ≠ Hang
  ∧ pipeline_trace started0 tr ∧ no_failed_finish tr
  ∧ ∀ socklist' started', o = Ok (socklist', started') →
      socklist_ok started0 socklist'
      ∧ failed started' = failed started
      ∧ length started' + length (yields tr) = length started
      ∧ size socklist' + length ks = size socklist
      ∧ started' ⊆ started.
Proof.
  revert socklist started tr.
  induction ks as [|k ks IH]; intros socklist started tr; simpl.
  { intros [= <- <- <-] Hok. split_and!; try done; [apply pipeline_nil|apply Forall_nil_2|].
    intros ?? [= <- <-]. split_and!; try done; simpl; lia. }
  destruct (socklist !! k) as [[p st]|] eqn:Hk.
  2: { intros [= <- <- <-] Hok.
       split_and!; try done; [apply pipeline_nil|apply Forall_nil_2]. }
  destruct (list_remove (p, st) started) as [started1|] eqn:Hrm.
  2: { intros [= <- <- <-] Hok.
       split_and!; try done; [apply pipeline_nil|apply Forall_nil_2]. }
  intros Hrun Hok. simpl in Hrun.
  destruct (Hok k (p, st) Hk) as [Hst Hin]. simpl in Hst.
  destruct (finish_request_run E p st w) as (r & cl & Hfin & Hcl & _).
  erewrite bind_ok in Hrun by done.
  unfold yield, emit in Hrun.
  erewrite bind_ok in Hrun by done.
  destruct (poll_ready E ks (delete k socklist) started1 w) as [[o2 w2] t2] eqn:Hrest.
  simpl in Hrun. injection Hrun as <- <- <-.
  apply IH in Hrest as (-> & Ho2 & Hpipe & Hnf & Hres); [|by apply socklist_ok_delete].
  split; [done|]. split; [done|].
  split. { simpl. rewrite <-?app_assoc. simpl. by constructor. }
  split.
  { unfold no_failed_finish in *. simpl. constructor.
    - by destruct st.
    - apply Forall_app. split; [by destruct Hcl as [-> | ->]; repeat constructor|].
      by constructor. }
  intros socklist' started' ->.
  destruct (Hres _ _ eq_refl) as (Hok' & Hfailed & Hlen & Hsize & Hsub).
  apply list_remove_Some in Hrm as (l1 & l2 & -> & ->).
  split; [done|]. split.
  { rewrite Hfailed, !failed_app. simpl. by destruct st. }
  split.
  { simpl. rewrite !yields_app. simpl. rewrite length_app in *. simpl.
    assert (yields cl = []) as -> by (by destruct Hcl as [-> | ->]).
    rewrite length_app. simpl. lia. }
  split.
  { rewrite map_size_delete, Hk in Hsize. simpl in Hsize.
    assert (size socklist ≠ 0); [|lia].
    intros Hz%map_size_empty_inv. by rewrite Hz in Hk. }
  intros x Hx%Hsub. apply elem_of_app in Hx as [Hx|Hx];
    apply elem_of_app; [by left|by right; right].
Qed.

Lemma poll_loop_unfold E fuel socklist started w :
  socklist ≠ ∅ →
  poll_loop E (S fuel) socklist started w
  = let fds := (map_to_list socklist).*1 in
    let w1 := World (heap w) (S (clock w)) in
    match sys_select E (clock w) fds with
    | inl exc => (Raise exc, w1, [EvSelect fds])
    | inr (r, e) =>
        match set_iter E (r ++ e) with
        | [] => (Hang, w1, [EvSelect fds])
        | k :: ks =>
            let '(o, w2, t2) :=
              (poll_ready E (k :: ks) socklist started
                 ≫= λ '(socklist', started'), poll_loop E fuel socklist' started') w1 in
            (o, w2, EvSelect fds :: t2)
        end
    end.
Proof.
  intros Hne. simpl. rewrite bool_decide_eq_false_2 by done.
  unfold tick, emit. erewrite bind_ok_nil by done. erewrite bind_ok by done.
  simpl. destruct (sys_select E (clock w) _) as [exc|[r e]]; [reflexivity|].
  erewrite bind_ok_nil by reflexivity. cbv beta iota.
  by destruct (set_iter E (r ++ e)) as [|k ks].
Qed.

Lemma poll_loop_run E started0 fuel socklist started w o w' tr :
  poll_loop E fuel socklist started w = (o, w', tr) →
  socklist_ok started0 socklist →
  heap w' = heap w
  ∧ pipeline_trace started0 tr ∧ no_failed_finish tr
  ∧ ∀ started', o = Ok started' →
      failed started' = failed started
      ∧ length started' + length (yields tr) = length started
      ∧ started' ⊆ started.
Proof.
  revert socklist started w o w' tr.
  induction fuel as [|fuel IH]; intros socklist started w o w' tr Hrun Hok.
  { simpl in Hrun. case_bool_decide; injection Hrun as <- <- <-;
      (split_and!; [done|apply pipeline_nil|apply Forall_nil_2|]); [|done].
    intros ? [= <-]. unfold yields. simpl. split_and!; [done|apply Nat.add_0_r|done]. }
  destruct (decide (socklist = ∅)) as [->|Hne].
  { simpl in Hrun. injection Hrun as <- <- <-.
    split_and!; [done|apply pipeline_nil|apply Forall_nil_2|].
    intros ? [= <-]. unfold yields. simpl. split_and!; [done|apply Nat.add_0_r|done]. }
  rewrite poll_loop_unfold in Hrun by done. cbv zeta in Hrun.
  destruct (sys_select E _ _) as [exc|[rs es]].
  { injection Hrun as <- <- <-.
    split_and!; [done|apply pipeline_select, pipeline_nil|by repeat constructor|done]. }
  destruct (set_iter E _) as [|k ks].
  { injection Hrun as <- <- <-.
    split_and!; [done|apply pipeline_select, pipeline_nil|by repeat constructor|done]. }
  destruct ((poll_ready E (k :: ks) socklist started ≫= _) _) as [[o2 w2] t2] eqn:Hstep.
  injection Hrun as <- <- <-.
  apply bind_inv in Hstep
    as [(a & w1 & t1 & t3 & Hready & Hloop & ->)|[(e & Hready & ->)|[Hready ->]]].
  - destruct a as [socklist1 started1].
    eapply poll_ready_run in Hready as (-> & _ & Hp1 & Hn1 & Hres); [|done].
    destruct (Hres _ _ eq_refl) as (Hok1 & Hf1 & Hl1 & _ & Hs1).
    apply IH in Hloop as (Hheap & Hp2 & Hn2 & Hres2); [|done].
    split_and!; [done| |by constructor; [done|apply Forall_app]|].
    { apply pipeline_select. by apply pipeline_trace_app. }
    intros started' ->. destruct (Hres2 _ eq_refl) as (Hf2 & Hl2 & Hs2).
    split; [congruence|]. split; [|by etrans]. unfold yields in *. simpl.
    rewrite omap_app, length_app. lia.
  - eapply poll_ready_run in Hready as (-> & _ & Hp1 & Hn1 & _); [|done].
    split_and!; [done|by apply pipeline_select|by constructor|done].
  - by eapply poll_ready_run in Hready as (_ & ? & _); [|done].
Qed.

Lemma poll_ready_size E ks socklist started w socklist' started' w' tr :
  poll_ready E ks socklist started w = (Ok (socklist', started'), w', tr) →
  size socklist' + length ks = size socklist.
Proof.
  revert socklist started w tr.
  induction ks as [|k ks IH]; intros socklist started w tr; simpl.
  { intros [= <- <- <- <-]. lia. }
  destruct (socklist !! k) as [pr|] eqn:Hk; [|done].
  destruct (list_remove pr started) as [started1|]; [|done].
  intros [(r & w1 & t1 & t2 & _ & Hrest & _)|[(e & _ & ?)|[_ ?]]]%bind_inv;
    [|done..].
  apply bind_inv in Hrest
    as [(? & w2 & t3 & t4 & _ & Hrest & _)|[(e & _ & ?)|[_ ?]]]; [|done..].
  apply IH in Hrest. rewrite map_size_delete, Hk in Hrest.
  assert (size socklist ≠ 0); [|lia].
  intros Hz%map_size_empty_inv. by rewrite Hz in Hk.
Qed.

(** The bound [size socklist] is enough: with more fuel the loop does the
    same. *)
Lemma poll_loop_fuel_irrelevant E fuel1 fuel2 socklist started w :
  size socklist ≤ fuel1 → size socklist ≤ fuel2 →
  poll_loop E fuel1 socklist started w = poll_loop E fuel2 socklist started w.
Proof.
  revert fuel2 socklist started w.
  induction fuel1 as [|fuel1 IH]; intros fuel2 socklist started w Hf1 Hf2.
  { assert (socklist = ∅) as -> by (apply map_size_empty_inv; lia).
    by destruct fuel2. }
  destruct (decide (socklist = ∅)) as [->|Hne]; [by destruct fuel2|].
  destruct fuel2 as [|fuel2].
  { exfalso. apply Hne, map_size_empty_inv. lia. }
  rewrite !poll_loop_unfold by done. cbv zeta.
  destruct (sys_select E _ _) as [exc|[rs es]]; [done|].
  destruct (set_iter E _) as [|k ks]; [done|].
  assert ((poll_ready E (k :: ks) socklist started
             ≫= λ '(socklist', started'), poll_loop E fuel1 socklist' started')
            (World (heap w) (S (clock w)))
          = (poll_ready E (k :: ks) socklist started
             ≫= λ '(socklist', started'), poll_loop E fuel2 socklist' started')
            (World (heap w) (S (clock w)))) as ->; [|done].
  unfold mbind, M_bind, bind.
  destruct (poll_ready E (k :: ks) socklist started _)
    as [[[[socklist1 started1]| |] w1] t1] eqn:Hready; try done.
  apply poll_ready_size in Hready. simpl in Hready.
  rewrite (IH fuel2) by lia. done.
Qed.

Lemma poll_loop_fuel E fuel socklist started w :
  size socklist ≤ fuel →
  poll_loop E fuel socklist started w
  = poll_loop E (size socklist) socklist started w.
Proof. intros. by apply poll_loop_fuel_irrelevant. Qed.

(** The final loop finishes what is left, in order. *)
Lemma drain_run E started0 started w :
  started ⊆ started0 →
  ∃ tr, drain E started w = (Ok tt, w, tr)
    ∧ pipeline_trace started0 tr
    ∧ Forall (λ ev, is_select ev = false) tr
    ∧ failed_results tr
      = (λ pe : ref * exn, (pe.1, pe.2, Some (PNone, Some pe.2))) <$> failed started
    ∧ length (yields tr) = length started.
Proof.
  unfold drain. induction started as [|[p st] started IH]; intros Hsub.
  { exists []. split_and!; try done. apply pipeline_nil. }
  destruct IH as (tr & Hrun & Hpipe & Hsel & Hfailed & Hlen).
  { intros x Hx. apply Hsub. by right. }
  destruct (finish_request_run E p st w) as (r & cl & Hfin & Hcl & _ & Hexc).
  exists ((EvFinishRequest p st :: cl) ++ [EvYield r] ++ tr).
  split.
  { assert ((TwoStageServerProxy.finish_request E p st ≫= λ res, yield res) w
            = (Ok tt, w, (EvFinishRequest p st :: cl) ++ [EvYield r])) as Hstep.
    { by erewrite bind_ok by done. }
    simpl. erewrite bind_ok by exact Hstep. rewrite Hrun.
    by rewrite <-app_assoc. }
  split.
  { simpl. apply pipeline_finish; [apply Hsub; by left|done..]. }
  split.
  { simpl. constructor; [done|]. apply Forall_app. split; [|by constructor].
    by destruct Hcl as [-> | ->]; repeat constructor. }
  split.
  - destruct st as [hd|e].
    + simpl. rewrite <-Hfailed. rewrite (failed_results_app cl (EvYield r :: tr)).
      * done.
      * by destruct Hcl as [-> | ->]; repeat constructor.
    + destruct (Hexc e eq_refl) as [-> ->]. simpl. by rewrite Hfailed.
  - rewrite (yields_app (EvFinishRequest p st :: cl)), length_app.
    change (yields ([EvYield r] ++ tr)) with (r :: yields tr). simpl.
    rewrite Hlen. by destruct Hcl as [-> | ->].
Qed.

(** ** The fallback on jobs of another class *)

Lemma fallback_run_refl w : fallback_run w w [].
Proof. by split. Qed.

Lemma fallback_run_trans w1 w2 w3 t1 t2 :
  fallback_run w1 w2 t1 → fallback_run w2 w3 t2 → fallback_run w1 w3 (t1 ++ t2).
Proof.
  intros [H1 F1] [H2 F2]. split; [congruence|by apply Forall_app].
Qed.

Lemma heap_two_stage w w' p :
  heap w' = heap w → is_two_stage w' p = is_two_stage w p.
Proof. unfold is_two_stage. by intros ->. Qed.

Lemma sequential_request_other_run E p m a w :
  is_two_stage w p = false →
  ∃ r w', _sequential_request E p m a w = (Ok r, w', [EvCall p m a])
    ∧ fallback_run w w' [EvCall p m a].
Proof.
  intros Hp. rewrite sequential_request_other by done.
  eexists _, _. split; [done|]. split; [done|]. by repeat constructor.
Qed.

Lemma for_each_yield rs w :
  for_each rs yield w = (Ok tt, w, EvYield <$> rs).
Proof.
  induction rs as [|r rs IH]; [done|]. simpl.
  erewrite (bind_ok (yield r)) by done. by rewrite IH.
Qed.

Lemma RunSequentialJobs_others E jobs w :
  Forall (λ j : job, is_two_stage w j.1.1 = false) jobs →
  ∃ w' tr, RunSequentialJobs E jobs w = (Ok tt, w', tr)
    ∧ fallback_run w w' tr
    ∧ length (yields tr) = length jobs.
Proof.
  unfold RunSequentialJobs. intros Hjobs. revert w Hjobs.
  induction jobs as [|[[p m] a] jobs IH]; intros w Hjobs.
  { exists w, []. split; [done|]. split; [apply fallback_run_refl|done]. }
  apply Forall_cons in Hjobs as [Hp Hjobs]. simpl in Hp.
  destruct (sequential_request_other_run E p m a w Hp) as (r & w1 & Hr & Hw1).
  destruct (IH w1) as (w2 & tr & Hrest & Hw2 & Hlen).
  { eapply Forall_impl; [done|]. intros j Hj. simpl in *.
    by rewrite (heap_two_stage w w1) by apply Hw1. }
  assert ((_sequential_request E p m a ≫= λ r, yield r) w
          = (Ok tt, w1, [EvCall p m a] ++ [EvYield r])) as Hstep.
  { by erewrite bind_ok by done. }
  exists w2, (([EvCall p m a] ++ [EvYield r]) ++ tr).
  split. { simpl. erewrite bind_ok by exact Hstep. by rewrite Hrest. }
  split.
  { apply fallback_run_trans with w1; [|done].
    destruct Hw1 as [? ?]. split; [done|]. by repeat constructor. }
  simpl. unfold yields in *. simpl. by rewrite Hlen.
Qed.

Lemma join_loop_others E jobs i pend fin res w o w' tr :
  Forall (λ j : job, is_two_stage w j.1.1 = false) jobs →
  join_loop E jobs i pend fin res w = (o, w', tr) →
  fallback_run w w' tr.
Proof.
  intros Hjobs. revert fin res w tr Hjobs.
  induction pend as [|k pend IH]; intros fin res w tr Hjobs; simpl.
  { intros [= <- <- <-]. apply fallback_run_refl. }
  destruct (jobs !! k) as [[[p m] a]|] eqn:Hk; [|by apply IH].
  case_bool_decide; [by apply IH|].
  assert (is_two_stage w p = false) as Hp.
  { eapply Forall_lookup_1 in Hjobs; [|done]. done. }
  destruct (sequential_request_other_run E p m a w Hp) as (r & w1 & Hr & Hw1).
  erewrite bind_ok by done.
  case_bool_decide.
  - intros [= <- <- <-]. exact Hw1.
  - destruct (join_loop _ _ _ _ _ _ _) as [[o2 w2] t2] eqn:Hrest.
    intros [= <- <- <-]. apply IH in Hrest.
    + by apply (fallback_run_trans w w1 _ [EvCall p m a] t2).
    + eapply Forall_impl; [done|]. intros j Hj. simpl in *.
      by rewrite (heap_two_stage w w1) by apply Hw1.
Qed.

Lemma join_all_others E jobs threads st w o w' tr :
  Forall (λ j : job, is_two_stage w j.1.1 = false) jobs →
  join_all E jobs threads st w = (o, w', tr) →
  fallback_run w w' tr.
Proof.
  intros Hjobs. revert st w tr Hjobs.
  induction threads as [|i threads IH]; intros st w tr Hjobs; simpl.
  { intros [= <- <- <-]. apply fallback_run_refl. }
  intros [(st1 & w1 & t1 & t2 & Hjoin & Hrest & ->)|[(e & Hjoin & ->)|[Hjoin ->]]]%bind_inv.
  - assert (fallback_run w w1 t1) as Hw1.
    { unfold join in Hjoin. case_bool_decide.
      - injection Hjoin as <- <- <-. apply fallback_run_refl.
      - by eapply join_loop_others. }
    erewrite bind_ok in Hrest by apply for_each_yield.
    destruct (join_all _ _ _ _ _) as [[o2 w2] t3] eqn:Hrest2.
    injection Hrest as <- <- <-.
    apply IH in Hrest2.
    + apply fallback_run_trans with w1; [done|].
      destruct Hrest2 as [? ?]. split; [done|]. apply Forall_app. split; [|done].
      apply Forall_fmap. by apply Forall_true.
    + eapply Forall_impl; [done|]. intros j Hj. simpl in *.
      by rewrite (heap_two_stage w w1) by apply Hw1.
  - unfold join in Hjoin. case_bool_decide; [done|].
    by eapply join_loop_others.
  - unfold join in Hjoin. case_bool_decide; [done|].
    by eapply join_loop_others.
Qed.

Lemma call_fallback_others E fallback jobs w o w' tr :
  Forall (λ j : job, is_two_stage w j.1.1 = false) jobs →
  call_fallback E fallback jobs w = (o, w', tr) →
  fallback_run w w' tr.
Proof.
  intros Hjobs. destruct fallback; simpl.
  - destruct (RunSequentialJobs_others E jobs w Hjobs) as (w1 & t1 & -> & ? & _).
    by intros [= <- <- <-].
  - unfold RunThreadedJobs, tick. erewrite bind_ok_nil by done.
    intros Hrun. apply join_all_others in Hrun; [|done].
    destruct Hrun as [? ?]. by split.
  - intros [= <- <- <-]. apply fallback_run_refl.
  - intros [= <- <- <-]. apply fallback_run_refl.
  - intros [= <- <- <-]. apply fallback_run_refl.
  - intros [= <- <- <-]. apply fallback_run_refl.
Qed.

(** ** RunTwoStageJobs as a whole *)

(** The generator after a successful start phase: the fallback over the
    other jobs, then the poll loop, then the final loop. *)
Lemma finish_phase_run E fallback others started w o w' tr :
  Forall (λ j : job, is_two_stage w j.1.1 = false) others →
  finish_phase E fallback others started w = (o, w', tr) →
  ∃ ofb w1 tr_fb tr_poll tr_drain,
    (if bool_decide (others = []) then (Ok tt, w, []) 
     else call_fallback E fallback others w) = (ofb, w1, tr_fb)
    ∧ tr = tr_fb ++ tr_poll ++ tr_drain
    ∧ fallback_run w w1 tr_fb
    ∧ heap w' = heap w
    ∧ pipeline_trace started tr_poll ∧ no_failed_finish tr_poll
    ∧ pipeline_trace started tr_drain
    ∧ Forall (λ ev, is_select ev = false) tr_drain
    ∧ (ofb ≠ Ok tt → o = ofb ∧ tr_poll = [] ∧ tr_drain = [])
    ∧ (o = Ok tt →
         ofb = Ok tt
         ∧ failed_results tr_drain
           = (λ pe : ref * exn, (pe.1, pe.2, Some (PNone, Some pe.2))) <$> failed started
         ∧ length (yields tr_poll) + length (yields tr_drain) = length started).
Proof.
  intros Hothers Hrun. unfold finish_phase in Hrun.
  set (fb := if bool_decide (others = []) then mret tt
             else call_fallback E fallback others) in Hrun.
  assert (∀ ofb w1 tr_fb, fb w = (ofb, w1, tr_fb) → fallback_run w w1 tr_fb) as Hfb.
  { intros ofb w1 tr_fb. unfold fb. case_bool_decide.
    - intros [= <- <- <-]. apply fallback_run_refl.
    - by apply call_fallback_others. }
  assert (fb w = (if bool_decide (others = []) then (Ok tt, w, [])
                  else call_fallback E fallback others w)) as Hfb_eq.
  { unfold fb. by case_bool_decide. }
  rewrite <-Hfb_eq. clear Hfb_eq.
  apply bind_inv in Hrun
    as [([] & w1 & tr_fb & t2 & Hfb1 & Hrest & ->)|[(e & Hfb1 & ->)|[Hfb1 ->]]].
  2: { exists (Raise e), w', tr, [], []. rewrite !app_nil_r.
       pose proof (Hfb _ _ _ Hfb1) as Hw1.
       split_and!; try done; try apply pipeline_nil; try apply Hw1;
         try apply Forall_nil_2. }
  2: { exists Hang, w', tr, [], []. rewrite !app_nil_r.
       pose proof (Hfb _ _ _ Hfb1) as Hw1.
       split_and!; try done; try apply pipeline_nil; try apply Hw1;
         try apply Forall_nil_2. }
  pose proof (Hfb _ _ _ Hfb1) as Hw1.
  destruct (build_socklist_run E started started ∅ w1) as (osl & Hsl & Hosl & Hok).
  { intros k pr. by rewrite lookup_empty. }
  { done. }
  apply bind_inv in Hrest
    as [(socklist & w2 & t3 & t4 & Hsl1 & Hrest & ->)|[(e & Hsl1 & ->)|[Hsl1 ->]]];
    rewrite Hsl in Hsl1; simplify_eq.
  2: { exists (Ok tt), w', tr_fb, [], []. rewrite !app_nil_r.
       split_and!; try done; try apply pipeline_nil; try apply Hw1;
         try apply Forall_nil_2. }
  specialize (Hok _ eq_refl).
  apply bind_inv in Hrest
    as [(started1 & w3 & t5 & t6 & Hpoll & Hdrain & ->)|[(e & Hpoll & ->)|[Hpoll ->]]].
  - eapply poll_loop_run in Hpoll as (Hheap & Hpipe & Hnf & Hres); [|done].
    destruct (Hres _ eq_refl) as (Hfailed & Hlen & Hsub).
    destruct (drain_run E started started1 w3) as (t7 & Hd & Hp7 & Hs7 & Hf7 & Hl7).
    { done. }
    rewrite Hd in Hdrain. simplify_eq.
    exists (Ok tt), w2, tr_fb, t5, t6. simpl.
    split_and!; try done; try apply Hw1.
    { destruct Hw1. congruence. }
    intros _. split; [done|]. split; [by rewrite Hf7, Hfailed|lia].
  - eapply poll_loop_run in Hpoll as (Hheap & Hpipe & Hnf & Hres); [|done].
    exists (Ok tt), w2, tr_fb, t4, []. rewrite !app_nil_r. simpl.
    split_and!; try done; try apply pipeline_nil; try apply Hw1;
      try apply Forall_nil_2.
    destruct Hw1. congruence.
  - eapply poll_loop_run in Hpoll as (Hheap & Hpipe & Hnf & Hres); [|done].
    exists (Ok tt), w2, tr_fb, t4, []. rewrite !app_nil_r. simpl.
    split_and!; try done; try apply pipeline_nil; try apply Hw1;
      try apply Forall_nil_2.
    destruct Hw1. congruence.
Qed.

(** ** Deduplication of request bodies *)

Section dict_facts.
Context {K V : Type} `{EqDecision K} `{PyKey K}.
Implicit Types (d : list (K * V)) (k : K) (v : V).

Lemma dict_get_None k d : dict_get k d = None ↔ py_key k ∉ py_key <$> d.*1.
Proof.
  induction d as [|[k' v'] d IH]; simpl.
  - split; [intros _; apply not_elem_of_nil|done].
  - rewrite not_elem_of_cons. case_decide; [naive_solver|]. rewrite IH. naive_solver.
Qed.

Lemma dict_get_Some k v d :
  dict_get k d = Some v → ∃ k', (k', v) ∈ d ∧ py_key k' = py_key k.
Proof.
  induction d as [|[k' v'] d IH]; simpl; [done|].
  case_decide.
  - intros [= ->]. exists k'. split; [by left|done].
  - intros (k'' & ? & ?)%IH. exists k''. split; [by right|done].
Qed.

Lemma dict_get_app k d1 d2 :
  dict_get k (d1 ++ d2)
  = match dict_get k d1 with Some v => Some v | None => dict_get k d2 end.
Proof.
  induction d1 as [|[k' v'] d1 IH]; simpl; [done|]. by case_decide.
Qed.

Lemma dict_get_set k k' v d :
  dict_get k' (dict_set k v d)
  = if decide (py_key k' = py_key k) then Some v else dict_get k' d.
Proof.
  induction d as [|[k1 v1] d IH]; simpl.
  - by repeat case_decide.
  - repeat (case_decide; simpl); try done; congruence.
Qed.
End dict_facts.

Lemma key_class_fmap w (l : list job) :
  key_class w <$> l = py_key <$> (key_of w <$> l).
Proof. by rewrite <-list_fmap_compose. Qed.

Lemma collect_keys_Forall (P : fmtkey * fmtval → Prop) w tsjs formats :
  Forall P formats →
  Forall (λ j : job, P (key_of w j, FProxy j.1.1)) tsjs →
  Forall P (collect_keys w tsjs formats).
Proof.
  intros Hf Hts. revert formats Hf.
  induction Hts as [|j tsjs Hj _ IH]; intros formats Hf; simpl; [done|].
  destruct (dict_get _ formats); apply IH; [done|].
  apply Forall_app. split; [done|]. by constructor.
Qed.

Lemma collect_keys_NoDup w tsjs formats :
  NoDup (py_key <$> formats.*1) → NoDup (py_key <$> (collect_keys w tsjs formats).*1).
Proof.
  revert formats. induction tsjs as [|j tsjs IH]; intros formats Hnd; simpl; [done|].
  destruct (dict_get _ formats) eqn:Hget; apply IH; [done|].
  rewrite !fmap_app. simpl. apply NoDup_app. split; [done|].
  apply dict_get_None in Hget. split.
  - intros k Hk ->%list_elem_of_singleton. done.
  - apply NoDup_singleton.
Qed.

Lemma collect_keys_elem w tsjs formats k :
  k ∈ py_key <$> (collect_keys w tsjs formats).*1
  ↔ k ∈ py_key <$> formats.*1 ∨ k ∈ key_class w <$> tsjs.
Proof.
  revert formats. induction tsjs as [|j tsjs IH]; intros formats; simpl.
  { split; [by left|]. intros [?|?%elem_of_nil]; done. }
  destruct (dict_get _ formats) as [v|] eqn:Hget; rewrite IH.
  - apply dict_get_Some in Hget as (k' & Hin & Hk').
    assert (key_class w j ∈ py_key <$> formats.*1).
    { unfold key_class. rewrite <-Hk'. apply list_elem_of_fmap. exists k'.
      split; [done|]. apply list_elem_of_fmap. by exists (k', v). }
    rewrite elem_of_cons. naive_solver.
  - rewrite !fmap_app, elem_of_app, elem_of_cons. simpl.
    rewrite list_elem_of_singleton. unfold key_class. naive_solver.
Qed.

(** The first loop only adds entries. *)
Lemma collect_keys_prefix w tsjs formats :
  formats `prefix_of` collect_keys w tsjs formats.
Proof.
  revert formats. induction tsjs as [|j tsjs IH]; intros formats; simpl; [done|].
  destruct (dict_get _ formats); [done|].
  etrans; [|apply IH]. by apply prefix_app_r.
Qed.

(** The entry of a key holds the first job of the batch with that key. *)
Lemma collect_keys_first w tsjs j :
  first_of_key w tsjs j → (key_of w j, FProxy j.1.1) ∈ collect_keys w tsjs [].
Proof.
  intros (l1 & l2 & -> & Hfirst).
  assert (∀ formats,
            key_class w j ∉ py_key <$> formats.*1 →
            (key_of w j, FProxy j.1.1) ∈ collect_keys w (l1 ++ j :: l2) formats) as Hgen.
  2: { apply Hgen. apply not_elem_of_nil. }
  induction l1 as [|j1 l1 IH]; intros formats Hnew; simpl.
  - destruct (dict_get (key_of w j) formats) eqn:Hget.
    { apply dict_get_Some in Hget as (k' & Hin & Hk').
      exfalso. apply Hnew. unfold key_class. rewrite <-Hk'.
      apply list_elem_of_fmap. exists k'. split; [done|].
      apply list_elem_of_fmap. by eexists (_, _). }
    destruct (collect_keys_prefix w l2 (formats ++ [(key_of w j, FProxy j.1.1)]))
      as [rest ->].
    rewrite !elem_of_app, list_elem_of_singleton. by left; right.
  - rewrite fmap_cons, not_elem_of_cons in Hfirst. destruct Hfirst as [Hne Hfirst].
    destruct (dict_get (key_of w j1) formats) eqn:Hget; apply IH; try done.
    rewrite !fmap_app, elem_of_app. simpl. rewrite list_elem_of_singleton.
    intros [?|?]; done.
Qed.

(** Every entry comes from the first job of the batch with its key. *)
Lemma collect_keys_origin w tsjs :
  Forall (λ it, ∃ j, first_of_key w tsjs j ∧ it = (key_of w j, FProxy j.1.1))
         (collect_keys w tsjs []).
Proof.
  assert (∀ pre formats,
            (∀ k, k ∈ py_key <$> formats.*1 ↔ k ∈ key_class w <$> pre) →
            Forall (λ it, ∃ j, first_of_key w (pre ++ tsjs) j
                               ∧ it = (key_of w j, FProxy j.1.1)) formats →
            Forall (λ it, ∃ j, first_of_key w (pre ++ tsjs) j
                               ∧ it = (key_of w j, FProxy j.1.1))
                   (collect_keys w tsjs formats)) as Hgen.
  2: { apply (Hgen [] []); [done|constructor]. }
  induction tsjs as [|j tsjs IH]; intros pre formats Hcls Hf; simpl; [done|].
  replace (pre ++ j :: tsjs) with ((pre ++ [j]) ++ tsjs) in * by (by rewrite <-app_assoc).
  destruct (dict_get (key_of w j) formats) as [v|] eqn:Hget; apply IH; try done.
  - apply dict_get_Some in Hget as (k' & Hin & Hk').
    assert (key_class w j ∈ py_key <$> formats.*1) as Hj.
    { unfold key_class. rewrite <-Hk'. apply list_elem_of_fmap. exists k'.
      split; [done|]. apply list_elem_of_fmap. by exists (k', v). }
    intros k. rewrite fmap_app, elem_of_app, <-Hcls. simpl.
    rewrite list_elem_of_singleton. naive_solver.
  - intros k. rewrite !fmap_app, !elem_of_app, <-Hcls. simpl.
    rewrite !list_elem_of_singleton. unfold key_class. naive_solver.
  - apply Forall_app. split; [done|]. constructor; [|done].
    exists j. split; [|done]. exists pre, tsjs. split; [by rewrite <-app_assoc|].
    apply dict_get_None in Hget. by rewrite <-Hcls.
Qed.

Lemma first_of_key_elem w tsjs j : first_of_key w tsjs j → j ∈ tsjs.
Proof.
  intros (l1 & l2 & -> & _). apply elem_of_app. right. by left.
Qed.

Lemma encode_items_run E items formats :
  Forall (λ it : fmtkey * fmtval,
            (∃ p, it.2 = FProxy p) ∧ ∃ body, dumps_key E it.1 = inr body) items →
  NoDup (py_key <$> items.*1) →
  ∃ formats',
    encode_items E items formats
    = (Ok formats', (λ c : job, EvMakeRequest c.1.1 c.1.2 c.2) <$> omap item_call items)
    ∧ (∀ it body k,
         it ∈ items → dumps_key E it.1 = inr body → py_key k = py_key it.1 →
         dict_get k formats' = Some (FBody body))
    ∧ (∀ k, py_key k ∉ py_key <$> items.*1 → dict_get k formats' = dict_get k formats).
Proof.
  intros Hitems. revert formats.
  induction Hitems as [|[k v] items [[p Hp] [body Hbody]] _ IH]; intros formats Hnd.
  { exists formats. split; [done|]. split; [|done]. by intros it body k ?%elem_of_nil. }
  simpl in *. subst v. rewrite Hbody.
  apply NoDup_cons in Hnd as [Hk Hnd].
  destruct (IH (dict_set k (FBody body) formats) Hnd) as (formats' & -> & Hget & Hkeep).
  exists formats'. split; [done|]. split.
  - intros it body' k' [->|Hin]%elem_of_cons Hd Hk'.
    + simpl in *. rewrite Hkeep by (by rewrite Hk').
      rewrite dict_get_set. rewrite decide_True by done. congruence.
    + by eapply Hget.
  - intros k' [Hne Hk']%not_elem_of_cons. rewrite Hkeep by done.
    rewrite dict_get_set. by rewrite decide_False.
Qed.

Lemma Forall2_impl_elem {A B} (P Q : A → B → Prop) (l : list A) (k : list B) :
  Forall2 P l k → (∀ x y, x ∈ l → P x y → Q x y) → Forall2 Q l k.
Proof.
  induction 1 as [|x y l k Hxy _ IH]; intros HPQ; constructor.
  - apply HPQ; [by left|done].
  - apply IH. intros x' y' Hx'. apply HPQ. by right.
Qed.

(** The calls of the second loop, whatever its outcome: those of the items
    up to the first one that cannot be encoded. *)
Lemma encode_items_calls E items formats :
  make_request_calls (encode_items E items formats).2 `prefix_of` omap item_call items.
Proof.
  revert formats. induction items as [|[k [p|b]] items IH]; intros formats; simpl.
  - done.
  - change (omap item_call ((k, FProxy p) :: items))
      with ((p, k.1.1, k.1.2) :: omap item_call items).
    destruct (dumps_key E k) as [e|body]; simpl.
    { apply prefix_cons, prefix_nil. }
    specialize (IH (dict_set k (FBody body) formats)).
    destruct (encode_items E items _) as [o tr]. simpl in *.
    by apply prefix_cons.
  - apply prefix_nil.
Qed.

Lemma make_request_calls_app tr1 tr2 :
  make_request_calls (tr1 ++ tr2) = make_request_calls tr1 ++ make_request_calls tr2.
Proof. apply omap_app. Qed.

Lemma start_request_calls_app tr1 tr2 :
  start_request_calls (tr1 ++ tr2) = start_request_calls tr1 ++ start_request_calls tr2.
Proof. apply omap_app. Qed.

Lemma no_make_request_calls tr :
  Forall (λ ev, make_request_calls [ev] = []) tr → make_request_calls tr = [].
Proof.
  induction 1 as [|ev tr Hev _ IH]; [done|].
  change (ev :: tr) with ([ev] ++ tr).
  by rewrite make_request_calls_app, Hev, IH.
Qed.

Lemma no_start_request_calls tr :
  Forall (λ ev, start_request_calls [ev] = []) tr → start_request_calls tr = [].
Proof.
  induction 1 as [|ev tr Hev _ IH]; [done|].
  change (ev :: tr) with ([ev] ++ tr).
  by rewrite start_request_calls_app, Hev, IH.
Qed.

(** The items of [formats] after the first loop: one entry for each
    distinct key of the batch, holding the proxy of a job with that key. *)
Lemma collect_keys_items E tsjs w :
  (∀ d, dict_items E d ≡ₚ d) →
  Forall (λ j : job, is_two_stage w j.1.1 = true) tsjs →
  let items := dict_items E (collect_keys w tsjs []) in
  Forall (item_ok w) items
  ∧ Forall (λ it, ∃ j, first_of_key w tsjs j ∧ it = (key_of w j, FProxy j.1.1)) items
  ∧ key_of w <$> omap item_call items = items.*1
  ∧ (∀ c, c ∈ omap item_call items → first_of_key w tsjs c)
  ∧ NoDup (py_key <$> items.*1)
  ∧ (∀ k, k ∈ py_key <$> items.*1 ↔ k ∈ key_class w <$> tsjs).
Proof.
  intros Hperm Hts items.
  assert (Forall (λ it, ∃ j, first_of_key w tsjs j ∧ it = (key_of w j, FProxy j.1.1)) items)
    as Horigin.
  { unfold items. rewrite Hperm. apply collect_keys_origin. }
  split_and!; [|done| | | |].
  - eapply Forall_impl; [apply Horigin|]. intros it (j & Hj%first_of_key_elem & ->).
    exists j.1.1. split; [done|]. split; [by eapply Forall_forall in Hts|done].
  - clear -Horigin. induction Horigin as [|it items (j & Hj & ->) _ IH]; [done|].
    destruct j as [[p m] a].
    change (omap item_call ((key_of w (p, m, a), FProxy (p, m, a).1.1) :: items))
      with ((p, m, a) :: omap item_call items).
    by rewrite fmap_cons, IH.
  - clear -Horigin. induction Horigin as [|it items (j & Hj & ->) _ IH].
    { by intros c ?%elem_of_nil. }
    destruct j as [[p m] a].
    change (omap item_call ((key_of w (p, m, a), FProxy (p, m, a).1.1) :: items))
      with ((p, m, a) :: omap item_call items).
    intros c [->|Hc]%elem_of_cons; [done|]. by apply IH.
  - unfold items. rewrite Hperm. by apply collect_keys_NoDup, NoDup_nil_2.
  - intros k. unfold items. rewrite Hperm.
    rewrite collect_keys_elem. simpl. rewrite elem_of_nil. naive_solver.
Qed.

(** Whatever the outcome of the start phase, [make_request] is called at
    most once for a key, and only for jobs of the batch. *)
Lemma start_phase_calls E tsjs w o w' tr :
  (∀ d, dict_items E d ≡ₚ d) →
  Forall (λ j : job, is_two_stage w j.1.1 = true) tsjs →
  start_phase E tsjs w = (o, w', tr) →
  NoDup (key_class w <$> make_request_calls tr)
  ∧ ∀ c, c ∈ make_request_calls tr → first_of_key w tsjs c.
Proof.
  intros Hperm Hts. unfold start_phase.
  destruct (collect_keys_items E tsjs w Hperm Hts)
    as (Hitems & _ & Hkeys & Hreps & Hnd & _).
  intros [(formats & w1 & t1 & t2 & Hcol & Hrun & ->)|[(e & Hcol & _)|[Hcol _]]]%bind_inv.
  2,3: rewrite collect_formats_run in Hcol by done;
       destruct (forallb _ _); simplify_eq;
       (split; [apply NoDup_nil_2|by intros c ?%elem_of_nil]).
  rewrite collect_formats_run in Hcol by done.
  destruct (forallb _ _); [|done]. injection Hcol as <- <- <-.
  set (items := dict_items E (collect_keys w tsjs [])) in *.
  pose proof (encode_items_calls E items (collect_keys w tsjs [])) as [rest Hrest].
  assert (make_request_calls t2 = make_request_calls (encode_items E items (collect_keys w tsjs [])).2)
    as Hcalls.
  { cbv beta in Hrun.
    apply bind_inv in Hrun
      as [(formats' & w1 & t3 & t4 & Henc & Hrun & ->)|[(e & Henc & _)|[Henc _]]];
      rewrite encode_formats_run in Henc by done;
      destruct (encode_items E items _) as [o1 tr1]; simplify_eq/=; [|done..].
    apply (emits_start_all E (λ ev, make_request_calls [ev] = [])) in Hrun as (Ht4 & _);
      [|done..].
    by rewrite make_request_calls_app, (no_make_request_calls t4 Ht4), app_nil_r. }
  simpl. rewrite Hcalls.
  assert (NoDup (key_class w <$> omap item_call items)) as Hnd'.
  { by rewrite key_class_fmap, Hkeys. }
  rewrite Hrest, fmap_app in Hnd'. apply NoDup_app in Hnd' as (Hnd' & _).
  split; [done|]. intros c Hc. apply Hreps. rewrite Hrest. apply elem_of_app. by left.
Qed.

(** The start phase on hashable, encodable jobs. *)
Lemma start_phase_run E tsjs w :
  (∀ d, dict_items E d ≡ₚ d) →
  Forall (λ j : job, is_two_stage w j.1.1 = true) tsjs →
  Forall (λ j : job, hashable j.2 = true) tsjs →
  Forall (λ j : job, ∃ body, dumps_key E (key_of w j) = inr body) tsjs →
  ∃ started w' tr,
    start_phase E tsjs w = (Ok started, w', tr)
    ∧ started.*1 = (λ j : job, j.1.1) <$> tsjs
    ∧ NoDup (key_class w <$> make_request_calls tr)
    ∧ (∀ k, k ∈ key_class w <$> make_request_calls tr ↔ k ∈ key_class w <$> tsjs)
    ∧ (∀ c, c ∈ make_request_calls tr → first_of_key w tsjs c)
    ∧ Forall2 (λ (j : job) (s : ref * string),
                 s.1 = j.1.1
                 ∧ ∃ c, c ∈ make_request_calls tr
                        ∧ key_class w c = key_class w j
                        ∧ dumps_key E (key_of w c) = inr s.2)
              tsjs (start_request_calls tr).
Proof.
  intros Hperm Hts Hhash Hdumps. unfold start_phase.
  rewrite (bind_ok_nil _ _ w (collect_keys w tsjs []) w).
  2: { rewrite collect_formats_run by done.
       rewrite (proj2 (forallb_forall _ _)); [done|].
       intros j Hj%list_elem_of_In. by eapply Forall_forall in Hhash. }
  set (formats := collect_keys w tsjs []).
  set (items := dict_items E formats).
  destruct (collect_keys_items E tsjs w Hperm Hts)
    as (Hitems & Horigin & Hkeys & Hreps & Hnd & Helem).
  fold formats in Hitems, Horigin, Hkeys, Hreps, Hnd, Helem.
  fold items in Hitems, Horigin, Hkeys, Hreps, Hnd, Helem.
  destruct (encode_items_run E items formats) as (formats' & Henc & Hget & _).
  { eapply Forall_impl; [apply Horigin|]. intros it (j & Hj%first_of_key_elem & ->). simpl.
    split; [by eexists|]. by eapply Forall_forall in Hdumps. }
  { done. }
  (* the job whose arguments were encoded for the key of [j] *)
  assert (∀ j, j ∈ tsjs →
            ∃ c body, c ∈ omap item_call items
              ∧ key_class w c = key_class w j
              ∧ dumps_key E (key_of w c) = inr body
              ∧ dict_get (key_of w j) formats' = Some (FBody body)) as Hrep.
  { intros j Hj.
    assert (key_class w j ∈ py_key <$> items.*1) as Hk.
    { apply Helem, list_elem_of_fmap. by exists j. }
    apply list_elem_of_fmap in Hk as (k & Hk & Hin).
    apply list_elem_of_fmap in Hin as (it & -> & Hin).
    pose proof Hin as Hit. eapply Forall_forall in Hit; [|exact Horigin].
    destruct Hit as (c & Hc%first_of_key_elem & ->). simpl in Hk.
    pose proof Hc as Hd. eapply Forall_forall in Hd; [|exact Hdumps].
    destruct Hd as [body Hbody].
    exists c, body. split_and!; [|done|done|].
    - apply list_elem_of_omap. exists (key_of w c, FProxy c.1.1).
      split; [done|]. by destruct c as [[p m] a].
    - eapply (Hget (key_of w c, FProxy c.1.1)); [done|done|]. simpl. done. }
  erewrite bind_ok.
  2: { by rewrite encode_formats_run, Henc. }
  destruct (start_all_run E tsjs formats' [] w) as (new & w' & tr & -> & _ & _ & Hmk & Hnew & Hstarts).
  { done. }
  { apply Forall_forall. intros j Hj. split; [by eapply Forall_forall in Hhash|].
    destruct (Hrep j Hj) as (c & body & _ & _ & _ & Hg). by exists body. }
  set (mk := (λ c : job, EvMakeRequest c.1.1 c.1.2 c.2) <$> omap item_call items).
  assert (make_request_calls (mk ++ tr) = omap item_call items) as Hmkcalls.
  { unfold make_request_calls in *. rewrite omap_app, Hmk, app_nil_r. unfold mk.
    clear. induction (omap item_call items) as [|[[p m] a] l IH]; [done|].
    simpl. f_equal. exact IH. }
  assert (start_request_calls (mk ++ tr) = start_request_calls tr) as Hstcalls.
  { unfold start_request_calls. rewrite omap_app. unfold mk.
    clear. induction (omap item_call items) as [|[[p m] a] l IH]; done. }
  assert (key_class w <$> omap item_call items = py_key <$> items.*1) as Hclasses.
  { by rewrite key_class_fmap, Hkeys. }
  exists new, w', (mk ++ tr). rewrite Hmkcalls, Hstcalls, Hclasses.
  split_and!; try done.
  eapply Forall2_impl_elem; [apply Hstarts|]. intros j s Hj [Hs Hbody]. simpl in *.
  split; [done|].
  destruct (Hrep j Hj) as (c & body & Hc & Hk & Hd & Hg).
  exists c. split_and!; [done..|]. congruence.
Qed.

(** ** The whole generator *)

(** The three ways a run of [RunTwoStageJobs] can go. *)
Lemma RunTwoStageJobs_run E jobs fallback w o w' tr :
  RunTwoStageJobs E jobs fallback w = (o, w', tr) →
  (two_stage_jobs w jobs = []
   ∧ o = Raise (NameError "global name 'proxies' is not defined")
   ∧ w' = w ∧ tr = [])
  ∨ (two_stage_jobs w jobs ≠ []
     ∧ ∃ e, start_phase E (two_stage_jobs w jobs) w = (Raise e, w', tr)
            ∧ o = Raise e)
  ∨ (two_stage_jobs w jobs ≠ []
     ∧ ∃ started w1 tr_start tr_rest,
         start_phase E (two_stage_jobs w jobs) w = (Ok started, w1, tr_start)
         ∧ finish_phase E fallback (other_jobs w jobs) started w1 = (o, w', tr_rest)
         ∧ tr = tr_start ++ tr_rest).
Proof.
  rewrite RunTwoStageJobs_unfold. case_bool_decide as Hts.
  { intros [= <- <- <-]. by left. }
  intros [(started & w1 & t1 & t2 & Hstart & Hfin & ->)|[(e & Hstart & ->)|[Hstart ->]]]%bind_inv.
  - right; right. split; [done|]. by exists started, w1, t1, t2.
  - right; left. split; [done|]. by exists e.
  - by apply emits_start_phase in Hstart as (_ & ? & _).
Qed.

(** Requests are encoded and started in the start phase only. *)
Lemma finish_phase_calls E fallback others started w o w' tr :
  Forall (λ j : job, is_two_stage w j.1.1 = false) others →
  finish_phase E fallback others started w = (o, w', tr) →
  make_request_calls tr = [] ∧ start_request_calls tr = [].
Proof.
  intros Hothers Hfin.
  apply finish_phase_run in Hfin
    as (ofb & w2 & tr_fb & tr_poll & tr_drain & _ & -> & [_ Hfb] & _ & Hpoll & _ & Hdrain & _);
    [|done].
  apply pipeline_trace_events in Hpoll, Hdrain.
  assert (Forall (λ ev, is_fallback_event ev = true ∨ is_pipeline_event ev = true)
                 (tr_fb ++ tr_poll ++ tr_drain)) as Hall.
  { rewrite !Forall_app. split_and!; (eapply Forall_impl; [done|]); naive_solver. }
  split; [apply no_make_request_calls|apply no_start_request_calls];
    (eapply Forall_impl; [done|]); by intros [] [|].
Qed.

Lemma start_all_started E tsjs formats started w started' w' tr :
  start_all E tsjs formats started w = (Ok started', w', tr) →
  ∃ new, started' = started ++ new ∧ Forall2 (started_by E) tsjs new.
Proof.
  revert started w tr.
  induction tsjs as [|[[p m] a] tsjs IH]; intros started w tr; simpl.
  { intros [= <- <- <-]. exists []. by rewrite app_nil_r. }
  intros [(rf & w1 & t1 & t2 & _ & Hrun & _)|[(e & _ & ?)|[_ ?]]]%bind_inv;
    [|done..].
  apply bind_inv in Hrun
    as [([] & w2 & t3 & t4 & _ & Hrun & _)|[(e & _ & ?)|[_ ?]]]; [|done..].
  destruct (dict_get _ formats) as [[q|body]|]; try done.
  apply bind_inv in Hrun
    as [(st & w3 & t5 & t6 & Hst & Hrun & _)|[(e & _ & ?)|[_ ?]]]; [|done..].
  apply IH in Hrun as (new & -> & Hnew).
  exists ((p, st) :: new). rewrite <-app_assoc. split; [done|].
  constructor; [|done]. split; [done|]. simpl. by eexists _, _, _, _.
Qed.

Lemma start_phase_started E tsjs w started w' tr :
  start_phase E tsjs w = (Ok started, w', tr) →
  Forall2 (started_by E) tsjs started.
Proof.
  unfold start_phase.
  intros [(f1 & w1 & t1 & t2 & _ & Hrun & _)|[(e & _ & ?)|[_ ?]]]%bind_inv;
    [|done..].
  apply bind_inv in Hrun
    as [(f2 & w2 & t3 & t4 & _ & Hrun & _)|[(e & _ & ?)|[_ ?]]]; [|done..].
  by apply start_all_started in Hrun as (new & -> & Hnew).
Qed.

Lemma started_by_proxies E tsjs started :
  Forall2 (started_by E) tsjs started →
  started.*1 = (λ j : job, j.1.1) <$> tsjs.
Proof.
  induction 1 as [|j pr tsjs started [Hpr _] _ IH]; [done|].
  rewrite !fmap_cons. by f_equal.
Qed.

Lemma emits_start_all_two_stage E w0 tsjs formats started :
  Forall (λ j : job, is_two_stage w0 j.1.1 = true) tsjs →
  emits (λ ev, ∀ p, multiplexed ev = Some p → is_two_stage w0 p = true)
        (start_all E tsjs formats started).
Proof.
  intros Hts. revert started.
  induction Hts as [|[[p m] a] tsjs Hp _ IH]; intros started; simpl.
  { apply emits_ret. }
  apply emits_bind; [apply emits_request_format|]. intros rf.
  apply emits_bind.
  { unfold py_hash. case_match; [apply emits_ret|apply emits_raise]. }
  intros _. repeat case_match; try apply emits_raise.
  apply emits_bind; [|intros r; apply IH].
  apply emits_start_request; simpl; [|done]. by intros ? [= <-].
Qed.

Lemma emits_start_phase_two_stage E w0 tsjs :
  Forall (λ j : job, is_two_stage w0 j.1.1 = true) tsjs →
  emits (λ ev, ∀ p, multiplexed ev = Some p → is_two_stage w0 p = true)
        (start_phase E tsjs).
Proof.
  intros Hts. unfold start_phase.
  apply emits_bind; [apply emits_collect_formats|].
  intros formats. apply emits_bind; [by apply emits_encode_formats|].
  intros formats'. by apply emits_start_all_two_stage.
Qed.

Lemma pipeline_trace_multiplexed started tr :
  pipeline_trace started tr →
  Forall (λ ev, ∀ p, multiplexed ev = Some p → p ∈ started.*1) tr.
Proof.
  induction 1 as [|fds tr _ IH|p st cl r tr Hin Hcl _ IH].
  - constructor.
  - by constructor.
  - constructor.
    { simpl. intros ? [= <-]. apply list_elem_of_fmap. by exists (p, st). }
    apply Forall_app. split; [by destruct Hcl as [-> | ->]; repeat constructor|].
    by constructor.
Qed.

(** Only proxies that are [TwoStageServerProxy] instances are started or
    finished by [RunTwoStageJobs]. *)
Lemma RunTwoStageJobs_multiplexes_two_stage E jobs fallback w o w' tr :
  RunTwoStageJobs E jobs fallback w = (o, w', tr) →
  Forall (λ ev, ∀ p, multiplexed ev = Some p → is_two_stage w p = true) tr.
Proof.
  intros [(_ & _ & _ & ->)|[(_ & e & Hstart & _)
    |(_ & started & w1 & t1 & t2 & Hstart & Hfin & ->)]]%RunTwoStageJobs_run.
  - constructor.
  - eapply emits_start_phase_two_stage in Hstart as (? & _); [done|].
    apply two_stage_jobs_Forall.
  - pose proof Hstart as Hstarted%start_phase_started%started_by_proxies.
    eapply emits_start_phase_two_stage in Hstart as (Ht1 & _ & Hw1);
      [|apply two_stage_jobs_Forall].
    apply Forall_app. split; [done|].
    apply finish_phase_run in Hfin
      as (ofb & w2 & tr_fb & tr_poll & tr_drain & _ & -> & [_ Hfb] & _ & Hpoll & _ & Hdrain & _).
    2: { eapply Forall_impl; [apply other_jobs_Forall|]. intros j Hj. simpl in *.
         by rewrite (same_objects_two_stage w w1). }
    assert (∀ t, pipeline_trace started t →
              Forall (λ ev, ∀ p, multiplexed ev = Some p → is_two_stage w p = true) t)
      as Hpipe.
    { intros t Ht%pipeline_trace_multiplexed.
      eapply Forall_impl; [done|]. intros ev Hev p Hp%Hev.
      rewrite Hstarted in Hp. apply list_elem_of_fmap in Hp as (j & -> & Hj).
      by eapply Forall_forall in Hj; [|apply two_stage_jobs_Forall]. }
    rewrite !Forall_app. split_and!; [|by apply Hpipe..].
    eapply Forall_impl; [done|]. by intros [].
Qed.

(** ** Building the proxies of a ParallelServerProxy *)

Lemma init_unknown_protocol E uri kw w :
  (splittype E uri).1 ≠ Some "http" →
  TwoStageServerProxy.init E uri kw w
  = (Raise (UnknownProtocolError "unsupported XML-RPC protocol"), w, []).
Proof.
  unfold TwoStageServerProxy.init. destruct (splittype E uri) as [type rest].
  simpl. intros Htype. by rewrite bool_decide_eq_false_2.
Qed.

Lemma alloc_run o w r w' tr :
  alloc o w = (Ok r, w', tr) →
  tr = [] ∧ heap w !! r = None ∧ heap w' = <[r := o]> (heap w).
Proof.
  unfold alloc. intros [= <- <- <-]. split_and!; [done| |done].
  apply not_elem_of_dom, is_fresh.
Qed.

Lemma new_ServerProxy_run E s kw w o w' tr :
  new_ServerProxy E s kw w = (o, w', tr) →
  tr = [] ∧ heap w ⊆ heap w' ∧ o ≠ Hang
  ∧ ∀ r, o = Ok r → heap w' !! r = Some (OServerProxy s).
Proof.
  unfold new_ServerProxy. destruct (ServerProxy_init E s kw) as [e|].
  { intros [= <- <- <-]. done. }
  intros Hrun. assert (∃ r, o = Ok r) as [r ->] by (unfold alloc in Hrun; naive_solver).
  apply alloc_run in Hrun as (-> & Hfresh & Hheap).
  rewrite Hheap. split_and!; [done|by apply insert_subseteq|done|].
  intros ? [= <-]. by rewrite lookup_insert_eq.
Qed.

Lemma init_run E uri kw w o w' tr :
  TwoStageServerProxy.init E uri kw w = (o, w', tr) →
  tr = [] ∧ heap w ⊆ heap w' ∧ o ≠ Hang.
Proof.
  unfold TwoStageServerProxy.init.
  destruct (splittype E uri) as [type rest].
  case_bool_decide; [|by intros [= <- <- <-]].
  destruct (splithost E rest) as [h path].
  unfold py_assert. destruct (bool_decide (kw_transport kw = None)).
  - rewrite (bind_ok_nil _ _ w tt w) by done.
    intros Hrun. assert (∃ r, o = Ok r) as [r ->] by (unfold alloc in Hrun; naive_solver).
    apply alloc_run in Hrun as (-> & Hfresh & ->).
    split_and!; [done|by apply insert_subseteq|done].
  - erewrite bind_raise by done. by intros [= <- <- <-].
Qed.

(** An address whose scheme is not [http] gets a plain
    [xmlrpclib.ServerProxy], or the error of that constructor. *)
Lemma make_proxy_unknown_protocol E tssp_lo kw s w :
  (splittype E s).1 ≠ Some "http" →
  make_proxy E tssp_lo kw (SAddr s) w = new_ServerProxy E s kw w.
Proof.
  intros Hs. simpl. case_match; [|done].
  unfold except_UnknownProtocolError, try_except.
  rewrite init_unknown_protocol by done.
  destruct (new_ServerProxy E s kw w) as [[o w'] tr] eqn:Hnew.
  by apply new_ServerProxy_run in Hnew as (-> & _).
Qed.

Lemma make_proxy_run E tssp_lo kw s w o w' tr :
  make_proxy E tssp_lo kw s w = (o, w', tr) →
  tr = [] ∧ heap w ⊆ heap w' ∧ o ≠ Hang.
Proof.
  destruct s as [s|r]; simpl; [|by intros [= <- <- <-]].
  case_match; [|by intros (? & ? & ? & _)%new_ServerProxy_run].
  unfold except_UnknownProtocolError, try_except.
  destruct (TwoStageServerProxy.init E s kw w) as [[[r|e|] w1] t1] eqn:Hinit;
    apply init_run in Hinit as (-> & Hsub & ?); try done.
  - by intros [= <- <- <-].
  - destruct e; try by intros [= <- <- <-].
    destruct (new_ServerProxy E s kw w1) as [[o2 w2] t2] eqn:Hnew.
    apply new_ServerProxy_run in Hnew as (-> & ? & ? & _).
    intros [= <- <- <-]. split_and!; [done|by etrans|done].
Qed.

Lemma make_proxies_run E tssp_lo kw servers proxies w proxies' w' tr :
  make_proxies E tssp_lo kw servers proxies w = (Ok proxies', w', tr) →
  ∃ new, proxies' = proxies ++ new
    ∧ heap w ⊆ heap w'
    ∧ ∀ i s, servers !! i = Some (SAddr s) →
        (splittype E s).1 ≠ Some "http" →
        ServerProxy_init E s kw = None
        ∧ ∃ r, new !! i = Some r ∧ heap w' !! r = Some (OServerProxy s).
Proof.
  revert proxies w tr.
  induction servers as [|s servers IH]; intros proxies w tr; simpl.
  { intros [= <- <- <-]. exists []. rewrite app_nil_r. by split_and!. }
  intros [(r & w1 & t1 & t2 & Hmk & Hrest & ->)|[(e & _ & ?)|[_ ?]]]%bind_inv;
    [|done..].
  apply IH in Hrest as (new & -> & Hsub & Hnew).
  pose proof Hmk as (_ & Hsub1 & _)%make_proxy_run.
  exists (r :: new). rewrite <-app_assoc. split_and!; [done|by etrans|].
  intros [|i] a Hi Ha; simpl in *; [|by apply Hnew].
  injection Hi as ->.
  rewrite make_proxy_unknown_protocol in Hmk by done. split.
  { unfold new_ServerProxy in Hmk. by destruct (ServerProxy_init E a kw). }
  exists r. split; [done|].
  apply new_ServerProxy_run in Hmk as (_ & _ & _ & Hr).
  eapply lookup_weaken; [by apply Hr|done].
Qed.

(** An address whose proxy cannot be built ends the constructor. *)
Lemma make_proxies_raise E tssp_lo kw pre :
  ∀ acc w proxies w1 tr s post e w2 tr',
    make_proxies E tssp_lo kw pre acc w = (Ok proxies, w1, tr) →
    make_proxy E tssp_lo kw s w1 = (Raise e, w2, tr') →
    make_proxies E tssp_lo kw (pre ++ s :: post) acc w = (Raise e, w2, tr ++ tr').
Proof.
  induction pre as [|s0 pre IH]; intros acc w proxies w1 tr s post e w2 tr'; simpl.
  { intros [= <- <- <-] Hs. by erewrite bind_raise by done. }
  intros [(r & w0 & t1 & t2 & Hmk & Hrest & ->)|[(e0 & _ & ?)|[_ ?]]]%bind_inv Hs;
    [|done..].
  erewrite bind_ok by done.
  erewrite IH by done. by rewrite app_assoc.
Qed.

(** ** Runs that complete *)

Lemma RunSequentialJobs_completes E others :
  fallback_completes E Fn_RunSequentialJobs others.
Proof.
  intros w Hothers. simpl.
  destruct (RunSequentialJobs_others E others w Hothers) as (w' & tr & ? & _ & ?).
  by exists w', tr.
Qed.

Lemma start_request_heap E p body w px st w' tr :
  heap w !! p = Some (OTwoStage px) →
  TwoStageServerProxy.start_request E p body w = (Ok st, w', tr) →
  (∀ q, q ≠ p → heap w' !! q = heap w !! q)
  ∧ handle_current w' (p, st).
Proof.
  intros Hp. unfold handle_current. munfold; simpl. rewrite Hp; simpl.
  repeat (case_match; simplify_eq/=); intros [= <- <- <-]; simpl;
    (split; [by intros q Hq; rewrite lookup_insert_ne|]); try done;
    eexists; by rewrite lookup_insert_eq.
Qed.

Lemma handle_current_other w w' pr :
  heap w' !! pr.1 = heap w !! pr.1 → handle_current w pr → handle_current w' pr.
Proof. unfold handle_current. by intros ->. Qed.

Lemma start_all_current E tsjs formats started w started' w' tr :
  start_all E tsjs formats started w = (Ok started', w', tr) →
  Forall (λ j : job, is_two_stage w j.1.1 = true) tsjs →
  NoDup ((λ j : job, j.1.1) <$> tsjs) →
  (∀ pr, pr ∈ started → pr.1 ∉ (λ j : job, j.1.1) <$> tsjs) →
  Forall (handle_current w) started →
  Forall (handle_current w') started'.
Proof.
  revert started w tr.
  induction tsjs as [|[[p m] a] tsjs IH]; intros started w tr; simpl.
  { by intros [= <- <- <-]. }
  intros Hrun Hts Hnd Hdisj Hcur.
  apply Forall_cons in Hts as [Hp Hts]. apply NoDup_cons in Hnd as [Hpnotin Hnd].
  simpl in Hp. unfold is_two_stage in Hp.
  destruct (heap w !! p) as [[px| |]|] eqn:Hpx; try done.
  apply bind_inv in Hrun
    as [(rf & w1 & t1 & t2 & Hrf & Hrun & _)|[(e & _ & ?)|[_ ?]]]; [|done..].
  rewrite request_format_run in Hrf by (unfold is_two_stage; by rewrite Hpx).
  injection Hrf as <- <- <-.
  apply bind_inv in Hrun
    as [([] & w2 & t3 & t4 & Hh & Hrun & _)|[(e & _ & ?)|[_ ?]]]; [|done..].
  assert (w2 = w) as ->.
  { unfold py_hash, mret, M_ret, ret, raise in Hh. simpl in Hh.
    destruct (hashable a); by simplify_eq. }
  destruct (dict_get _ formats) as [[q|body]|]; try done.
  apply bind_inv in Hrun
    as [(st & w3 & t5 & t6 & Hst & Hrun & _)|[(e & _ & ?)|[_ ?]]]; [|done..].
  destruct (start_request_heap E p body w px st w3 t5 Hpx Hst) as [Hother Hcurp].
  destruct (start_request_run E p body w) as (st' & w3' & cl & Heq & _ & Hsame).
  rewrite Hst in Heq. injection Heq as <- <- _.
  eapply IH; [done| |done| |].
  - eapply Forall_impl; [apply Hts|]. intros j Hj. simpl in *.
    by rewrite (same_objects_two_stage w w3).
  - intros pr [Hpr|Hpr%list_elem_of_singleton]%elem_of_app.
    + apply Hdisj in Hpr. rewrite ?fmap_cons, not_elem_of_cons in Hpr. tauto.
    + by subst pr.
  - apply Forall_app. split; [|by constructor].
    apply Forall_forall. intros pr Hpr.
    eapply Forall_forall in Hcur; [|done].
    apply handle_current_other with w; [|done]. apply Hother.
    apply Hdisj in Hpr. rewrite ?fmap_cons, not_elem_of_cons in Hpr. tauto.
Qed.

Lemma start_phase_current E tsjs w started w' tr :
  start_phase E tsjs w = (Ok started, w', tr) →
  Forall (λ j : job, is_two_stage w j.1.1 = true) tsjs →
  NoDup ((λ j : job, j.1.1) <$> tsjs) →
  Forall (handle_current w') started.
Proof.
  unfold start_phase. intros Hrun Hts Hnd.
  apply bind_inv in Hrun
    as [(f1 & w1 & t1 & t2 & Hf1 & Hrun & _)|[(e & _ & ?)|[_ ?]]]; [|done..].
  apply bind_inv in Hrun
    as [(f2 & w2 & t3 & t4 & Hf2 & Hrun & _)|[(e & _ & ?)|[_ ?]]]; [|done..].
  apply (emits_collect_formats (λ _, True)) in Hf1 as (_ & _ & Hw1).
  apply (emits_encode_formats E (λ _, True)) in Hf2 as (_ & _ & Hw2); [|done].
  eapply start_all_current; [done| |done| |done].
  - eapply Forall_impl; [apply Hts|]. intros j Hj. simpl in *.
    rewrite (same_objects_two_stage w w2); [done|by etrans].
  - by intros pr ?%elem_of_nil.
Qed.

Lemma build_socklist_total E seen started socklist w :
  Forall (handle_current w) started →
  NoDup (seen ++ started) →
  (∀ k pr, socklist !! k = Some pr → pr ∈ seen) →
  socklist_inj socklist →
  ∃ socklist', build_socklist E started socklist w = (Ok socklist', w, [])
    ∧ (∀ k pr, socklist' !! k = Some pr → pr ∈ seen ++ started)
    ∧ socklist_inj socklist'.
Proof.
  revert seen socklist.
  induction started as [|[p st] started IH]; intros seen socklist Hcur Hnd Hval Hinj.
  { exists socklist. rewrite app_nil_r. by split_and!. }
  apply Forall_cons in Hcur as [Hp Hcur].
  assert (NoDup ((seen ++ [(p, st)]) ++ started)) as Hnd' by by rewrite <-app_assoc.
  assert ((p, st) ∉ seen) as Hnew.
  { apply NoDup_app in Hnd as (_ & Hdisj & _). intros Hin. apply (Hdisj _ Hin). by left. }
  simpl. destruct st as [[[h v] seq]|e].
  - destruct Hp as (px & Hpx & Hseq). simpl in *.
    assert (TwoStageServerProxy.get_sockfd E p (StHandle (h, v, seq)) w
            = (Ok (conn_sock E h), w, [])) as Hfd.
    { munfold; simpl. rewrite Hpx; simpl. by rewrite bool_decide_eq_true_2. }
    erewrite bind_ok_nil by exact Hfd.
    destruct (conn_sock E h) as [fd|].
    + destruct (IH (seen ++ [(p, StHandle (h, v, seq))])
                  (<[fd := (p, StHandle (h, v, seq))]> socklist))
        as (sl' & Hrun & Hval' & Hinj'); [done..| | |].
      * intros k pr. destruct (decide (fd = k)) as [<-|Hne].
        -- rewrite lookup_insert_eq. intros [= <-]. apply elem_of_app. right. by left.
        -- rewrite lookup_insert_ne by done. intros ?%Hval. apply elem_of_app. by left.
      * intros k1 k2 pr.
        destruct (decide (fd = k1)) as [<-|Hne1], (decide (fd = k2)) as [<-|Hne2];
          rewrite ?lookup_insert_eq, ?lookup_insert_ne by done; try done.
        -- intros [= <-] ?%Hval. done.
        -- intros ?%Hval [= <-]. done.
        -- apply Hinj.
      * exists sl'. rewrite <-app_assoc in Hval'. by split_and!.
    + destruct (IH (seen ++ [(p, StHandle (h, v, seq))]) socklist)
        as (sl' & Hrun & Hval' & Hinj'); [done..| |done|].
      * intros k pr ?%Hval. apply elem_of_app. by left.
      * exists sl'. rewrite <-app_assoc in Hval'. by split_and!.
  - erewrite bind_ok_nil by reflexivity.
    destruct (IH (seen ++ [(p, StExc e)]) socklist)
      as (sl' & Hrun & Hval' & Hinj'); [done..| |done|].
    + intros k pr ?%Hval. apply elem_of_app. by left.
    + exists sl'. rewrite <-app_assoc in Hval'. by split_and!.
Qed.

Lemma list_remove_elem {A} `{EqDecision A} (x : A) l :
  x ∈ l → ∃ l', list_remove x l = Some l'.
Proof.
  induction l as [|y l IH]; [by intros ?%elem_of_nil|].
  simpl. case_decide; [by eexists|].
  intros [->|Hx]%elem_of_cons; [done|].
  destruct (IH Hx) as [l' ->]. by eexists.
Qed.

Lemma poll_ready_total E ks socklist started w :
  NoDup ks →
  (∀ k, k ∈ ks → is_Some (socklist !! k)) →
  (∀ k pr, socklist !! k = Some pr → pr ∈ started) →
  socklist_inj socklist →
  NoDup started →
  ∃ socklist' started' tr,
    poll_ready E ks socklist started w = (Ok (socklist', started'), w, tr)
    ∧ (∀ k pr, socklist' !! k = Some pr → pr ∈ started')
    ∧ socklist_inj socklist'
    ∧ NoDup started'.
Proof.
  revert socklist started.
  induction ks as [|k ks IH]; intros socklist started Hks Hin Hval Hinj Hnd.
  { exists socklist, started, []. by split_and!. }
  apply NoDup_cons in Hks as [Hk Hks].
  destruct (Hin k) as [[p st] Hpr]; [by left|].
  destruct (list_remove_elem (p, st) started) as [started1 Hrm]; [by eapply Hval|].
  simpl. rewrite Hpr, Hrm. simpl.
  destruct (finish_request_run E p st w) as (r & cl & Hfin & _).
  apply list_remove_Some in Hrm as (l1 & l2 & -> & ->).
  apply NoDup_app in Hnd as (Hnd1 & Hdisj & [Hnotin Hnd2]%NoDup_cons).
  destruct (IH (delete k socklist) (l1 ++ l2)) as (sl' & st' & tr & Hrun & ? & ? & ?).
  - done.
  - intros k' Hk'. rewrite lookup_delete_ne by (by intros ->). apply Hin. by right.
  - intros k' pr [Hne Hk']%lookup_delete_Some.
    pose proof (Hval _ _ Hk') as [?|[->|?]%elem_of_cons]%elem_of_app;
      apply elem_of_app; [by left| |by right].
    by destruct Hne; eapply Hinj.
  - intros k1 k2 pr [_ H1]%lookup_delete_Some [_ H2]%lookup_delete_Some.
    by eapply Hinj.
  - apply NoDup_app. split_and!; [done| |done].
    intros x Hx1 Hx2. apply (Hdisj x Hx1). by right.
  - exists sl', st', ((EvFinishRequest p st :: cl) ++ [EvYield r] ++ tr).
    split_and!; try done.
    erewrite bind_ok by done. erewrite (bind_ok (yield r)) by done.
    by rewrite Hrun.
Qed.

Lemma poll_loop_total E fuel socklist started w :
  select_responsive E →
  size socklist ≤ fuel →
  (∀ k pr, socklist !! k = Some pr → pr ∈ started) →
  socklist_inj socklist →
  NoDup started →
  ∃ started' w' tr, poll_loop E fuel socklist started w = (Ok started', w', tr).
Proof.
  intros Hsel. revert socklist started w.
  induction fuel as [|fuel IH]; intros socklist started w Hfuel Hval Hinj Hnd.
  { assert (socklist = ∅) as -> by (apply map_size_empty_inv; lia).
    by eexists _, _, _. }
  destruct (decide (socklist = ∅)) as [->|Hne]; [by eexists _, _, _|].
  rewrite poll_loop_unfold by done. cbv zeta.
  destruct (Hsel (clock w) (map_to_list socklist).*1) as (rs & es & -> & Hks & Hksnd & Hsub).
  { intros Hnil. apply fmap_nil_inv, map_to_list_empty_iff in Hnil. done. }
  destruct (set_iter E (rs ++ es)) as [|k ks] eqn:Hiter; [done|].
  destruct (poll_ready_total E (k :: ks) socklist started (World (heap w) (S (clock w))))
    as (sl' & st' & tr & Hrun & Hval' & Hinj' & Hnd'); [done| |done..|].
  { intros k' Hk'%Hsub. apply list_elem_of_fmap in Hk' as ([k'' pr] & -> & Hk').
    apply elem_of_map_to_list in Hk'. by eexists. }
  pose proof (poll_ready_size _ _ _ _ _ _ _ _ _ Hrun) as Hsize. simpl in Hsize.
  destruct (IH sl' st' (World (heap w) (S (clock w)))) as (st2 & w2 & t2 & Hloop);
    [lia|done..|].
  erewrite bind_ok by done. cbv beta iota. rewrite Hloop. by eexists _, _, _.
Qed.

Lemma finish_phase_total E fallback others started w :
  select_responsive E →
  Forall (λ j : job, is_two_stage w j.1.1 = false) others →
  fallback_completes E fallback others →
  Forall (handle_current w) started →
  NoDup started →
  ∃ w' tr, finish_phase E fallback others started w = (Ok tt, w', tr).
Proof.
  intros Hsel Hothers Hfb Hcur Hnd. unfold finish_phase.
  assert (∃ w1 tr_fb,
            (if bool_decide (others = []) then mret tt
             else call_fallback E fallback others) w = (Ok tt, w1, tr_fb)
            ∧ heap w1 = heap w) as (w1 & tr_fb & Hrun & Hheap).
  { case_bool_decide.
    - by exists w, [].
    - destruct (Hfb w Hothers) as (w1 & tr_fb & Hrun & _).
      exists w1, tr_fb. split; [done|].
      by apply call_fallback_others in Hrun as [? _]. }
  erewrite bind_ok by exact Hrun.
  destruct (build_socklist_total E [] started ∅ w1) as (socklist & Hsl & Hval & Hinj).
  { eapply Forall_impl; [done|]. intros pr. apply handle_current_other. by rewrite Hheap. }
  { done. }
  { intros k pr. by rewrite lookup_empty. }
  { intros k1 k2 pr. by rewrite lookup_empty. }
  erewrite bind_ok_nil by exact Hsl.
  destruct (poll_loop_total E (size socklist) socklist started w1)
    as (started' & w2 & t2 & Hpoll); [done..|].
  erewrite bind_ok by exact Hpoll.
  destruct (drain_run E started' started' w2) as (t3 & -> & _); [done|].
  by eexists _, _.
Qed.

(** On a batch with at least one two-stage job, no proxy named twice,
    hashable and encodable argument lists, a fallback that serves the
    other jobs and a [select] that keeps returning ready descriptors, the
    generator runs to completion and yields one result per job. *)
Lemma RunTwoStageJobs_completes E jobs fallback w :
  (∀ d, dict_items E d ≡ₚ d) →
  select_responsive E →
  two_stage_jobs w jobs ≠ [] →
  Forall (λ j : job, hashable j.2 = true) (two_stage_jobs w jobs) →
  Forall (λ j : job, ∃ body, dumps_key E (key_of w j) = inr body)
         (two_stage_jobs w jobs) →
  NoDup ((λ j : job, j.1.1) <$> two_stage_jobs w jobs) →
  fallback_completes E fallback (other_jobs w jobs) →
  ∃ w' tr, RunTwoStageJobs E jobs fallback w = (Ok tt, w', tr)
    ∧ length (yields tr) = length jobs.
Proof.
  intros Hperm Hsel Hts Hhash Hdumps Hnd Hfb.
  rewrite RunTwoStageJobs_unfold, bool_decide_eq_false_2 by done.
  destruct (start_phase_run E (two_stage_jobs w jobs) w Hperm
              (two_stage_jobs_Forall w jobs) Hhash Hdumps)
    as (started & w1 & t1 & Hstart & Hproxies & _).
  pose proof Hstart as (Ht1 & _ & Hw1)%emits_start_phase.
  pose proof (start_phase_current _ _ _ _ _ _ Hstart (two_stage_jobs_Forall w jobs) Hnd)
    as Hcur.
  assert (Forall (λ j : job, is_two_stage w1 j.1.1 = false) (other_jobs w jobs)) as Hothers.
  { eapply Forall_impl; [apply other_jobs_Forall|]. intros j Hj. simpl in *.
    by rewrite (same_objects_two_stage w w1). }
  destruct (finish_phase_total E fallback (other_jobs w jobs) started w1)
    as (w2 & t2 & Hfin); [done..| |].
  { apply (NoDup_fmap_1 fst). by rewrite Hproxies. }
  erewrite bind_ok by exact Hstart. rewrite Hfin.
  exists w2, (t1 ++ t2). split; [done|].
  apply finish_phase_run in Hfin
    as (ofb & w3 & tr_fb & tr_poll & tr_drain & Hrun & -> & _ & _ & _ & _ & _ & _ & _ & Hok);
    [|done].
  destruct (Hok eq_refl) as (-> & _ & Hlen).
  assert (length (yields tr_fb) = length (other_jobs w jobs)) as Hfblen.
  { case_bool_decide as Hnil.
    - injection Hrun as <- <-. by rewrite Hnil.
    - destruct (Hfb w1 Hothers) as (w4 & t4 & Hrun4 & Hl).
      rewrite Hrun4 in Hrun. by injection Hrun as <- <-. }
  rewrite !yields_app, !length_app, Hfblen.
  assert (yields t1 = []) as ->.
  { clear -Ht1. induction Ht1 as [|ev t Hev _ IH]; [done|]. by destruct ev. }
  assert (length started = length (two_stage_jobs w jobs)) as Hstarted.
  { by rewrite <-(length_fmap fst), Hproxies, length_fmap. }
  simpl. rewrite <-(jobs_partition_length w jobs). lia.
Qed.

Lemma Demo_select_responsive hosts schedule :
  select_responsive (Demo.env hosts Demo.all_ready schedule).
Proof.
  intros t fds Hfds. exists fds, []. simpl. rewrite app_nil_r.
  split_and!; [done| |apply NoDup_remove_dups|].
  - destruct fds as [|fd fds]; [done|]. intros Hnil.
    assert (fd ∈ remove_dups (fd :: fds)) as Hin by (apply elem_of_remove_dups; by left).
    rewrite Hnil in Hin. by apply elem_of_nil in Hin.
  - intros fd. by rewrite elem_of_remove_dups.
Qed.

(** How many results a completed run yields when the fallback is
    [RunSequentialJobs]: one per job. *)
Lemma RunTwoStageJobs_result_count E jobs w w' tr :
  RunTwoStageJobs E jobs Fn_RunSequentialJobs w = (Ok tt, w', tr) →
  length (yields tr) = length jobs.
Proof.
  intros [(_ & ? & _)|[(_ & e & _ & ?)
    |(_ & started & w1 & t1 & t2 & Hstart & Hfin & ->)]]%RunTwoStageJobs_run;
    [done..|].
  pose proof Hstart as Hstarted%start_phase_started%Forall2_length.
  apply emits_start_phase in Hstart as (Ht1 & _ & Hw1).
  assert (Forall (λ j : job, is_two_stage w1 j.1.1 = false) (other_jobs w jobs)) as Hothers.
  { eapply Forall_impl; [apply other_jobs_Forall|]. intros j Hj. simpl in *.
    by rewrite (same_objects_two_stage w w1). }
  apply finish_phase_run in Hfin
    as (ofb & w2 & tr_fb & tr_poll & tr_drain & Hfb & -> & _ & _ & _ & _ & _ & _ & _ & Hok);
    [|done].
  destruct (Hok eq_refl) as (-> & _ & Hlen).
  assert (length (yields tr_fb) = length (other_jobs w jobs)) as Hfblen.
  { case_bool_decide as Hnil.
    - injection Hfb as <- <-. by rewrite Hnil.
    - simpl in Hfb.
      destruct (RunSequentialJobs_others E _ w1 Hothers) as (w3 & t3 & Hrun & _ & Hl).
      rewrite Hrun in Hfb. by injection Hfb as <- <-. }
  rewrite !yields_app, !length_app, Hfblen.
  assert (yields t1 = []) as ->.
  { clear -Ht1. induction Ht1 as [|ev t Hev _ IH]; [done|]. by destruct ev. }
  simpl. rewrite <-(jobs_partition_length w jobs). lia.
Qed.

(** ** Stale handles *)

(** While the descriptors are collected, a recorded handle whose token is
    no longer the current one of its transport raises [AssertionError]. *)
Lemma build_socklist_stale E started socklist w :
  Forall (λ pr : ref * req_state, is_two_stage w pr.1 = true) started →
  Exists (λ pr, ¬ handle_current w pr) started →
  build_socklist E started socklist w = (Raise AssertionError, w, []).
Proof.
  intros Hts. revert socklist.
  induction Hts as [|[p st] started Hp _ IH]; intros socklist Hex.
  { by apply Exists_nil in Hex. }
  simpl. unfold is_two_stage in Hp; simpl in Hp.
  destruct (heap w !! p) as [[px| |]|] eqn:Hpx; try done.
  destruct st as [[[h v] seq]|e].
  - destruct (decide (seq = t_seq (transport px))) as [->|Hne].
    + assert (TwoStageServerProxy.get_sockfd E p (StHandle (h, v, t_seq (transport px))) w
              = (Ok (conn_sock E h), w, [])) as Hfd.
      { munfold; simpl. rewrite Hpx; simpl. by rewrite bool_decide_eq_true_2. }
      erewrite bind_ok_nil by exact Hfd.
      apply Exists_cons in Hex as [Hhd|Htl].
      { exfalso. apply Hhd. by exists px. }
      destruct (conn_sock E h); by apply IH.
    + erewrite bind_raise; [done|].
      munfold; simpl. rewrite Hpx; simpl. by rewrite bool_decide_eq_false_2.
  - erewrite bind_ok_nil by done.
    apply Exists_cons in Hex as [Hhd|Htl]; [by exfalso; apply Hhd|].
    by apply IH.
Qed.

Lemma finish_phase_stale E fallback others started w o w' tr :
  Forall (λ j : job, is_two_stage w j.1.1 = false) others →
  Forall (λ pr : ref * req_state, is_two_stage w pr.1 = true) started →
  Exists (λ pr, ¬ handle_current w pr) started →
  finish_phase E fallback others started w = (o, w', tr) →
  o ≠ Ok tt
  ∧ Forall (λ ev, is_fallback_event ev = true) tr
  ∧ (others = [] → o = Raise AssertionError ∧ tr = []).
Proof.
  intros Hothers Hts Hex Hrun. unfold finish_phase in Hrun.
  set (fb := if bool_decide (others = []) then mret tt
             else call_fallback E fallback others) in Hrun.
  assert (∀ ofb w1 tr_fb, fb w = (ofb, w1, tr_fb) →
            fallback_run w w1 tr_fb
            ∧ (others = [] → ofb = Ok tt ∧ tr_fb = [])) as Hfb.
  { intros ofb w1 tr_fb. unfold fb. case_bool_decide.
    - intros [= <- <- <-]. split; [apply fallback_run_refl|done].
    - intros Hcall. split; [by eapply call_fallback_others|done]. }
  apply bind_inv in Hrun
    as [([] & w1 & tr_fb & t2 & Hfb1 & Hrest & ->)|[(e & Hfb1 & ->)|[Hfb1 ->]]];
    destruct (Hfb _ _ _ Hfb1) as [[Hheap Hev] Hnil].
  - erewrite bind_raise in Hrest.
    2: { apply build_socklist_stale.
         - eapply Forall_impl; [exact Hts|]. intros pr Hpr. simpl in *.
           by rewrite (heap_two_stage w w1).
         - eapply Exists_impl; [exact Hex|]. intros pr Hpr Hcur. apply Hpr.
           eapply handle_current_other; [|exact Hcur]. by rewrite Hheap. }
    injection Hrest as <- <- <-. rewrite app_nil_r.
    split_and!; [done..|]. intros Hn. by destruct (Hnil Hn) as [_ ->].
  - split_and!; [done..|]. intros Hn. by destruct (Hnil Hn).
  - split_and!; [done..|]. intros Hn. by destruct (Hnil Hn).
Qed.

(** ** Which loop finishes which request *)

Lemma finish_calls_app tr1 tr2 :
  finish_calls (tr1 ++ tr2) = finish_calls tr1 ++ finish_calls tr2.
Proof. apply omap_app. Qed.

Lemma no_finish_calls tr :
  Forall (λ ev, finish_calls [ev] = []) tr → finish_calls tr = [].
Proof.
  induction 1 as [|ev tr Hev _ IH]; [done|].
  change (ev :: tr) with ([ev] ++ tr).
  by rewrite finish_calls_app, Hev, IH.
Qed.

Lemma filter_not_elem_app {A} `{EqDecision A} (l k1 k2 : list A) :
  filter (λ x, x ∉ k2) (filter (λ x, x ∉ k1) l) = filter (λ x, x ∉ k1 ++ k2) l.
Proof.
  induction l as [|x l IH]; [done|].
  destruct (decide (x ∈ k1)) as [H1|H1].
  - rewrite (filter_cons_False (λ x, x ∉ k1)) by (by intros ?).
    rewrite (filter_cons_False (λ x, x ∉ k1 ++ k2)); [done|].
    intros Hn. apply Hn, elem_of_app. by left.
  - rewrite (filter_cons_True (λ x, x ∉ k1)) by done.
    destruct (decide (x ∈ k2)) as [H2|H2].
    + rewrite (filter_cons_False (λ x, x ∉ k2)) by (by intros ?).
      rewrite (filter_cons_False (λ x, x ∉ k1 ++ k2)); [done|].
      intros Hn. apply Hn, elem_of_app. by right.
    + rewrite (filter_cons_True (λ x, x ∉ k2)) by done.
      rewrite (filter_cons_True (λ x, x ∉ k1 ++ k2)); [by rewrite IH|].
      intros [?|?]%elem_of_app; done.
Qed.

Lemma filter_not_elem_id {A} `{EqDecision A} (l k : list A) :
  (∀ x, x ∈ l → x ∉ k) → filter (λ x, x ∉ k) l = l.
Proof.
  induction l as [|x l IH]; intros Hl; [done|].
  rewrite filter_cons_True by (apply Hl; by left).
  rewrite IH; [done|]. intros y Hy. apply Hl. by right.
Qed.

(** [l.remove(x)] on a list without repetition. *)
Lemma list_remove_filter {A} `{EqDecision A} (x : A) l l' :
  NoDup l → list_remove x l = Some l' → l' = filter (λ y, y ∉ [x]) l.
Proof.
  revert l'. induction l as [|y l IH]; intros l' Hnd; simpl; [done|].
  apply NoDup_cons in Hnd as [Hy Hnd].
  case_decide as Hxy.
  - intros [= <-]. subst y.
    rewrite filter_cons_False by (intros Hn; apply Hn; by left).
    rewrite filter_not_elem_id; [done|].
    intros z Hz ->%list_elem_of_singleton. done.
  - destruct (list_remove x l) as [l''|]; [|done]. intros [= <-].
    rewrite filter_cons_True by (by intros ->%list_elem_of_singleton).
    by rewrite (IH l'').
Qed.

(** What [get_sockfd] returns when it returns. *)
Lemma get_sockfd_ok E p st w x w' tr :
  TwoStageServerProxy.get_sockfd E p st w = (Ok x, w', tr) →
  x = sockfd_of E (p, st).
Proof.
  destruct st as [[[h v] s]|e]; munfold; simpl;
    repeat (case_match; simplify_eq/=); by intros [= <- _ _].
Qed.

(** The descriptors collected for the started requests: every entry is a
    request under its own descriptor, and the descriptor of every request
    that has one holds a request with that descriptor. *)
Lemma build_socklist_entries E started :
  ∀ socklist w socklist' w' tr,
    build_socklist E started socklist w = (Ok socklist', w', tr) →
    (∀ k pr, socklist' !! k = Some pr →
       socklist !! k = Some pr ∨ (pr ∈ started ∧ sockfd_of E pr = Some k))
    ∧ (∀ k, is_Some (socklist !! k) → is_Some (socklist' !! k))
    ∧ (∀ pr k, pr ∈ started → sockfd_of E pr = Some k → is_Some (socklist' !! k)).
Proof.
  induction started as [|[p st] started IH]; intros socklist w socklist' w' tr; simpl.
  { intros [= <- <- <-]. split_and!; [by left|done|by intros ?? ?%elem_of_nil]. }
  intros [(x & w1 & t1 & t2 & Hfd & Hrest & ->)|[(e & _ & ?)|[_ ?]]]%bind_inv;
    [|done..].
  apply get_sockfd_ok in Hfd. subst x.
  destruct (sockfd_of E (p, st)) as [fd|] eqn:Hsock.
  - apply IH in Hrest as (Hin & Hkeep & Hall). split_and!.
    + intros k pr [Hk|[Hpr Hs]]%Hin; [|right; split; [by right|done]].
      destruct (decide (fd = k)) as [<-|Hne].
      * rewrite lookup_insert_eq in Hk. injection Hk as <-.
        right. split; [by left|done].
      * rewrite lookup_insert_ne in Hk by done. by left.
    + intros k Hk. apply Hkeep. destruct (decide (fd = k)) as [<-|Hne].
      * by rewrite lookup_insert_eq.
      * by rewrite lookup_insert_ne.
    + intros pr k [->|Hpr]%elem_of_cons Hs; [|by eapply Hall].
      apply Hkeep. rewrite Hs in Hsock. injection Hsock as ->.
      by rewrite lookup_insert_eq.
  - apply IH in Hrest as (Hin & Hkeep & Hall). split_and!.
    + intros k pr [Hk|[Hpr Hs]]%Hin; [by left|right; split; [by right|done]].
    + done.
    + intros pr k [->|Hpr]%elem_of_cons Hs; [congruence|by eapply Hall].
Qed.

(** One round of the poll loop: the requests of the ready descriptors are
    finished, and removed from [socklist] and from [started]. *)
Lemma poll_ready_finishes E ks :
  ∀ socklist started w socklist' started' w' tr,
    poll_ready E ks socklist started w = (Ok (socklist', started'), w', tr) →
    NoDup started →
    finish_calls tr ++ (map_to_list socklist').*2 ≡ₚ (map_to_list socklist).*2
    ∧ started' = filter (λ pr, pr ∉ finish_calls tr) started
    ∧ NoDup started'.
Proof.
  induction ks as [|k ks IH]; intros socklist started w socklist' started' w' tr; simpl.
  { intros [= <- <- <- <-] Hnd. split_and!; [done| |done].
    symmetry. apply filter_not_elem_id. intros x _. apply not_elem_of_nil. }
  destruct (socklist !! k) as [[p st]|] eqn:Hk; [|done].
  destruct (list_remove (p, st) started) as [started1|] eqn:Hrm; [|done].
  intros Hrun Hnd. simpl in Hrun.
  destruct (finish_request_run E p st w) as (r & cl & Hfin & Hcl & _).
  erewrite bind_ok in Hrun by done.
  unfold yield, emit in Hrun.
  erewrite bind_ok in Hrun by done.
  destruct (poll_ready E ks (delete k socklist) started1 w) as [[o2 w2] t2] eqn:Hrest.
  simpl in Hrun. injection Hrun as -> <- <-.
  apply list_remove_filter in Hrm; [|done].
  assert (NoDup started1) as Hnd1 by (subst started1; by apply NoDup_filter).
  apply IH in Hrest as (Hperm & -> & Hnd'); [|done].
  assert (finish_calls (EvFinishRequest p st :: cl ++ EvYield r :: t2)
          = (p, st) :: finish_calls t2) as ->.
  { change (finish_calls ([EvFinishRequest p st] ++ cl ++ [EvYield r] ++ t2)
            = (p, st) :: finish_calls t2).
    rewrite !finish_calls_app.
    assert (finish_calls cl = []) as -> by (by destruct Hcl as [-> | ->]).
    done. }
  split_and!; [|by rewrite Hrm, filter_not_elem_app|done].
  simpl. rewrite Hperm.
  by rewrite <-(map_to_list_delete socklist k (p, st) Hk).
Qed.

Lemma poll_loop_finishes E fuel :
  ∀ socklist started w started' w' tr,
    poll_loop E fuel socklist started w = (Ok started', w', tr) →
    NoDup started →
    finish_calls tr ≡ₚ (map_to_list socklist).*2
    ∧ started' = filter (λ pr, pr ∉ finish_calls tr) started.
Proof.
  induction fuel as [|fuel IH]; intros socklist started w started' w' tr Hrun Hnd.
  { simpl in Hrun. case_bool_decide as Hempty; [|done]. injection Hrun as <- <- <-.
    subst socklist. rewrite map_to_list_empty. split; [done|].
    symmetry. apply filter_not_elem_id. intros x _. apply not_elem_of_nil. }
  destruct (decide (socklist = ∅)) as [->|Hne].
  { simpl in Hrun. injection Hrun as <- <- <-.
    rewrite map_to_list_empty. split; [done|].
    symmetry. apply filter_not_elem_id. intros x _. apply not_elem_of_nil. }
  rewrite poll_loop_unfold in Hrun by done. cbv zeta in Hrun.
  destruct (sys_select E _ _) as [exc|[rs es]]; [done|].
  destruct (set_iter E _) as [|k ks]; [done|].
  destruct ((poll_ready E (k :: ks) socklist started ≫= _) _) as [[o2 w2] t2] eqn:Hstep.
  injection Hrun as -> <- <-.
  apply bind_inv in Hstep
    as [(a & w1 & t1 & t3 & Hready & Hloop & ->)|[(e & _ & ?)|[_ ?]]]; [|done..].
  destruct a as [socklist1 started1].
  apply poll_ready_finishes in Hready as (Hperm1 & -> & Hnd1); [|done].
  apply IH in Hloop as (Hperm2 & ->); [|done].
  change (EvSelect ((map_to_list socklist).*1) :: t1 ++ t3)
    with ([EvSelect ((map_to_list socklist).*1)] ++ t1 ++ t3).
  rewrite !finish_calls_app. simpl.
  split; [by rewrite Hperm2|by rewrite filter_not_elem_app].
Qed.

(** The final loop finishes what is left, in the order of [started]. *)
Lemma drain_finishes E started :
  ∀ w o w' tr, drain E started w = (o, w', tr) → finish_calls tr = started.
Proof.
  unfold drain. induction started as [|[p st] started IH]; intros w o w' tr; simpl.
  { by intros [= <- <- <-]. }
  destruct (finish_request_run E p st w) as (r & cl & Hfin & Hcl & _).
  assert ((TwoStageServerProxy.finish_request E p st ≫= λ res, yield res) w
          = (Ok tt, w, (EvFinishRequest p st :: cl) ++ [EvYield r])) as Hstep.
  { by erewrite bind_ok by done. }
  erewrite bind_ok by exact Hstep.
  destruct (for_each started _ w) as [[o2 w2] t2] eqn:Hrest.
  intros [= <- <- <-]. apply IH in Hrest.
  change (finish_calls ([EvFinishRequest p st] ++ (cl ++ [EvYield r]) ++ t2)
          = (p, st) :: started).
  rewrite !finish_calls_app, Hrest.
  by destruct Hcl as [-> | ->].
Qed.

(** A completed finish phase: every started request is finished exactly
    once; the poll loop finishes those under a descriptor, and the final
    loop the others, in the order in which they were started. *)
Lemma finish_phase_order E fallback others started w w' tr :
  Forall (λ j : job, is_two_stage w j.1.1 = false) others →
  NoDup started →
  finish_phase E fallback others started w = (Ok tt, w', tr) →
  ∃ tr_fb tr_poll tr_drain,
    tr = tr_fb ++ tr_poll ++ tr_drain
    ∧ Forall (λ ev, is_fallback_event ev = true) tr_fb
    ∧ pipeline_trace started tr_poll ∧ no_failed_finish tr_poll
    ∧ pipeline_trace started tr_drain
    ∧ Forall (λ ev, is_select ev = false) tr_drain
    ∧ failed_results tr_drain
      = (λ pe : ref * exn, (pe.1, pe.2, Some (PNone, Some pe.2))) <$> failed started
    ∧ finish_calls tr_fb = []
    ∧ finish_calls tr_drain = filter (λ pr, pr ∉ finish_calls tr_poll) started
    ∧ (∀ pr, pr ∈ finish_calls tr_poll → pr ∈ started ∧ is_Some (sockfd_of E pr))
    ∧ NoDup (finish_calls tr_poll)
    ∧ (distinct_sockets E started →
       ∀ pr, pr ∈ started → is_Some (sockfd_of E pr) → pr ∈ finish_calls tr_poll).
Proof.
  intros Hothers Hnd Hrun. unfold finish_phase in Hrun.
  set (fb := if bool_decide (others = []) then mret tt
             else call_fallback E fallback others) in Hrun.
  assert (∀ ofb w1 tr_fb, fb w = (ofb, w1, tr_fb) → fallback_run w w1 tr_fb) as Hfb.
  { intros ofb w1 tr_fb. unfold fb. case_bool_decide.
    - intros [= <- <- <-]. apply fallback_run_refl.
    - by apply call_fallback_others. }
  apply bind_inv in Hrun
    as [([] & w1 & tr_fb & t2 & Hfb1 & Hrest & ->)|[(e & _ & ?)|[_ ?]]]; [|done..].
  destruct (Hfb _ _ _ Hfb1) as [_ Hfbev].
  apply bind_inv in Hrest
    as [(socklist & w2 & t3 & t4 & Hsl & Hrest & ->)|[(e & _ & ?)|[_ ?]]]; [|done..].
  destruct (build_socklist_run E started started ∅ w1) as (osl & Hsl' & _ & Hok).
  { intros k pr. by rewrite lookup_empty. }
  { done. }
  rewrite Hsl in Hsl'. injection Hsl' as <- <- ->. specialize (Hok _ eq_refl).
  apply build_socklist_entries in Hsl as (Hentries & _ & Hall).
  apply bind_inv in Hrest
    as [(started1 & w3 & t5 & t6 & Hpoll & Hdrain & ->)|[(e & _ & ?)|[_ ?]]]; [|done..].
  pose proof Hpoll as (Hperm & ->)%poll_loop_finishes; [|done].
  eapply poll_loop_run in Hpoll as (_ & Hpipe & Hnf & Hres); [|done].
  destruct (Hres _ eq_refl) as (Hfailed & _ & Hsub).
  pose proof Hdrain as Hfin%drain_finishes.
  destruct (drain_run E started (filter (λ pr, pr ∉ finish_calls t5) started) w3)
    as (t7 & Hd & Hp7 & Hs7 & Hf7 & _).
  { done. }
  rewrite Hd in Hdrain. injection Hdrain as <- <-.
  assert (∀ pr, pr ∈ finish_calls t5 ↔ ∃ k, socklist !! k = Some pr) as Hpolled.
  { intros pr. rewrite Hperm, list_elem_of_fmap. split.
    - intros ([k pr'] & -> & Hin%elem_of_map_to_list). by exists k.
    - intros [k Hk]. exists (k, pr). split; [done|]. by apply elem_of_map_to_list. }
  exists tr_fb, t5, t7. simpl. split_and!; try done.
  - by rewrite Hf7, Hfailed.
  - apply no_finish_calls. eapply Forall_impl; [exact Hfbev|]. by intros [].
  - intros pr [k Hk]%Hpolled.
    destruct (Hentries k pr Hk) as [Hk'|[Hin Hs]]; [by rewrite lookup_empty in Hk'|].
    split; [done|]. by rewrite Hs.
  - rewrite Hperm. apply NoDup_fmap_2_strong; [|apply NoDup_map_to_list].
    intros [k1 pr1] [k2 pr2] Hin1%elem_of_map_to_list Hin2%elem_of_map_to_list Heq.
    simpl in Heq. subst pr2.
    destruct (Hentries k1 pr1 Hin1) as [Hk'|[_ Hs1]]; [by rewrite lookup_empty in Hk'|].
    destruct (Hentries k2 pr1 Hin2) as [Hk'|[_ Hs2]]; [by rewrite lookup_empty in Hk'|].
    congruence.
  - intros Hdist pr Hin [fd Hs]. apply Hpolled.
    destruct (Hall pr fd Hin Hs) as [pr' Hpr']. exists fd.
    destruct (Hentries fd pr' Hpr') as [Hk'|[Hin' Hs']]; [by rewrite lookup_empty in Hk'|].
    by rewrite (Hdist pr pr' fd Hin Hin' Hs Hs').
Qed.

(** ** One request on a TwoStageServerProxy *)

Lemma response_value_run (items : list pyval) (w : world) :
  ((n ← py_len (PTuple items);
    if bool_decide (n = 1) then v ← py_item0 (PTuple items); mret (v, None)
    else mret (PTuple items, None)) : M result) w
  = (Ok (response_value items, None), w, []).
Proof. by destruct items as [|v [|v' items]]. Qed.

(** The transport's [start_request] on a proxy of the store: the token is
    advanced before anything else, whatever happens next. *)
Lemma transport_start_request_run E p px body w :
  heap w !! p = Some (OTwoStage px) →
  TwoStageTransport.start_request E p (host px) (handler px) body (verbose px) w
  = match make_connection E p (host px) (S (t_seq (transport px))) with
    | inl e => (Raise e, after_start w p px, [])
    | inr h =>
        match net_send E h (host px) (handler px) body with
        | None => (Ok (h, verbose px, S (t_seq (transport px))), after_start w p px, [])
        | Some e => (Raise e, after_start w p px, close_unless_Fault p e)
        end
    end.
Proof.
  intros Hp. unfold close_unless_Fault. munfold; simpl. rewrite Hp; simpl.
  destruct (make_connection E p _ _) as [e|h]; simpl; [done|].
  destruct (net_send E h _ _ _) as [e|]; simpl; [|done].
  by destruct (is_Fault e).
Qed.

Lemma proxy_start_request_run E p px body w :
  heap w !! p = Some (OTwoStage px) →
  TwoStageServerProxy.start_request E p body w
  = match make_connection E p (host px) (S (t_seq (transport px))) with
    | inl e => (Ok (StExc e), after_start w p px, [EvStartRequest p body])
    | inr h =>
        match net_send E h (host px) (handler px) body with
        | None => (Ok (StHandle (h, verbose px, S (t_seq (transport px)))),
                   after_start w p px, [EvStartRequest p body])
        | Some e => (Ok (StExc e), after_start w p px,
                     EvStartRequest p body :: close_unless_Fault p e)
        end
    end.
Proof.
  intros Hp.
  pose proof (transport_start_request_run E p px body w Hp) as Ht.
  unfold TwoStageServerProxy.start_request, emit, try_except, get_proxy,
    mbind, M_bind, bind, mret, M_ret, ret in *.
  rewrite Hp. simpl. rewrite Ht.
  destruct (make_connection E p _ _) as [e|h]; simpl; [done|].
  destruct (net_send E h _ _ _) as [e|]; simpl; [|done].
  by rewrite app_nil_r.
Qed.

Lemma after_start_lookup w p px :
  heap (after_start w p px) !! p = Some (OTwoStage (advance_seq px)).
Proof. apply lookup_insert_eq. Qed.

(** [finish_request] on a handle that carries the current token. *)
Lemma proxy_finish_request_run E p px h v w :
  heap w !! p = Some (OTwoStage px) →
  TwoStageServerProxy.finish_request E p (StHandle (h, v, t_seq (transport px))) w
  = let ev := EvFinishRequest p (StHandle (h, v, t_seq (transport px))) in
    match conn_getresponse E h with
    | inl e => (Ok (PNone, Some e), w, ev :: close_unless_Fault p e)
    | inr (status, rb) =>
        if bool_decide (status = 200%Z) then
          match xml_parse_response E rb with
          | inl e => (Ok (PNone, Some e), w, ev :: close_unless_Fault p e)
          | inr items => (Ok (response_value items, None), w, [ev])
          end
        else (Ok (PNone, Some (TypeError "object of type 'NoneType' has no len()")),
              w, [ev])
    end.
Proof.
  intros Hp. unfold close_unless_Fault.
  unfold TwoStageServerProxy.finish_request, TwoStageTransport.finish_request,
    TwoStageTransport.reraise, TwoStageTransport.close, emit, try_except,
    get_proxy, py_assert.
  unfold mbind, M_bind, bind at 1 2 3. simpl. rewrite Hp. simpl.
  rewrite bool_decide_eq_true_2 by done. simpl.
  destruct (conn_getresponse E h) as [e|[status rb]]; simpl.
  { by destruct (is_Fault e). }
  case_bool_decide; simpl; [|done].
  destruct (xml_parse_response E rb) as [e|items]; simpl.
  { by destruct (is_Fault e). }
  by destruct items as [|x [|y items]].
Qed.

(** ** The calls of RunSequentialJobs *)

Lemma method_calls_app tr1 tr2 :
  method_calls (tr1 ++ tr2) = method_calls tr1 ++ method_calls tr2.
Proof. apply omap_app. Qed.

Lemma close_unless_Fault_calls p e :
  yields (close_unless_Fault p e) = []
  ∧ method_calls (close_unless_Fault p e) = []
  ∧ make_request_calls (close_unless_Fault p e) = []
  ∧ start_request_calls (close_unless_Fault p e) = []
  ∧ finish_calls (close_unless_Fault p e) = [].
Proof. unfold close_unless_Fault. by destruct (is_Fault e). Qed.

(** [_sequential_request] computes the outcome of the job: it returns the
    pair, leaves the store, yields nothing itself, and makes the calls the
    outcome is made of, a started request being finished at once. *)
Lemma sequential_request_outcome E p m a w :
  ∃ tr,
    _sequential_request E p m a w
    = (Ok (call_outcome E w (p, m, a)).1, (call_outcome E w (p, m, a)).2, tr)
    ∧ yields tr = []
    ∧ method_calls tr = (if is_two_stage w p then [] else [(p, m, a)])
    ∧ make_request_calls tr = (if is_two_stage w p then [(p, m, a)] else [])
    ∧ (finish_calls tr).*1 = (start_request_calls tr).*1
    ∧ same_objects w (call_outcome E w (p, m, a)).2.
Proof.
  destruct (is_two_stage w p) eqn:Hp.
  2: { rewrite sequential_request_other by done.
       unfold call_outcome, is_two_stage in *. simpl.
       exists [EvCall p m a].
       assert (same_objects w (World (heap w) (S (clock w)))) as Hsame.
       { intros q. apply same_object_refl. }
       destruct (heap w !! p) as [[px| |]|]; try done;
         by destruct (obj_call E p m a (clock w)). }
  unfold _sequential_request, try_except, get_world in *.
  rewrite (bind_ok_nil _ _ w w w) by done. rewrite Hp.
  unfold call_outcome, is_two_stage in *. simpl.
  destruct (heap w !! p) as [[px| |]|] eqn:Hpx; try done.
  unfold TwoStageServerProxy.request.
  pose proof (make_request_run E p m a w px Hpx) as Hmk.
  destruct (xml_dumps E a m (encoding px) (allow_none px)) as [e|body] eqn:Hdumps.
  { erewrite bind_raise by done. exists [EvMakeRequest p m a].
    split_and!; try done; intros q; apply same_object_refl. }
  assert (same_objects w (after_start w p px)) as Hsame.
  { intros q. unfold after_start. simpl. destruct (decide (p = q)) as [<-|Hne].
    - rewrite lookup_insert_eq, Hpx. by destruct px.
    - rewrite lookup_insert_ne by done. apply same_object_refl. }
  erewrite bind_ok by exact Hmk.
  pose proof (proxy_start_request_run E p px body w Hpx) as Hst.
  unfold exchange_outcome.
  destruct (make_connection E p (host px) (S (t_seq (transport px)))) as [e|h].
  { erewrite bind_ok by exact Hst. unfold TwoStageServerProxy.finish_request, emit.
    munfold. simpl. eexists. split; [done|]. by split_and!. }
  destruct (net_send E h (host px) (handler px) body) as [e|].
  { erewrite bind_ok by exact Hst. unfold TwoStageServerProxy.finish_request, emit.
    munfold. simpl. eexists. split; [done|].
    destruct (close_unless_Fault_calls p e) as (Hy & Hc & Hm & Hs & Hf).
    unfold yields, method_calls, make_request_calls, start_request_calls,
      finish_calls in *. simpl.
    rewrite !omap_app, Hy, Hc, Hm, Hs, Hf. by split_and!. }
  erewrite bind_ok by exact Hst.
  pose proof (proxy_finish_request_run E p (advance_seq px) h (verbose px)
                (after_start w p px) (after_start_lookup w p px)) as Hfin.
  simpl in Hfin. rewrite Hfin.
  destruct (conn_getresponse E h) as [e|[status rb]].
  { eexists. split; [done|].
    destruct (close_unless_Fault_calls p e) as (Hy & Hc & Hm & Hs & Hf).
    simpl. by rewrite Hy, Hc, Hm, Hs, Hf. }
  case_bool_decide.
  2: { eexists. split; [done|]. by split_and!. }
  destruct (xml_parse_response E rb) as [e|items].
  { eexists. split; [done|].
    destruct (close_unless_Fault_calls p e) as (Hy & Hc & Hm & Hs & Hf).
    simpl. by rewrite Hy, Hc, Hm, Hs, Hf. }
  eexists. split; [done|]. by split_and!.
Qed.

Lemma two_stage_jobs_same_objects w w' jobs :
  same_objects w w' → two_stage_jobs w' jobs = two_stage_jobs w jobs.
Proof.
  intros Hsame. unfold two_stage_jobs.
  induction jobs as [|j jobs IH]; [done|].
  rewrite !filter_cons, IH, (same_objects_two_stage w w') by done. done.
Qed.

Lemma other_jobs_same_objects w w' jobs :
  same_objects w w' → other_jobs w' jobs = other_jobs w jobs.
Proof.
  intros Hsame. unfold other_jobs.
  induction jobs as [|j jobs IH]; [done|].
  rewrite !filter_cons, IH, (same_objects_two_stage w w') by done. done.
Qed.

(** [RunSequentialJobs] yields the outcomes of the jobs, and makes the
    calls of the jobs in their order. *)
Lemma RunSequentialJobs_outcomes E jobs :
  ∀ w, ∃ w' tr,
    RunSequentialJobs E jobs w = (Ok tt, w', tr)
    ∧ yields tr = outcomes E w jobs
    ∧ method_calls tr = other_jobs w jobs
    ∧ make_request_calls tr = two_stage_jobs w jobs
    ∧ (finish_calls tr).*1 = (start_request_calls tr).*1.
Proof.
  induction jobs as [|[[p m] a] jobs IH]; intros w.
  { exists w, []. by split_and!. }
  destruct (sequential_request_outcome E p m a w)
    as (t1 & Hr & Hy & Hc & Hm & Hf & Hsame).
  set (r := (call_outcome E w (p, m, a)).1) in *.
  set (w1 := (call_outcome E w (p, m, a)).2) in *.
  destruct (IH w1) as (w2 & t2 & Hrest & Hy2 & Hc2 & Hm2 & Hf2).
  exists w2, ((t1 ++ [EvYield r]) ++ t2).
  split.
  { unfold RunSequentialJobs in *. simpl.
    erewrite bind_ok; [by rewrite Hrest|].
    by erewrite bind_ok by done. }
  rewrite (other_jobs_same_objects w w1) in Hc2 by done.
  rewrite (two_stage_jobs_same_objects w w1) in Hm2 by done.
  rewrite !yields_app, !method_calls_app, !make_request_calls_app,
    !finish_calls_app, !start_request_calls_app, !fmap_app.
  rewrite Hy, Hy2, Hc, Hc2, Hm, Hm2, Hf, Hf2. simpl.
  fold r w1. split_and!; [done| |  |done].
  - unfold other_jobs. rewrite filter_cons. simpl.
    destruct (is_two_stage w p); by simpl.
  - unfold two_stage_jobs. rewrite filter_cons. simpl.
    destruct (is_two_stage w p); by simpl.
Qed.

(** * Main theorems *)

(** C1, at the input on which it fails: when no job of the batch names a
    [TwoStageServerProxy] (the empty batch included), the generator raises
    [NameError] at its first step; it yields no result and the fallback is
    never called. *)
Theorem RunTwoStageJobs_without_two_stage_jobs E jobs fallback w :
  Forall (λ j : job, is_two_stage w j.1.1 = false) jobs →
  RunTwoStageJobs E jobs fallback w
  = (Raise (NameError "global name 'proxies' is not defined"), w, []).
Proof.
  intros Hjobs. rewrite RunTwoStageJobs_unfold.
  rewrite bool_decide_eq_true_2; [done|].
  unfold two_stage_jobs.
  induction Hjobs as [|j jobs Hj _ IH]; [done|].
  rewrite filter_cons_False; [done|]. rewrite Hj. by intros [].
Qed.

Lemma RunTwoStageJobs_without_two_stage_jobs_witness :
  Forall (λ j : job, is_two_stage (Demo.two_stage_world [] 1) j.1.1 = false)
         [(0, "ping", PTuple [])]
  ∧ RunTwoStageJobs (Demo.env [] Demo.all_ready Demo.in_order)
      [(0, "ping", PTuple [])] Fn_RunSequentialJobs (Demo.two_stage_world [] 1)
    = (Raise (NameError "global name 'proxies' is not defined"),
       Demo.two_stage_world [] 1, []).
Proof.
  split.
  - repeat constructor.
  - apply RunTwoStageJobs_without_two_stage_jobs. repeat constructor.
Defined.

(** C2, with the keys compared the way the dictionary [formats] compares
    them (Python's [==], under which [1], [1.0] and [True] are one key): in
    every run of [RunTwoStageJobs], [make_request] is called at most once
    for a class of equal keys [(method, args, request format)], and only by
    the proxy of the first job of the batch with such a key, for that job's
    method and arguments.  When the argument lists of the two-stage jobs
    are hashable and accepted by [xmlrpclib.dumps], it is called for
    exactly the classes of the batch, and every two-stage job is started,
    in order, with the body returned by the call for its class: those
    bytes encode the arguments of the first job of the class, also where
    the job's own arguments would be encoded differently. *)
Theorem payload_built_once_per_format_key E jobs fallback w o w' tr :
  (∀ d, dict_items E d ≡ₚ d) →
  RunTwoStageJobs E jobs fallback w = (o, w', tr) →
  (NoDup (key_class w <$> make_request_calls tr)
   ∧ ∀ c, c ∈ make_request_calls tr → first_of_key w (two_stage_jobs w jobs) c)
  ∧ (Forall (λ j : job, hashable j.2 = true) (two_stage_jobs w jobs) →
     Forall (λ j : job, ∃ body, dumps_key E (key_of w j) = inr body)
            (two_stage_jobs w jobs) →
     (∀ k, k ∈ key_class w <$> make_request_calls tr
           ↔ k ∈ key_class w <$> two_stage_jobs w jobs)
     ∧ Forall2 (λ (j : job) (s : ref * string),
                  s.1 = j.1.1
                  ∧ ∃ c, c ∈ make_request_calls tr
                         ∧ key_class w c = key_class w j
                         ∧ dumps_key E (key_of w c) = inr s.2)
               (two_stage_jobs w jobs) (start_request_calls tr)).
Proof.
  intros Hperm Hrun.
  assert (∀ started w1 t1 t2,
            start_phase E (two_stage_jobs w jobs) w = (Ok started, w1, t1) →
            finish_phase E fallback (other_jobs w jobs) started w1 = (o, w', t2) →
            make_request_calls (t1 ++ t2) = make_request_calls t1
            ∧ start_request_calls (t1 ++ t2) = start_request_calls t1) as Hrest.
  { intros started w1 t1 t2 Hstart Hfin.
    apply emits_start_phase in Hstart as (_ & _ & Hw1).
    apply finish_phase_calls in Hfin as [Hmk Hst].
    2: { eapply Forall_impl; [apply other_jobs_Forall|]. intros j Hj. simpl in *.
         by rewrite (same_objects_two_stage w w1). }
    by rewrite make_request_calls_app, start_request_calls_app, Hmk, Hst, !app_nil_r. }
  apply RunTwoStageJobs_run in Hrun
    as [(Hnil & _ & _ & ->)|[(_ & e & Hstart & _)
        |(_ & started & w1 & t1 & t2 & Hstart & Hfin & ->)]].
  - rewrite Hnil. split; [split; [apply NoDup_nil_2|by intros c ?%elem_of_nil]|].
    intros _ _. split; [done|constructor].
  - split; [by eapply start_phase_calls, Hstart; [|apply two_stage_jobs_Forall]|].
    intros Hhash Hdumps.
    destruct (start_phase_run E (two_stage_jobs w jobs) w Hperm
                (two_stage_jobs_Forall w jobs) Hhash Hdumps)
      as (started & w1 & t1 & Hstart' & _).
    congruence.
  - destruct (Hrest _ _ _ _ Hstart Hfin) as [-> ->].
    split; [by eapply start_phase_calls, Hstart; [|apply two_stage_jobs_Forall]|].
    intros Hhash Hdumps.
    destruct (start_phase_run E (two_stage_jobs w jobs) w Hperm
                (two_stage_jobs_Forall w jobs) Hhash Hdumps)
      as (started' & w1' & t1' & Hstart' & _ & _ & Hkeys & _ & Hstarts).
    rewrite Hstart in Hstart'. by injection Hstart' as <- <- <-.
Qed.

Lemma payload_built_once_per_format_key_witness :
  let E := Demo.env ["a"; "b"; "c"] Demo.all_ready Demo.in_order in
  let w := Demo.two_stage_world ["a"; "b"; "c"] 0 in
  let j0 : job := (0, "add", PTuple [PInt 1]) in
  let j1 : job := (1, "add", PTuple [PFloat (FFinite false 1 0)]) in
  let j2 : job := (2, "add", PTuple [PBool true]) in
  ∃ o w' tr,
    RunTwoStageJobs E [j0; j1; j2] Fn_RunSequentialJobs w = (o, w', tr)
    ∧ make_request_calls tr = [j0]
    ∧ start_request_calls tr = [(0, "add(int)"); (1, "add(int)"); (2, "add(int)")]
    ∧ dumps_key E (key_of w j1) = inr "add(double)"
    ∧ dumps_key E (key_of w j2) = inr "add(boolean)"
    ∧ NoDup (key_class w <$> make_request_calls tr)
    ∧ (∀ c, c ∈ make_request_calls tr → first_of_key w (two_stage_jobs w [j0; j1; j2]) c)
    ∧ (∀ k, k ∈ key_class w <$> make_request_calls tr
            ↔ k ∈ key_class w <$> two_stage_jobs w [j0; j1; j2]).
Proof.
  intros E w j0 j1 j2.
  assert (∃ o w' tr,
            RunTwoStageJobs E [j0; j1; j2] Fn_RunSequentialJobs w = (o, w', tr)
            ∧ make_request_calls tr = [j0]
            ∧ start_request_calls tr
              = [(0, "add(int)"); (1, "add(int)"); (2, "add(int)")])
    as (o & w' & tr & Hrun & Hmk & Hst).
  { eexists _, _, _. split; [vm_compute; reflexivity|]. split; reflexivity. }
  exists o, w', tr.
  assert (∀ d, dict_items E d ≡ₚ d) as Hperm by (intros d; reflexivity).
  destruct (payload_built_once_per_format_key E [j0; j1; j2] Fn_RunSequentialJobs
              w o w' tr Hperm Hrun) as [[Hnd Hin] Hexact].
  destruct Hexact as [Hkeys _].
  - repeat constructor.
  - repeat constructor; eexists; reflexivity.
  - by split_and!.
Defined.

(** C3: in a batch that has jobs of both kinds, whenever the start phase
    completes, the events of the generator are those of the start phase
    (which yields nothing), then one complete run of the fallback over the
    other jobs, then the poll loop and the final loop, where every yield is
    the result of a [finish_request] on a started request.  So every
    result of the fallback is yielded before the first [select] and before
    any result of a pipelined job, and the pipeline part is empty unless
    the fallback ran to completion. *)
Theorem fallback_results_before_pipelined E jobs fallback w o w' tr :
  two_stage_jobs w jobs ≠ [] →
  other_jobs w jobs ≠ [] →
  RunTwoStageJobs E jobs fallback w = (o, w', tr) →
  (∃ e, start_phase E (two_stage_jobs w jobs) w = (Raise e, w', tr)
        ∧ o = Raise e ∧ yields tr = [])
  ∨ ∃ started w1 tr_start ofb w2 tr_fb tr_pipe,
      start_phase E (two_stage_jobs w jobs) w = (Ok started, w1, tr_start)
      ∧ call_fallback E fallback (other_jobs w jobs) w1 = (ofb, w2, tr_fb)
      ∧ tr = tr_start ++ tr_fb ++ tr_pipe
      ∧ Forall (λ ev, is_start_event ev = true) tr_start
      ∧ Forall (λ ev, is_fallback_event ev = true) tr_fb
      ∧ pipeline_trace started tr_pipe
      ∧ (ofb ≠ Ok tt → tr_pipe = [])
      ∧ yields tr = yields tr_fb ++ yields tr_pipe.
Proof.
  intros Hts Hothers
    [(? & _)|[(_ & e & Hstart & ->)
      |(_ & started & w1 & t1 & t2 & Hstart & Hfin & ->)]]%RunTwoStageJobs_run;
    [done| |].
  - left. exists e. split_and!; [done..|].
    apply emits_start_phase in Hstart as (Ht & _).
    clear -Ht. induction Ht as [|ev t Hev _ IH]; [done|]. by destruct ev.
  - right. pose proof Hstart as (Ht1 & _ & Hw1)%emits_start_phase.
    apply finish_phase_run in Hfin
      as (ofb & w2 & tr_fb & tr_poll & tr_drain & Hfb & -> & [_ Hfbev] & _
          & Hpoll & _ & Hdrain & _ & Hraise & _).
    2: { eapply Forall_impl; [apply other_jobs_Forall|]. intros j Hj. simpl in *.
         by rewrite (same_objects_two_stage w w1). }
    rewrite bool_decide_eq_false_2 in Hfb by done.
    exists started, w1, t1, ofb, w2, tr_fb, (tr_poll ++ tr_drain).
    split_and!; [done..|by apply pipeline_trace_app| |].
    + intros Hofb. by destruct (Hraise Hofb) as (_ & -> & ->).
    + rewrite !yields_app.
      assert (yields t1 = []) as ->; [|done].
      clear -Ht1. induction Ht1 as [|ev t Hev _ IH]; [done|]. by destruct ev.
Qed.

Lemma fallback_results_before_pipelined_witness :
  let E := Demo.env ["a"; "b"] Demo.all_ready Demo.in_order in
  let w := Demo.two_stage_world ["a"; "b"] 1 in
  let jobs := [(0, "ping", PTuple []); (2, "ping", PTuple []); (1, "ping", PTuple [])] in
  ∃ o w' tr,
    RunTwoStageJobs E jobs Fn_RunSequentialJobs w = (o, w', tr)
    ∧ yields tr = [(PStr "ping", None); (PStr "b", None); (PStr "a", None)]
    ∧ ((∃ e, start_phase E (two_stage_jobs w jobs) w = (Raise e, w', tr)
             ∧ o = Raise e ∧ yields tr = [])
       ∨ ∃ started w1 tr_start ofb w2 tr_fb tr_pipe,
           start_phase E (two_stage_jobs w jobs) w = (Ok started, w1, tr_start)
           ∧ call_fallback E Fn_RunSequentialJobs (other_jobs w jobs) w1 = (ofb, w2, tr_fb)
           ∧ tr = tr_start ++ tr_fb ++ tr_pipe
           ∧ Forall (λ ev, is_start_event ev = true) tr_start
           ∧ Forall (λ ev, is_fallback_event ev = true) tr_fb
           ∧ pipeline_trace started tr_pipe
           ∧ (ofb ≠ Ok tt → tr_pipe = [])
           ∧ yields tr = yields tr_fb ++ yields tr_pipe).
Proof.
  intros E w jobs. eexists _, _, _.
  split; [vm_compute; reflexivity|]. split; [reflexivity|].
  apply (fallback_results_before_pipelined E jobs Fn_RunSequentialJobs w).
  - discriminate.
  - discriminate.
  - vm_compute; reflexivity.
Defined.

(** C4, counterexample: two jobs, the connection of the first is refused.
    The generator completes and yields the error of the first job once,
    but only after the [select] of the poll loop and after the result of
    the second job. *)
Lemma failed_start_waits_for_poll_loop :
  let E := Demo.env ["down"; "a"] Demo.all_ready Demo.in_order in
  let w := Demo.two_stage_world ["down"; "a"] 0 in
  let e := IOError "[Errno 111] Connection refused" in
  ∃ w' tr,
    RunTwoStageJobs E [(0, "ping", PTuple []); (1, "ping", PTuple [])]
      Fn_RunSequentialJobs w = (Ok tt, w', tr)
    ∧ yields tr = [(PStr "a", None); (PNone, Some e)]
    ∧ failed_results tr = [(0, e, Some (PNone, Some e))]
    ∧ ¬ yielded_before_poll tr 0 e.
Proof.
  intros E w e. eexists _, _.
  split; [vm_compute; reflexivity|].
  split; [reflexivity|]. split; [reflexivity|].
  intros (tr1 & tr2 & Heq & Hsel).
  repeat (destruct tr1 as [|? tr1]; simplify_eq/=).
  repeat match goal with H : Forall _ (_ :: _) |- _ => inversion_clear H end.
  done.
Qed.

(** C4, amended: a start that raises comes back as the exception object.
    On a batch whose run completes (no proxy named twice, hashable and
    encodable argument lists, a fallback that serves the other jobs, a
    [select] that keeps returning ready descriptors) the events are those
    of the start phase, the fallback, the poll loop and the final loop, in
    this order.  Every recorded pair is passed to [finish_request] exactly
    once, and its result is yielded right after.  The poll loop finishes
    only pairs that hold a descriptor, each once, and all of them when no
    two started requests share a descriptor.  The final loop finishes the
    pairs the poll loop did not, in the order in which they were started,
    and performs no [select]: every pair whose state is an exception
    object is finished there, and [(None, exc)] is yielded for it. *)
Theorem failed_start_yielded_in_final_loop E jobs fallback w :
  (∀ d, dict_items E d ≡ₚ d) →
  select_responsive E →
  two_stage_jobs w jobs ≠ [] →
  Forall (λ j : job, hashable j.2 = true) (two_stage_jobs w jobs) →
  Forall (λ j : job, ∃ body, dumps_key E (key_of w j) = inr body)
         (two_stage_jobs w jobs) →
  NoDup ((λ j : job, j.1.1) <$> two_stage_jobs w jobs) →
  fallback_completes E fallback (other_jobs w jobs) →
  (∀ p px body w0 e w1 t1,
     heap w0 !! p = Some (OTwoStage px) →
     TwoStageTransport.start_request E p (host px) (handler px) body (verbose px) w0
       = (Raise e, w1, t1) →
     TwoStageServerProxy.start_request E p body w0
       = (Ok (StExc e), w1, EvStartRequest p body :: t1))
  ∧ ∃ w' tr started w1 tr_start tr_fb tr_poll tr_drain,
      RunTwoStageJobs E jobs fallback w = (Ok tt, w', tr)
      ∧ start_phase E (two_stage_jobs w jobs) w = (Ok started, w1, tr_start)
      ∧ Forall2 (started_by E) (two_stage_jobs w jobs) started
      ∧ tr = tr_start ++ tr_fb ++ tr_poll ++ tr_drain
      ∧ finish_calls tr_start = [] ∧ finish_calls tr_fb = []
      ∧ pipeline_trace started tr_poll
      ∧ pipeline_trace started tr_drain
      ∧ NoDup (finish_calls tr_poll)
      ∧ (∀ pr, pr ∈ finish_calls tr_poll → pr ∈ started ∧ is_Some (sockfd_of E pr))
      ∧ (distinct_sockets E started →
         ∀ pr, pr ∈ started → is_Some (sockfd_of E pr) → pr ∈ finish_calls tr_poll)
      ∧ finish_calls tr_drain = filter (λ pr, pr ∉ finish_calls tr_poll) started
      ∧ finish_calls tr ≡ₚ started
      ∧ no_failed_finish (tr_start ++ tr_fb ++ tr_poll)
      ∧ Forall (λ ev, is_select ev = false) tr_drain
      ∧ failed_results tr_drain
        = (λ pe : ref * exn, (pe.1, pe.2, Some (PNone, Some pe.2))) <$> failed started
      ∧ failed_results tr = failed_results tr_drain.
Proof.
  intros Hperm Hsel Hts Hhash Hdumps Hnd Hfb. split.
  { intros p px body w0 e w1 t1. apply start_request_sentinel. }
  destruct (RunTwoStageJobs_completes E jobs fallback w) as (w' & tr & Hrun & _);
    [done..|].
  exists w', tr.
  pose proof Hrun as [(_ & ? & _)|[(_ & e & _ & ?)
        |(_ & started & w1 & t1 & t2 & Hstart & Hfin & ->)]]%RunTwoStageJobs_run;
    [done..|].
  pose proof Hstart as Hstarted%start_phase_started.
  pose proof Hstart as (Ht1 & _ & Hw1)%emits_start_phase.
  assert (NoDup started) as Hnd'.
  { apply (NoDup_fmap_1 fst).
    replace (started.*1) with ((λ j : job, j.1.1) <$> two_stage_jobs w jobs); [done|].
    clear -Hstarted. induction Hstarted as [|j pr tsjs started [Hpr _] _ IH]; [done|].
    by rewrite !fmap_cons, IH, Hpr. }
  apply finish_phase_order in Hfin
    as (tr_fb & tr_poll & tr_drain & -> & Hfbev & Hpoll & Hnf & Hdrain & Hsel'
        & Hfailed & Hfb0 & Hdr & Hpolled & Hndp & Hall); [|  |done].
  2: { eapply Forall_impl; [apply other_jobs_Forall|]. intros j Hj. simpl in *.
       by rewrite (same_objects_two_stage w w1). }
  assert (finish_calls t1 = []) as Ht0.
  { apply no_finish_calls. eapply Forall_impl; [exact Ht1|]. by intros []. }
  assert (no_failed_finish (t1 ++ tr_fb ++ tr_poll)) as Hbefore.
  { unfold no_failed_finish in *. rewrite !Forall_app. split_and!; [|  |done].
    - by apply no_failed_finish_start.
    - eapply Forall_impl; [done|]. by intros []. }
  exists started, w1, t1, tr_fb, tr_poll, tr_drain.
  split_and!; try done.
  - rewrite !finish_calls_app, Ht0, Hfb0, Hdr. simpl.
    clear -Hpolled Hndp Hnd'.
    apply NoDup_Permutation; [|done|].
    + apply NoDup_app. split_and!; [done| |by apply NoDup_filter].
      intros pr Hin [Hnot _]%list_elem_of_filter. by apply Hnot.
    + intros pr. rewrite elem_of_app, list_elem_of_filter.
      destruct (decide (pr ∈ finish_calls tr_poll)) as [Hin|Hin]; [|naive_solver].
      destruct (Hpolled pr Hin). naive_solver.
  - rewrite (app_assoc tr_fb tr_poll tr_drain), (app_assoc t1).
    by apply failed_results_app.
Qed.

Lemma failed_start_yielded_in_final_loop_witness :
  let E := Demo.env ["down"; "a"] Demo.all_ready Demo.in_order in
  let w := Demo.two_stage_world ["down"; "a"] 0 in
  let jobs := [(0, "ping", PTuple []); (1, "ping", PTuple [])] in
  let e := IOError "[Errno 111] Connection refused" in
  ∃ w' tr started w1 tr_start tr_fb tr_poll tr_drain,
    RunTwoStageJobs E jobs Fn_RunSequentialJobs w = (Ok tt, w', tr)
    ∧ start_phase E (two_stage_jobs w jobs) w = (Ok started, w1, tr_start)
    ∧ started = [(0, StExc e); (1, StHandle (101, 0%Z, 1))]
    ∧ Forall2 (started_by E) (two_stage_jobs w jobs) started
    ∧ tr = tr_start ++ tr_fb ++ tr_poll ++ tr_drain
    ∧ finish_calls tr_start = [] ∧ finish_calls tr_fb = []
    ∧ pipeline_trace started tr_poll
    ∧ pipeline_trace started tr_drain
    ∧ NoDup (finish_calls tr_poll)
    ∧ (∀ pr, pr ∈ finish_calls tr_poll → pr ∈ started ∧ is_Some (sockfd_of E pr))
    ∧ distinct_sockets E started
    ∧ (∀ pr, pr ∈ started → is_Some (sockfd_of E pr) → pr ∈ finish_calls tr_poll)
    ∧ finish_calls tr_drain = filter (λ pr, pr ∉ finish_calls tr_poll) started
    ∧ finish_calls tr ≡ₚ started
    ∧ no_failed_finish (tr_start ++ tr_fb ++ tr_poll)
    ∧ Forall (λ ev, is_select ev = false) tr_drain
    ∧ failed_results tr_drain
      = (λ pe : ref * exn, (pe.1, pe.2, Some (PNone, Some pe.2))) <$> failed started
    ∧ failed_results tr = failed_results tr_drain.
Proof.
  intros E w jobs e.
  destruct (failed_start_yielded_in_final_loop E jobs Fn_RunSequentialJobs w)
    as [_ (w' & tr & started & w1 & tr_start & tr_fb & tr_poll & tr_drain
           & Hrun & Hstart & Hby & Htr & Hs0 & Hf0 & Hpoll & Hdrain & Hnd & Hin
           & Hall & Hrest)].
  - intros d. reflexivity.
  - apply Demo_select_responsive.
  - discriminate.
  - repeat constructor.
  - repeat constructor; eexists; reflexivity.
  - change (NoDup [0; 1]). apply NoDup_cons. split; [|apply NoDup_singleton].
    by intros ?%list_elem_of_singleton.
  - apply RunSequentialJobs_completes.
  - assert (started = [(0, StExc e); (1, StHandle (101, 0%Z, 1))]) as Hstarted.
    { vm_compute in Hstart. by injection Hstart as <- _ _. }
    assert (distinct_sockets E started) as Hdist.
    { rewrite Hstarted. intros pr1 pr2 fd Hpr1 Hpr2 Hfd1 Hfd2.
      apply elem_of_cons in Hpr1 as [->|Hpr1]; [done|].
      apply elem_of_cons in Hpr2 as [->|Hpr2]; [done|].
      apply list_elem_of_singleton in Hpr1, Hpr2. congruence. }
    exists w', tr, started, w1, tr_start, tr_fb, tr_poll, tr_drain.
    destruct Hrest as (Hd & Hp & Hnf & Hsel & Hfr & Hfr').
    split_and!; try done. by apply Hall.
Defined.

(** Where two connections report the same descriptor, [socklist] keeps the
    later request only: the earlier one is left to the final loop, where
    it is finished in the order of the starts, here after the job whose
    start failed. *)
Lemma shared_descriptor_finished_in_final_loop :
  let D := Demo.env ["down"; "a"; "b"] Demo.all_ready Demo.in_order in
  let E := MkEnv (xml_dumps D) (make_connection D) (net_send D) (λ h, Some 7)
             (conn_getresponse D) (xml_parse_response D) (sys_select D) (set_iter D)
             (dict_items D) (obj_call D) (thread_schedule D) (splittype D)
             (splithost D) (ServerProxy_init D) in
  let w := Demo.two_stage_world ["down"; "a"; "b"] 0 in
  let e := IOError "[Errno 111] Connection refused" in
  ∃ w' tr,
    RunTwoStageJobs E [(0, "ping", PTuple []); (1, "ping", PTuple []); (2, "ping", PTuple [])]
      Fn_RunSequentialJobs w = (Ok tt, w', tr)
    ∧ yields tr = [(PStr "b", None); (PNone, Some e); (PStr "a", None)].
Proof.
  intros D E w e. eexists _, _. split; [vm_compute; reflexivity|reflexivity].
Qed.

(** A fault in a 200 response comes back as the [Fault] the parser raised,
    and the connection is left open. *)
Lemma finish_request_fault E p px h v body c s w :
  heap w !! p = Some (OTwoStage px) →
  conn_getresponse E h = inr (200%Z, body) →
  xml_parse_response E body = inl (Fault c s) →
  TwoStageServerProxy.finish_request E p (StHandle (h, v, t_seq (transport px))) w
  = (Ok (PNone, Some (Fault c s)), w,
     [EvFinishRequest p (StHandle (h, v, t_seq (transport px)))]).
Proof.
  intros Hp Hresp Hparse. munfold; simpl.
  rewrite Hp; simpl. rewrite bool_decide_eq_true_2 by done. simpl.
  rewrite Hresp; simpl. by rewrite Hparse.
Qed.

(** C5, at the input on which it fails: for a handle with the current
    token whose response has a status other than 200,
    [TwoStageTransport.finish_request] raises nothing and closes nothing:
    it returns [None].  [TwoStageServerProxy.finish_request] then fails on
    [len(None)] and returns that [TypeError] as the error of the pair. *)
Theorem finish_request_non_200_status E p px h v status body w :
  heap w !! p = Some (OTwoStage px) →
  conn_getresponse E h = inr (status, body) →
  status ≠ 200%Z →
  TwoStageTransport.finish_request E p (h, v, t_seq (transport px)) w
  = (Ok PNone, w, [])
  ∧ TwoStageServerProxy.finish_request E p (StHandle (h, v, t_seq (transport px))) w
    = (Ok (PNone, Some (TypeError "object of type 'NoneType' has no len()")), w,
       [EvFinishRequest p (StHandle (h, v, t_seq (transport px)))]).
Proof.
  intros Hp Hresp Hstatus. munfold; simpl.
  rewrite Hp; simpl. rewrite bool_decide_eq_true_2 by done. simpl.
  rewrite Hresp; simpl. by rewrite bool_decide_eq_false_2 by done.
Qed.

Lemma finish_request_non_200_status_witness :
  let E := Demo.env ["missing"] Demo.all_ready Demo.in_order in
  let w := Demo.two_stage_world ["missing"] 0 in
  TwoStageTransport.finish_request E 0 (1, 0%Z, 0) w = (Ok PNone, w, [])
  ∧ TwoStageServerProxy.finish_request E 0 (StHandle (1, 0%Z, 0)) w
    = (Ok (PNone, Some (TypeError "object of type 'NoneType' has no len()")), w,
       [EvFinishRequest 0 (StHandle (1, 0%Z, 0))]).
Proof.
  intros E w.
  apply (finish_request_non_200_status E 0
           (MkProxy (Some "missing") "/" (MkTransport 0) None 0 0) 1 0%Z
           404%Z "Not Found" w).
  - reflexivity.
  - reflexivity.
  - discriminate.
Defined.

(** A handle whose token is not the transport's current one is detected by
    both methods of the transport; [TwoStageServerProxy.finish_request]
    turns the assertion into the error of its pair, while
    [TwoStageServerProxy.get_sockfd] lets it through. *)
Lemma stale_handle_detected E p px h v seq w :
  heap w !! p = Some (OTwoStage px) →
  seq ≠ t_seq (transport px) →
  TwoStageTransport.get_sockfd E p (h, v, seq) w = (Raise AssertionError, w, [])
  ∧ TwoStageTransport.finish_request E p (h, v, seq) w = (Raise AssertionError, w, [])
  ∧ TwoStageServerProxy.get_sockfd E p (StHandle (h, v, seq)) w
    = (Raise AssertionError, w, [])
  ∧ TwoStageServerProxy.finish_request E p (StHandle (h, v, seq)) w
    = (Ok (PNone, Some AssertionError), w, [EvFinishRequest p (StHandle (h, v, seq))]).
Proof.
  intros Hp Hseq. munfold; simpl.
  rewrite Hp; simpl. by rewrite bool_decide_eq_false_2 by done.
Qed.

(** C6, on the inputs on which it fails: once the start phase has recorded
    a handle whose token is no longer the current one of its transport (as
    happens when a batch names the same [TwoStageServerProxy] twice: the
    second start moves the token on), the [get_sockfd] call made while the
    descriptors are collected raises out of the generator.  The run does
    not complete, no recorded request is ever finished, and when the
    batch has no other jobs the outcome is [AssertionError] with nothing
    yielded for any job. *)
Theorem stale_handle_aborts_batch E jobs fallback w started w1 tr_start o w' tr :
  start_phase E (two_stage_jobs w jobs) w = (Ok started, w1, tr_start) →
  Exists (λ pr, ¬ handle_current w1 pr) started →
  RunTwoStageJobs E jobs fallback w = (o, w', tr) →
  o ≠ Ok tt
  ∧ Forall (λ ev, is_start_event ev = true ∨ is_fallback_event ev = true) tr
  ∧ (other_jobs w jobs = [] → o = Raise AssertionError ∧ yields tr = []).
Proof.
  intros Hstart Hex
    [(Hnil & _)|[(_ & e & Hstart' & _)
      |(_ & started' & w1' & t1 & t2 & Hstart' & Hfin & ->)]]%RunTwoStageJobs_run.
  - apply start_phase_started in Hstart. rewrite Hnil in Hstart.
    apply Forall2_nil_inv_l in Hstart as ->. by apply Exists_nil in Hex.
  - congruence.
  - rewrite Hstart in Hstart'. injection Hstart' as <- <- <-.
    pose proof Hstart as Hstarted%start_phase_started%started_by_proxies.
    pose proof Hstart as (Ht1 & _ & Hw1)%emits_start_phase.
    apply finish_phase_stale in Hfin as (Ho & Ht2 & Hnone); [| |  |done].
    + split_and!; [done| |].
      * apply Forall_app. split; (eapply Forall_impl; [done|]); naive_solver.
      * intros Hn. destruct (Hnone Hn) as [-> ->]. split; [done|].
        rewrite app_nil_r. clear -Ht1.
        induction Ht1 as [|ev t Hev _ IH]; [done|]. by destruct ev.
    + eapply Forall_impl; [apply other_jobs_Forall|]. intros j Hj. simpl in *.
      by rewrite (same_objects_two_stage w w1).
    + apply Forall_forall. intros pr Hpr.
      assert (pr.1 ∈ started.*1) as Hin by (apply list_elem_of_fmap; by exists pr).
      rewrite Hstarted in Hin. apply list_elem_of_fmap in Hin as (j & -> & Hj).
      rewrite (same_objects_two_stage w w1) by done.
      pose proof (two_stage_jobs_Forall w jobs) as Hts.
      by eapply Forall_forall in Hts.
Qed.

Lemma stale_handle_aborts_batch_witness :
  let E := Demo.env ["a"] Demo.all_ready Demo.in_order in
  let w := Demo.two_stage_world ["a"] 0 in
  let jobs := [(0, "ping", PTuple []); (0, "ping", PTuple [])] in
  ∃ w' tr,
    RunTwoStageJobs E jobs Fn_RunSequentialJobs w = (Raise AssertionError, w', tr)
    ∧ start_request_calls tr = [(0, "ping()"); (0, "ping()")]
    ∧ yields tr = []
    ∧ Raise (A := unit) AssertionError ≠ Ok tt
    ∧ Forall (λ ev, is_start_event ev = true ∨ is_fallback_event ev = true) tr.
Proof.
  intros E w jobs. eexists _, _.
  split; [vm_compute; reflexivity|]. split; [reflexivity|]. split; [reflexivity|].
  refine (let H := stale_handle_aborts_batch E jobs Fn_RunSequentialJobs w
                     [(0, StHandle (1, 0%Z, 1)); (0, StHandle (2, 0%Z, 2))]
                     (World (<[0 := OTwoStage (MkProxy (Some "a") "/" (MkTransport 2) None 0 0)]>
                               (heap w)) 0)
                     [EvMakeRequest 0 "ping" (PTuple []);
                      EvStartRequest 0 "ping()"; EvStartRequest 0 "ping()"]
                     _ _ _ _ _ _
          in conj (proj1 H) (proj1 (proj2 H))).
  - vm_compute; reflexivity.
  - apply Exists_cons_hd. intros (px & Hpx & Hseq).
    vm_compute in Hpx. injection Hpx as <-. discriminate Hseq.
  - vm_compute; reflexivity.
Defined.

(** C7, at the input on which it fails: [_hybrid_requests] passes
    [_threaded_requests], a function of three arguments, as the fallback,
    and [RunTwoStageJobs] calls its fallback with one.  On a batch with
    proxies of both kinds the generator therefore raises, after the start
    phase, without having run or yielded anything for the other jobs. *)
Theorem hybrid_requests_mixed_batch E proxies m params w o w' tr :
  (∃ p, p ∈ proxies ∧ is_two_stage w p = true) →
  (∃ p, p ∈ proxies ∧ is_two_stage w p = false) →
  _hybrid_requests E proxies m params w = (o, w', tr) →
  (∃ e, o = Raise e)
  ∧ yields tr = []
  ∧ Forall (λ ev, is_start_event ev = true) tr
  ∧ ∀ started w1 t1,
      start_phase E (two_stage_jobs w (map (λ p, (p, m, params)) proxies)) w
        = (Ok started, w1, t1) →
      o = Raise (TypeError "_threaded_requests() takes exactly 3 arguments (1 given)").
Proof.
  intros (p1 & Hp1 & Hts1) (p2 & Hp2 & Hts2). unfold _hybrid_requests.
  set (jobs := map (λ p, (p, m, params)) proxies).
  assert (two_stage_jobs w jobs ≠ []) as Hts.
  { intros Hnil. assert ((p1, m, params) ∈ two_stage_jobs w jobs) as Hin.
    { apply list_elem_of_filter. split; [simpl; by rewrite Hts1|].
      apply list_elem_of_fmap. by exists p1. }
    rewrite Hnil in Hin. by apply elem_of_nil in Hin. }
  assert (other_jobs w jobs ≠ []) as Hothers.
  { intros Hnil. assert ((p2, m, params) ∈ other_jobs w jobs) as Hin.
    { apply list_elem_of_filter. split; [simpl; rewrite Hts2; by intros []|].
      apply list_elem_of_fmap. by exists p2. }
    rewrite Hnil in Hin. by apply elem_of_nil in Hin. }
  assert (∀ t, Forall (λ ev, is_start_event ev = true) t → yields t = []) as Hy.
  { intros t Ht. induction Ht as [|ev t Hev _ IH]; [done|]. by destruct ev. }
  intros [(? & _)|[(_ & e & Hstart & ->)
      |(_ & started & w1 & t1 & t2 & Hstart & Hfin & ->)]]%RunTwoStageJobs_run;
    [done| |].
  - pose proof Hstart as (Ht & _)%emits_start_phase.
    split_and!; [by exists e|by apply Hy|done|]. intros ???. fold jobs. congruence.
  - pose proof Hstart as (Ht & _)%emits_start_phase.
    unfold finish_phase in Hfin.
    rewrite bool_decide_eq_false_2 in Hfin by done.
    erewrite bind_raise in Hfin by done. injection Hfin as <- <- <-.
    rewrite app_nil_r. split_and!; [by eexists|by apply Hy|done|done].
Qed.

Lemma hybrid_requests_mixed_batch_witness :
  let E := Demo.env ["a"] Demo.all_ready Demo.in_order in
  let w := Demo.two_stage_world ["a"] 1 in
  _hybrid_requests E [0; 1] "ping" (PTuple []) w
  = (Raise (TypeError "_threaded_requests() takes exactly 3 arguments (1 given)"),
     World (<[0 := OTwoStage (MkProxy (Some "a") "/" (MkTransport 1) None 0 0)]> (heap w)) 0,
     [EvMakeRequest 0 "ping" (PTuple []); EvStartRequest 0 "ping()"])
  ∧ (∃ e, Raise (A := unit)
            (TypeError "_threaded_requests() takes exactly 3 arguments (1 given)")
          = Raise e)
  ∧ yields [EvMakeRequest 0 "ping" (PTuple []); EvStartRequest 0 "ping()"] = [].
Proof.
  intros E w.
  assert (_hybrid_requests E [0; 1] "ping" (PTuple []) w
          = (Raise (TypeError "_threaded_requests() takes exactly 3 arguments (1 given)"),
             World (<[0 := OTwoStage (MkProxy (Some "a") "/" (MkTransport 1) None 0 0)]> (heap w)) 0,
             [EvMakeRequest 0 "ping" (PTuple []); EvStartRequest 0 "ping()"])) as Hrun.
  { vm_compute; reflexivity. }
  split; [exact Hrun|].
  refine (let H := hybrid_requests_mixed_batch E [0; 1] "ping" (PTuple []) w _ _ _ _ _ Hrun
          in conj (proj1 H) (proj1 (proj2 H))).
  - exists 0. split; [set_solver|reflexivity].
  - exists 1. split; [set_solver|reflexivity].
Defined.

(** With [RunThreadedJobs] itself as the fallback the same batch is served:
    the other job is run by the threaded scheduler and its pair is yielded
    first. *)
Lemma threaded_fallback_mixed_batch :
  let E := Demo.env ["a"] Demo.all_ready Demo.in_order in
  let w := Demo.two_stage_world ["a"] 1 in
  ∃ w' tr,
    RunTwoStageJobs E [(0, "ping", PTuple []); (1, "ping", PTuple [])]
      Fn_RunThreadedJobs w = (Ok tt, w', tr)
    ∧ yields tr = [(PStr "ping", None); (PStr "a", None)].
Proof.
  intros E w. eexists _, _. split; [vm_compute; reflexivity|reflexivity].
Qed.

(** C8: a collaborator of the environment returns or raises, so every call
    made for a job comes back.  Then [RunSequentialJobs] returns without
    raising and yields one pair per job, in the order of the jobs: the i-th
    pair is the outcome of the i-th job as the specification describes it
    ([outcomes]: the call performed in the store the earlier jobs left, and
    the failure of any step captured as the error of that job's pair).
    The calls are performed: the method of every job on an object of
    another class is called, in order; every two-stage job is encoded by
    its own proxy, in order; and a request that is started is finished at
    once.  The i-th pair is what [_sequential_request] returns for the i-th
    job, and every pair is [(value, None)] or [(None, exc)]. *)
Theorem RunSequentialJobs_in_order E jobs w :
  ∃ w' tr,
    RunSequentialJobs E jobs w = (Ok tt, w', tr)
    ∧ length (yields tr) = length jobs
    ∧ yields tr = outcomes E w jobs
    ∧ method_calls tr = other_jobs w jobs
    ∧ make_request_calls tr = two_stage_jobs w jobs
    ∧ (finish_calls tr).*1 = (start_request_calls tr).*1
    ∧ job_results E jobs w (yields tr) w'
    ∧ Forall (λ r : result, r.2 = None ∨ r.1 = PNone) (yields tr).
Proof.
  destruct (RunSequentialJobs_run E jobs w) as (w' & tr & Hrun & Hres & _).
  destruct (RunSequentialJobs_outcomes E jobs w)
    as (w'' & tr' & Hrun' & Hout & Hcalls & Hmk & Hfin).
  rewrite Hrun in Hrun'. injection Hrun' as <- <-.
  exists w', tr. split_and!; [done|by eapply job_results_length|done..|].
  clear Hrun Hout Hcalls Hmk Hfin.
  induction Hres as [|p m a jobs w r w1 t1 rs w2 Hr _ IH]; [done|].
  constructor; [|done].
  destruct (sequential_request_total E p m a w) as (r' & w1' & t1' & Hr' & Hshape & _).
  congruence.
Qed.

(** C9, counterexample: the scheme is compared after [urllib.splittype]
    has converted it to lower case, so the constructor accepts
    [HTTP://localhost/], whose scheme is not exactly [http]; and for
    [ftp://example.org/] no class substitutes anything: the constructor of
    [xmlrpclib.ServerProxy] raises [IOError], which leaves the constructor
    of the ParallelServerProxy class. *)
Lemma uppercase_scheme_accepted_unsupported_scheme_raises :
  let E := Demo.env [] Demo.all_ready Demo.in_order in
  (∃ r w',
     TwoStageServerProxy.init E "HTTP://localhost/" default_kwargs Demo.empty_world
     = (Ok r, w', [])
     ∧ is_two_stage w' r = true)
  ∧ (∀ cls,
       psp_init E cls [SAddr "ftp://example.org/"] (MkPspKwargs None default_kwargs)
         Demo.empty_world
       = (Raise (IOError "unsupported XML-RPC protocol"), Demo.empty_world, [])).
Proof.
  intros E. split.
  - eexists _, _. split; [vm_compute; reflexivity|reflexivity].
  - intros [kind hr [|]]; vm_compute; reflexivity.
Qed.

(** C9, amended: for an address whose scheme, as [urllib.splittype] returns
    it, is not [http], [TwoStageServerProxy.__init__] raises
    [UnknownProtocolError] at once: the store is unchanged and no transport
    exists.  For such an address the loop body of every ParallelServerProxy
    class comes down to the call of [xmlrpclib.ServerProxy] on it: when
    that constructor raises, its error leaves the constructor of the class
    and no object is made for the address; a class that is built holds an
    [xmlrpclib.ServerProxy] at the position of the address.  Any other
    exception of the [TwoStageServerProxy] constructor is not caught; and
    [RunTwoStageJobs] never starts or finishes a request on an
    [xmlrpclib.ServerProxy]. *)
Theorem unknown_protocol_never_two_stage E :
  (∀ uri kw w,
     (splittype E uri).1 ≠ Some "http" →
     TwoStageServerProxy.init E uri kw w
     = (Raise (UnknownProtocolError "unsupported XML-RPC protocol"), w, []))
  ∧ (∀ tssp_lo kw s w,
       (splittype E s).1 ≠ Some "http" →
       make_proxy E tssp_lo kw (SAddr s) w = new_ServerProxy E s kw w)
  ∧ (∀ cls pre s post kwargs w proxies w1 tr e,
       psp_init E cls pre kwargs w = (Ok proxies, w1, tr) →
       (splittype E s).1 ≠ Some "http" →
       ServerProxy_init E s (kw_proxy kwargs) = Some e →
       psp_init E cls (pre ++ SAddr s :: post) kwargs w = (Raise e, w1, tr))
  ∧ (∀ cls servers kwargs w proxies w' tr i s,
       psp_init E cls servers kwargs w = (Ok proxies, w', tr) →
       servers !! i = Some (SAddr s) →
       (splittype E s).1 ≠ Some "http" →
       ServerProxy_init E s (kw_proxy kwargs) = None
       ∧ ∃ r, proxies !! i = Some r
              ∧ heap w' !! r = Some (OServerProxy s)
              ∧ is_two_stage w' r = false)
  ∧ (∀ kw s w e w1 t1,
       TwoStageServerProxy.init E s kw w = (Raise e, w1, t1) →
       (∀ msg, e ≠ UnknownProtocolError msg) →
       make_proxy E false kw (SAddr s) w = (Raise e, w1, t1))
  ∧ (∀ jobs fallback w o w' tr r s,
       heap w !! r = Some (OServerProxy s) →
       RunTwoStageJobs E jobs fallback w = (o, w', tr) →
       Forall (λ ev, multiplexed ev ≠ Some r) tr).
Proof.
  assert (∀ cls pre s post kwargs w proxies w1 tr e,
            psp_init E cls pre kwargs w = (Ok proxies, w1, tr) →
            (splittype E s).1 ≠ Some "http" →
            ServerProxy_init E s (kw_proxy kwargs) = Some e →
            psp_init E cls (pre ++ SAddr s :: post) kwargs w = (Raise e, w1, tr))
    as Hraise.
  { intros cls pre s post kwargs w proxies w1 tr e Hpre Hs He.
    unfold psp_init in *.
    erewrite make_proxies_raise; [|exact Hpre|].
    2: { rewrite make_proxy_unknown_protocol by done.
         unfold new_ServerProxy. by rewrite He. }
    by rewrite app_nil_r. }
  split_and!.
  - intros uri kw w. apply init_unknown_protocol.
  - intros tssp_lo kw s w. apply make_proxy_unknown_protocol.
  - exact Hraise.
  - intros cls servers kwargs w proxies w' tr i s Hinit Hi Hs.
    unfold psp_init in Hinit.
    apply make_proxies_run in Hinit as (new & -> & _ & Hnew).
    destruct (Hnew i s Hi Hs) as (Hnone & r & Hr & Hheap).
    split; [done|].
    exists r. split_and!; [done..|]. unfold is_two_stage. by rewrite Hheap.
  - intros kw s w e w1 t1 Hinit He. simpl.
    unfold except_UnknownProtocolError, try_except. rewrite Hinit.
    destruct e; try (unfold raise; simpl; by rewrite app_nil_r).
    exfalso. by eapply He.
  - intros jobs fallback w o w' tr r s Hr Hrun.
    apply RunTwoStageJobs_multiplexes_two_stage in Hrun.
    eapply Forall_impl; [done|]. intros ev Hev Hm. apply Hev in Hm.
    unfold is_two_stage in Hm. by rewrite Hr in Hm.
Qed.

Lemma unknown_protocol_never_two_stage_witness :
  let E := Demo.env [] Demo.all_ready Demo.in_order in
  let servers := [SAddr "http://localhost/a"; SAddr "https://localhost/b"] in
  let kwargs := MkPspKwargs None default_kwargs in
  TwoStageServerProxy.init E "https://localhost/b" default_kwargs Demo.empty_world
  = (Raise (UnknownProtocolError "unsupported XML-RPC protocol"), Demo.empty_world, [])
  ∧ (∃ proxies w' tr,
       psp_init E HybridParallelServerProxy servers kwargs Demo.empty_world
       = (Ok proxies, w', tr)
       ∧ is_two_stage w' 0 = true
       ∧ ∃ r, proxies !! 1 = Some r
              ∧ heap w' !! r = Some (OServerProxy "https://localhost/b")
              ∧ is_two_stage w' r = false)
  ∧ (∃ w1,
       psp_init E HybridParallelServerProxy (servers ++ [SAddr "gopher://localhost/"])
         kwargs Demo.empty_world
       = (Raise (IOError "unsupported XML-RPC protocol"), w1, [])).
Proof.
  intros E servers kwargs.
  pose proof (unknown_protocol_never_two_stage E) as (Hinit & _ & Hraise & Hpsp & _).
  assert (∃ proxies w' tr,
            psp_init E HybridParallelServerProxy servers kwargs Demo.empty_world
            = (Ok proxies, w', tr) ∧ is_two_stage w' 0 = true)
    as (proxies & w' & tr & Hrun & Hts).
  { eexists _, _, _. split; [vm_compute; reflexivity|reflexivity]. }
  split_and!.
  - apply Hinit. discriminate.
  - exists proxies, w', tr. split; [done|]. split; [done|].
    eapply (Hpsp HybridParallelServerProxy servers kwargs
              Demo.empty_world _ _ _ 1 "https://localhost/b").
    + exact Hrun.
    + reflexivity.
    + discriminate.
  - exists w'.
    assert (tr = []) as Htr.
    { vm_compute in Hrun. by injection Hrun as _ _ <-. }
    subst tr.
    apply (Hraise HybridParallelServerProxy servers "gopher://localhost/" [] kwargs
             Demo.empty_world proxies w' []).
    + exact Hrun.
    + discriminate.
    + reflexivity.
Defined.

(** C10: a batch that contains a two-stage job whose argument list is not
    hashable makes the generator raise [TypeError] while the [formats]
    dictionary is built: no request is encoded or started and nothing is
    yielded, for that job or any other. *)
Theorem RunTwoStageJobs_unhashable_args E jobs fallback w p m a :
  (p, m, a) ∈ jobs →
  is_two_stage w p = true →
  hashable a = false →
  RunTwoStageJobs E jobs fallback w
  = (Raise (TypeError "unhashable type: 'list'"), w, []).
Proof.
  intros Hin Hp Ha. rewrite RunTwoStageJobs_unfold.
  assert ((p, m, a) ∈ two_stage_jobs w jobs) as Hts.
  { apply list_elem_of_filter. split; [|done]. simpl. by rewrite Hp. }
  rewrite bool_decide_eq_false_2 by (intros Hnil; rewrite Hnil in Hts; inversion Hts).
  unfold start_phase.
  erewrite bind_raise; [done|]. erewrite bind_raise; [done|].
  rewrite collect_formats_run by apply two_stage_jobs_Forall.
  destruct (forallb _ _) eqn:Hall; [|done].
  rewrite forallb_forall in Hall.
  apply list_elem_of_In, Hall in Hts. simpl in Hts. congruence.
Qed.

Lemma RunTwoStageJobs_unhashable_args_witness :
  (1, "sum", PTuple [PList [PInt 1; PInt 2]])
    ∈ [(0, "sum", PTuple [PInt 1]); (1, "sum", PTuple [PList [PInt 1; PInt 2]])]
  ∧ hashable (PTuple [PList [PInt 1; PInt 2]]) = false
  ∧ RunTwoStageJobs (Demo.env ["a"; "b"] Demo.all_ready Demo.in_order)
      [(0, "sum", PTuple [PInt 1]); (1, "sum", PTuple [PList [PInt 1; PInt 2]])]
      Fn_RunSequentialJobs (Demo.two_stage_world ["a"; "b"] 0)
    = (Raise (TypeError "unhashable type: 'list'"),
       Demo.two_stage_world ["a"; "b"] 0, []).
Proof.
  assert ((1, "sum", PTuple [PList [PInt 1; PInt 2]])
    ∈ [(0, "sum", PTuple [PInt 1]); (1, "sum", PTuple [PList [PInt 1; PInt 2]])]) as Hin.
  { apply elem_of_cons. right. apply elem_of_cons. by left. }
  split; [exact Hin|]. split; [reflexivity|].
  apply (RunTwoStageJobs_unhashable_args _ _ _ _ 1 "sum"
           (PTuple [PList [PInt 1; PInt 2]])).
  - exact Hin.
  - reflexivity.
  - reflexivity.
Defined.

(** * Further properties *)

(** ** RunThreadedJobs *)

Lemma job_results_app E js1 js2 w rs1 w1 rs2 w2 :
  job_results E js1 w rs1 w1 →
  job_results E js2 w1 rs2 w2 →
  job_results E (js1 ++ js2) w (rs1 ++ rs2) w2.
Proof.
  induction 1 as [|p m a js w r w1 t1 rs w3 Hr _ IH]; intros H2; [done|].
  simpl. econstructor; [exact Hr|]. by apply IH.
Qed.

Lemma job_results_shape E jobs w rs w' :
  job_results E jobs w rs w' → Forall (λ r : result, r.2 = None ∨ r.1 = PNone) rs.
Proof.
  induction 1 as [|p m a jobs w r w1 t1 rs w2 Hr _ IH]; constructor; [|done].
  destruct (sequential_request_total E p m a w) as (r' & w1' & t1' & Hr' & Hshape & _).
  congruence.
Qed.

Lemma yields_fmap_yield rs : yields (EvYield <$> rs) = rs.
Proof. induction rs as [|r rs IH]; [done|]. simpl. f_equal. exact IH. Qed.

Lemma omap_lookup_cons (jobs : list job) k ks j :
  jobs !! k = Some j →
  omap (λ k, jobs !! k) (k :: ks) = j :: omap (λ k, jobs !! k) ks.
Proof. intros H. simpl. by rewrite H. Qed.

(** [t.join()] on a thread that is still running: the threads that complete
    before it, and the thread itself, run their jobs in completion order and
    append the results to [results]; nothing is yielded meanwhile. *)
Lemma join_loop_run E jobs i pend fin res w :
  i ∈ pend →
  NoDup pend →
  (∀ k, k ∈ pend → k ∉ fin) →
  (∀ k, k ∈ pend → k < length jobs) →
  ∃ pre post rs w' tr,
    pend = pre ++ i :: post
    ∧ join_loop E jobs i pend fin res w
      = (Ok (MkPool post (i :: reverse pre ++ fin) (res ++ rs)), w', tr)
    ∧ yields tr = []
    ∧ job_results E (omap (λ k, jobs !! k) (pre ++ [i])) w rs w'.
Proof.
  revert fin res w.
  induction pend as [|k pend IH]; intros fin res w Hi Hnd Hfin Hlt.
  { by apply elem_of_nil in Hi. }
  apply NoDup_cons in Hnd as [Hk Hnd].
  cbn [join_loop].
  destruct (jobs !! k) as [[[p m] a]|] eqn:Hjob.
  2: { apply lookup_ge_None, Nat.le_ngt in Hjob. exfalso. apply Hjob, Hlt. by left. }
  rewrite bool_decide_eq_false_2 by (apply Hfin; by left).
  destruct (sequential_request_total E p m a w) as (r & w1 & t1 & Hr & _ & Ht1 & _).
  erewrite bind_ok by exact Hr.
  case_bool_decide as Hki.
  - subst k. exists [], pend, [r], w1, t1.
    split_and!; [done|simpl; by rewrite app_nil_r|done|].
    rewrite app_nil_l. erewrite omap_lookup_cons by exact Hjob.
    econstructor; [exact Hr|constructor].
  - apply elem_of_cons in Hi as [->|Hi]; [done|].
    destruct (IH (k :: fin) (res ++ [r]) w1) as (pre & post & rs & w' & tr & -> & Hrun & Hy & Hres);
      [done..| | |].
    { intros k' Hk' [->|Hin]%elem_of_cons; [done|].
      eapply Hfin; [|exact Hin]. by right. }
    { intros k' Hk'. apply Hlt. by right. }
    exists (k :: pre), post, (r :: rs), w', (t1 ++ tr).
    rewrite Hrun. split_and!.
    + done.
    + rewrite reverse_cons, <-!app_assoc. done.
    + by rewrite yields_app, Ht1, Hy.
    + change ((k :: pre) ++ [i]) with (k :: (pre ++ [i])).
      erewrite omap_lookup_cons by exact Hjob.
      econstructor; [exact Hr|exact Hres].
Qed.

Lemma omap_lookup_length (jobs : list job) ks :
  (∀ k, k ∈ ks → k < length jobs) →
  length (omap (λ k, jobs !! k) ks) = length ks.
Proof.
  induction ks as [|k ks IH]; intros Hlt; [done|].
  destruct (lookup_lt_is_Some_2 jobs k) as [j Hj]; [apply Hlt; by left|].
  simpl. rewrite Hj. simpl. f_equal. apply IH. intros k' Hk'. apply Hlt. by right.
Qed.

(** The second loop of [RunThreadedJobs], from thread [i] on: every thread
    that is still running gets to run, and the results are yielded in the
    order in which the threads complete. *)
Lemma join_all_run E jobs len :
  ∀ i pend fin w,
    i + len = length jobs →
    NoDup pend →
    (∀ k, k ∈ pend → k ∉ fin) →
    (∀ k, k ∈ pend → k < length jobs) →
    (∀ k, k < length jobs → k ∈ pend ∨ k ∈ fin) →
    (∀ k, k < i → k ∈ fin) →
    ∃ w' tr,
      join_all E jobs (seq i len) (MkPool pend fin []) w = (Ok tt, w', tr)
      ∧ job_results E (omap (λ k, jobs !! k) pend) w (yields tr) w'.
Proof.
  induction len as [|len IH]; intros i pend fin w Hn Hnd Hfin Hlt Hcov Hdone.
  { exists w, []. split; [done|].
    destruct pend as [|k pend]; [constructor|].
    exfalso. apply (Hfin k); [by left|]. apply Hdone.
    rewrite Nat.add_0_r in Hn. subst i. apply Hlt. by left. }
  simpl. unfold join. simpl.
  case_bool_decide as Hi.
  - erewrite bind_ok_nil by done. simpl.
    erewrite bind_ok_nil by done.
    apply IH; [lia|done..|].
    intros k Hk. destruct (decide (k = i)) as [->|]; [done|]. apply Hdone. lia.
  - assert (i ∈ pend) as Hin.
    { destruct (Hcov i) as [?|?]; [lia|done|done]. }
    destruct (join_loop_run E jobs i pend fin [] w Hin Hnd Hfin Hlt)
      as (pre & post & rs & w1 & t1 & -> & Hrun & Ht1 & Hres).
    erewrite bind_ok by exact Hrun. simpl.
    erewrite bind_ok by apply for_each_yield.
    apply NoDup_app in Hnd as (Hnd1 & Hdisj & [Hipost Hnd2]%NoDup_cons).
    destruct (IH (S i) post (i :: reverse pre ++ fin) w1) as (w' & tr & Hrest & Hres').
    + lia.
    + done.
    + intros k Hk [->|[Hin'|Hin']%elem_of_app]%elem_of_cons; [done| |].
      * rewrite elem_of_reverse in Hin'. apply (Hdisj k Hin'). by right.
      * apply (Hfin k); [|done]. apply elem_of_app. right. by right.
    + intros k Hk. apply Hlt. apply elem_of_app. right. by right.
    + intros k Hk. destruct (Hcov k Hk) as [[Hin'|[->|Hin']%elem_of_cons]%elem_of_app|Hin'].
      * right. right. apply elem_of_app. left. by rewrite elem_of_reverse.
      * right. by left.
      * by left.
      * right. right. apply elem_of_app. by right.
    + intros k Hk. destruct (decide (k = i)) as [->|]; [by left|].
      right. apply elem_of_app. right. apply Hdone. lia.
    + rewrite Hrest. exists w', (t1 ++ (EvYield <$> rs) ++ tr).
      split; [done|].
      rewrite !yields_app, Ht1.
      rewrite yields_fmap_yield.
      simpl. replace (pre ++ i :: post) with ((pre ++ [i]) ++ post)
        by (by rewrite <-app_assoc).
      rewrite omap_app.
      by eapply job_results_app.
Qed.

(** Whatever the order in which the threads complete, no exception leaves
    [RunThreadedJobs]. *)
Lemma join_loop_no_raise E jobs i pend fin res w o w' tr :
  join_loop E jobs i pend fin res w = (o, w', tr) →
  Forall (λ r : result, r.2 = None ∨ r.1 = PNone) res →
  (∀ e, o ≠ Raise e)
  ∧ yields tr = []
  ∧ ∀ st, o = Ok st → Forall (λ r : result, r.2 = None ∨ r.1 = PNone) (results st).
Proof.
  revert fin res w tr.
  induction pend as [|k pend IH]; intros fin res w tr; simpl.
  { intros [= <- <- <-] _. by split_and!. }
  destruct (jobs !! k) as [[[p m] a]|]; [|by apply IH].
  case_bool_decide; [by apply IH|].
  destruct (sequential_request_total E p m a w) as (r & w1 & t1 & Hr & Hshape & Ht1 & _).
  erewrite bind_ok by exact Hr.
  intros Hrun Hres.
  assert (Forall (λ r : result, r.2 = None ∨ r.1 = PNone) (res ++ [r])) as Hres'.
  { apply Forall_app. split; [done|]. by constructor. }
  case_bool_decide.
  - injection Hrun as <- <- <-. rewrite app_nil_r.
    split_and!; [done..|]. by intros st [= <-].
  - destruct (join_loop _ _ _ _ _ _ _) as [[o2 w2] t2] eqn:Hrest.
    injection Hrun as <- <- <-.
    apply IH in Hrest as (Ho & Ht2 & Hst); [|done].
    split_and!; [done| |done]. by rewrite yields_app, Ht1, Ht2.
Qed.

Lemma join_all_no_raise E jobs threads st w o w' tr :
  join_all E jobs threads st w = (o, w', tr) →
  Forall (λ r : result, r.2 = None ∨ r.1 = PNone) (results st) →
  (∀ e, o ≠ Raise e)
  ∧ Forall (λ r : result, r.2 = None ∨ r.1 = PNone) (yields tr).
Proof.
  revert st w tr.
  induction threads as [|i threads IH]; intros st w tr; simpl.
  { intros [= <- <- <-] _. by split. }
  intros Hrun Hst.
  assert (∀ o1 w1 t1, join E jobs i st w = (o1, w1, t1) →
            (∀ e, o1 ≠ Raise e) ∧ yields t1 = []
            ∧ ∀ st', o1 = Ok st' →
                Forall (λ r : result, r.2 = None ∨ r.1 = PNone) (results st')) as Hjoin.
  { intros o1 w1 t1. unfold join. case_bool_decide.
    - intros [= <- <- <-]. split_and!; [done..|]. by intros st' [= <-].
    - intros Hj. by eapply join_loop_no_raise. }
  apply bind_inv in Hrun
    as [(st' & w1 & t1 & t2 & Hj & Hrest & ->)|[(e & Hj & ->)|[Hj ->]]].
  - destruct (Hjoin _ _ _ Hj) as (_ & Ht1 & Hst'). specialize (Hst' st' eq_refl).
    erewrite bind_ok in Hrest by apply for_each_yield.
    destruct (join_all _ _ _ _ _) as [[o2 w2] t3] eqn:Hall.
    injection Hrest as <- <- <-.
    apply IH in Hall as [Ho Ht3]; [|by constructor].
    split; [done|]. rewrite !yields_app, Ht1. simpl.
    apply Forall_app. split; [|done].
    by rewrite yields_fmap_yield.
  - destruct (Hjoin _ _ _ Hj) as (Hne & _). by destruct (Hne e).
  - destruct (Hjoin _ _ _ Hj) as (_ & Ht1 & _). split; [done|]. by rewrite Ht1.
Qed.



(** X2: whatever the order in which the threads complete, and whether or
    not all of them do, no exception leaves [RunThreadedJobs]: a job that
    fails is reported by the pair it yields, and every pair yielded is
    [(value, None)] or [(None, exc)]. *)
Theorem RunThreadedJobs_never_raises E jobs w o w' tr :
  RunThreadedJobs E jobs w = (o, w', tr) →
  (∀ e, o ≠ Raise e)
  ∧ Forall (λ r : result, r.2 = None ∨ r.1 = PNone) (yields tr).
Proof.
  unfold RunThreadedJobs, tick. erewrite bind_ok_nil by done.
  intros Hrun. by eapply join_all_no_raise.
Qed.

Lemma RunThreadedJobs_never_raises_witness :
  let E := Demo.env [] Demo.all_ready (λ _ n, [1]) in
  let w := Demo.two_stage_world [] 2 in
  let jobs := [(0, "a", PTuple []); (1, "b", PTuple [])] in
  RunThreadedJobs E jobs w
  = (Hang, World (heap w) 2, [EvCall 1 "b" (PTuple [])])
  ∧ (∀ e, Hang (A := unit) ≠ Raise e)
  ∧ Forall (λ r : result, r.2 = None ∨ r.1 = PNone) (yields [EvCall 1 "b" (PTuple [])]).
Proof.
  intros E w jobs.
  assert (RunThreadedJobs E jobs w
          = (Hang, World (heap w) 2, [EvCall 1 "b" (PTuple [])])) as Hrun.
  { vm_compute; reflexivity. }
  split; [exact Hrun|]. exact (RunThreadedJobs_never_raises E jobs w _ _ _ Hrun).
Defined.

(** ** One request on a TwoStageServerProxy *)

(** X3: a request that goes through.  When the arguments are encoded, the
    connection is made, the request is written, the response has status 200
    and parses, [request] returns [(value, None)], where the value is the
    only item of a one-item response and the whole tuple otherwise; the
    token of the transport has advanced by one, and nothing was closed. *)
Theorem request_response E p px m a w body h rb items :
  heap w !! p = Some (OTwoStage px) →
  xml_dumps E a m (encoding px) (allow_none px) = inr body →
  make_connection E p (host px) (S (t_seq (transport px))) = inr h →
  net_send E h (host px) (handler px) body = None →
  conn_getresponse E h = inr (200%Z, rb) →
  xml_parse_response E rb = inr items →
  TwoStageServerProxy.request E p m a w
  = (Ok (response_value items, None), after_start w p px,
     [EvMakeRequest p m a; EvStartRequest p body;
      EvFinishRequest p (StHandle (h, verbose px, S (t_seq (transport px))))]).
Proof.
  intros Hp Hdumps Hconn Hsend Hresp Hparse. unfold TwoStageServerProxy.request.
  erewrite bind_ok by (rewrite (make_request_run E p m a w px Hp), Hdumps; done).
  erewrite bind_ok by (rewrite (proxy_start_request_run E p px body w Hp), Hconn, Hsend; done).
  rewrite (proxy_finish_request_run E p (advance_seq px) h (verbose px))
    by apply after_start_lookup.
  simpl. by rewrite Hresp, bool_decide_eq_true_2, Hparse.
Qed.

Lemma request_response_witness :
  let E := Demo.env ["a"] Demo.all_ready Demo.in_order in
  let w := Demo.two_stage_world ["a"] 0 in
  let px := MkProxy (Some "a") "/" (MkTransport 0) None 0 0 in
  TwoStageServerProxy.request E 0 "ping" (PTuple []) w
  = (Ok (PStr "a", None), after_start w 0 px,
     [EvMakeRequest 0 "ping" (PTuple []); EvStartRequest 0 "ping()";
      EvFinishRequest 0 (StHandle (1, 0%Z, 1))]).
Proof.
  intros E w px.
  apply (request_response E 0 px "ping" (PTuple []) w "ping()" 1 "a" [PStr "a"]);
    reflexivity.
Defined.

(** X4: arguments that [xmlrpclib.dumps] rejects.  [request] raises the
    error of [dumps] before any connection is made and leaves the store as it
    was; [_sequential_request] returns that error as the pair
    [(None, exc)]. *)
Theorem request_unencodable_args E p px m a w e :
  heap w !! p = Some (OTwoStage px) →
  xml_dumps E a m (encoding px) (allow_none px) = inl e →
  TwoStageServerProxy.request E p m a w = (Raise e, w, [EvMakeRequest p m a])
  ∧ _sequential_request E p m a w = (Ok (PNone, Some e), w, [EvMakeRequest p m a]).
Proof.
  intros Hp Hdumps.
  assert (TwoStageServerProxy.request E p m a w = (Raise e, w, [EvMakeRequest p m a]))
    as Hreq.
  { unfold TwoStageServerProxy.request.
    erewrite bind_raise; [done|].
    by rewrite (make_request_run E p m a w px Hp), Hdumps. }
  split; [done|].
  unfold _sequential_request, try_except, get_world.
  unfold mbind, M_bind, bind at 1. cbv beta iota.
  unfold is_two_stage. rewrite Hp, Hreq. done.
Qed.

Lemma request_unencodable_args_witness :
  let E := MkEnv (λ a m enc an, inl (TypeError "cannot marshal None unless allow_none is enabled"))
             (λ p h seq, inr 0) (λ h host handler body, None) (λ h, Some h)
             (λ h, inl (IOError "closed")) (λ body, inr []) Demo.all_ready remove_dups id
             (λ p m a t, inr PNone) Demo.in_order Demo.demo_splittype Demo.demo_splithost
             (λ uri kw, None) in
  let w := Demo.two_stage_world ["a"] 0 in
  let e := TypeError "cannot marshal None unless allow_none is enabled" in
  TwoStageServerProxy.request E 0 "put" (PTuple [PNone]) w
  = (Raise e, w, [EvMakeRequest 0 "put" (PTuple [PNone])])
  ∧ _sequential_request E 0 "put" (PTuple [PNone]) w
    = (Ok (PNone, Some e), w, [EvMakeRequest 0 "put" (PTuple [PNone])]).
Proof.
  intros E w e.
  apply (request_unencodable_args E 0 (MkProxy (Some "a") "/" (MkTransport 0) None 0 0));
    reflexivity.
Defined.

(** X5: a request that cannot be started.  When the connection cannot be
    made, or writing the request raises, [request] does not raise: it
    returns [(None, exc)] with the exception of the failed step.  The token
    of the transport has advanced all the same, and the connection is closed
    exactly when the write raised something other than a [Fault]. *)
Theorem request_connection_failure E p px m a w body :
  heap w !! p = Some (OTwoStage px) →
  xml_dumps E a m (encoding px) (allow_none px) = inr body →
  (∀ e, make_connection E p (host px) (S (t_seq (transport px))) = inl e →
     TwoStageServerProxy.request E p m a w
     = (Ok (PNone, Some e), after_start w p px,
        [EvMakeRequest p m a; EvStartRequest p body; EvFinishRequest p (StExc e)]))
  ∧ (∀ h e, make_connection E p (host px) (S (t_seq (transport px))) = inr h →
       net_send E h (host px) (handler px) body = Some e →
       TwoStageServerProxy.request E p m a w
       = (Ok (PNone, Some e), after_start w p px,
          [EvMakeRequest p m a; EvStartRequest p body]
          ++ close_unless_Fault p e ++ [EvFinishRequest p (StExc e)])).
Proof.
  intros Hp Hdumps. split.
  - intros e Hconn. unfold TwoStageServerProxy.request.
    erewrite bind_ok by (rewrite (make_request_run E p m a w px Hp), Hdumps; done).
    erewrite bind_ok by (rewrite (proxy_start_request_run E p px body w Hp), Hconn; done).
    done.
  - intros h e Hconn Hsend. unfold TwoStageServerProxy.request.
    erewrite bind_ok by (rewrite (make_request_run E p m a w px Hp), Hdumps; done).
    erewrite bind_ok
      by (rewrite (proxy_start_request_run E p px body w Hp), Hconn, Hsend; done).
    done.
Qed.

Lemma request_connection_failure_witness :
  let E := Demo.env ["down"] Demo.all_ready Demo.in_order in
  let w := Demo.two_stage_world ["down"] 0 in
  let px := MkProxy (Some "down") "/" (MkTransport 0) None 0 0 in
  let e := IOError "[Errno 111] Connection refused" in
  TwoStageServerProxy.request E 0 "ping" (PTuple []) w
  = (Ok (PNone, Some e), after_start w 0 px,
     [EvMakeRequest 0 "ping" (PTuple []); EvStartRequest 0 "ping()"; EvClose 0;
      EvFinishRequest 0 (StExc e)]).
Proof.
  intros E w px e.
  refine (proj2 (request_connection_failure E 0 px "ping" (PTuple []) w "ping()" _ _)
            1 e _ _); reflexivity.
Defined.

(** X6: a transport serves one outstanding request.  The handle that
    [start_request] returns is accepted by the transport until the next
    [start_request] on the same proxy; after that, whatever the outcome of
    the second start, [get_sockfd] and the transport's [finish_request]
    raise [AssertionError] on the first handle, and the proxy's
    [finish_request] returns [(None, AssertionError)] for it. *)
Theorem second_start_invalidates_first_handle E p px b1 b2 w hd w1 t1 st2 w2 t2 :
  heap w !! p = Some (OTwoStage px) →
  TwoStageServerProxy.start_request E p b1 w = (Ok (StHandle hd), w1, t1) →
  TwoStageServerProxy.start_request E p b2 w1 = (Ok st2, w2, t2) →
  TwoStageTransport.get_sockfd E p hd w1 = (Ok (conn_sock E hd.1.1), w1, [])
  ∧ TwoStageTransport.get_sockfd E p hd w2 = (Raise AssertionError, w2, [])
  ∧ TwoStageTransport.finish_request E p hd w2 = (Raise AssertionError, w2, [])
  ∧ TwoStageServerProxy.finish_request E p (StHandle hd) w2
    = (Ok (PNone, Some AssertionError), w2, [EvFinishRequest p (StHandle hd)]).
Proof.
  intros Hp H1 H2.
  rewrite (proxy_start_request_run E p px b1 w Hp) in H1.
  assert (w1 = after_start w p px ∧ hd.2 = S (t_seq (transport px))) as [-> Hseq].
  { destruct (make_connection E p _ _) as [e|h]; [by simplify_eq|].
    destruct (net_send E h _ _ _) as [e|]; by simplify_eq. }
  rewrite (proxy_start_request_run E p (advance_seq px) b2 _ (after_start_lookup w p px))
    in H2.
  assert (w2 = after_start (after_start w p px) p (advance_seq px)) as ->.
  { destruct (make_connection E p _ _) as [e|h]; [by simplify_eq|].
    destruct (net_send E h _ _ _) as [e|]; by simplify_eq. }
  destruct hd as [[h v] seq]. simpl in Hseq. subst seq.
  split_and!; munfold; simpl; rewrite lookup_insert_eq; simpl.
  - by rewrite bool_decide_eq_true_2.
  - by rewrite bool_decide_eq_false_2 by lia.
  - by rewrite bool_decide_eq_false_2 by lia.
  - by rewrite bool_decide_eq_false_2 by lia.
Qed.

Lemma second_start_invalidates_first_handle_witness :
  let E := Demo.env ["a"] Demo.all_ready Demo.in_order in
  let w := Demo.two_stage_world ["a"] 0 in
  let px := MkProxy (Some "a") "/" (MkTransport 0) None 0 0 in
  let w1 := after_start w 0 px in
  let w2 := after_start w1 0 (advance_seq px) in
  TwoStageServerProxy.start_request E 0 "ping()" w
  = (Ok (StHandle (1, 0%Z, 1)), w1, [EvStartRequest 0 "ping()"])
  ∧ TwoStageTransport.get_sockfd E 0 (1, 0%Z, 1) w1 = (Ok (Some 1), w1, [])
  ∧ TwoStageTransport.get_sockfd E 0 (1, 0%Z, 1) w2 = (Raise AssertionError, w2, []).
Proof.
  intros E w px w1 w2.
  assert (TwoStageServerProxy.start_request E 0 "ping()" w
          = (Ok (StHandle (1, 0%Z, 1)), w1, [EvStartRequest 0 "ping()"])) as H1.
  { reflexivity. }
  assert (TwoStageServerProxy.start_request E 0 "echo()" w1
          = (Ok (StHandle (2, 0%Z, 2)), w2, [EvStartRequest 0 "echo()"])) as H2.
  { reflexivity. }
  split; [exact H1|].
  refine (let H := second_start_invalidates_first_handle E 0 px "ping()" "echo()" w
                     (1, 0%Z, 1) w1 _ (StHandle (2, 0%Z, 2)) w2 _ _ H1 H2
          in conj (proj1 H) (proj1 (proj2 H))).
  reflexivity.
Defined.

(** X7: no exception leaves the two stages of a proxy.  Whatever the
    transport raises while a request is started comes back as the state
    that [start_request] returns: the exception object itself, in the store
    the transport left; a handle when the transport returned one.
    [finish_request] on an exception object returns [(None, exc)] without
    calling the transport; on a handle, whatever the transport raises comes
    back as [(None, exc)]; the pair returned is [(value, None)] or
    [(None, exc)] in every case, and the store is left as it was.  Neither
    stage yields. *)
Theorem proxy_stages_never_raise E p px w :
  heap w !! p = Some (OTwoStage px) →
  (∀ body o w' tr,
     TwoStageServerProxy.start_request E p body w = (o, w', tr) →
     (∀ e, o ≠ Raise e)
     ∧ yields tr = []
     ∧ (∀ e w1 t1,
          TwoStageTransport.start_request E p (host px) (handler px) body (verbose px) w
            = (Raise e, w1, t1) →
          o = Ok (StExc e) ∧ w' = w1 ∧ tr = EvStartRequest p body :: t1)
     ∧ (∀ hd w1 t1,
          TwoStageTransport.start_request E p (host px) (handler px) body (verbose px) w
            = (Ok hd, w1, t1) →
          o = Ok (StHandle hd) ∧ w' = w1 ∧ tr = EvStartRequest p body :: t1))
  ∧ (∀ st o w' tr,
       TwoStageServerProxy.finish_request E p st w = (o, w', tr) →
       (∀ e, o ≠ Raise e)
       ∧ w' = w
       ∧ yields tr = []
       ∧ (∀ r, o = Ok r → r.2 = None ∨ r.1 = PNone)
       ∧ (∀ e, st = StExc e → o = Ok (PNone, Some e) ∧ tr = [EvFinishRequest p st])
       ∧ (∀ hd e w1 t1,
            st = StHandle hd →
            TwoStageTransport.finish_request E p hd w = (Raise e, w1, t1) →
            o = Ok (PNone, Some e) ∧ tr = EvFinishRequest p st :: t1)).
Proof.
  intros Hp. split.
  - intros body o w' tr Hrun.
    destruct (start_request_run E p body w) as (st & w0 & cl & Hrun' & Hcl & _).
    rewrite Hrun in Hrun'. injection Hrun' as -> -> ->.
    split_and!; [done|by destruct Hcl as [-> | ->]| |].
    + intros e w1 t1 Ht.
      pose proof (start_request_sentinel E p body w px e w1 t1 Hp Ht) as Hs.
      rewrite Hrun in Hs. by injection Hs as -> -> ->.
    + intros hd w1 t1 Ht. revert Hrun.
      unfold TwoStageServerProxy.start_request, emit, try_except, get_proxy.
      unfold mbind, M_bind, bind at 1 2 3. simpl. rewrite Hp. simpl. rewrite Ht. simpl.
      rewrite app_nil_r. by intros [= -> -> ->].
  - intros st o w' tr Hrun.
    destruct (finish_request_run E p st w) as (r & cl & Hrun' & Hcl & Hshape & Hexc).
    rewrite Hrun in Hrun'. injection Hrun' as -> -> ->.
    split_and!; [done|done|by destruct Hcl as [-> | ->]|by intros ? [= <-]| |].
    + intros e ->. by destruct (Hexc e eq_refl) as [-> ->].
    + intros hd e w1 t1 -> Ht. revert Hrun.
      unfold TwoStageServerProxy.finish_request, emit, try_except.
      unfold mbind, M_bind, bind at 1 2. simpl. unfold bind at 1. rewrite Ht. simpl.
      rewrite app_nil_r. by intros [= <- _ <-].
Qed.

Lemma proxy_stages_never_raise_witness :
  let E := Demo.env ["down"] Demo.all_ready Demo.in_order in
  let w := Demo.two_stage_world ["down"] 0 in
  let e := IOError "[Errno 111] Connection refused" in
  ∃ w' tr,
    TwoStageServerProxy.start_request E 0 "ping()" w = (Ok (StExc e), w', tr)
    ∧ yields tr = []
    ∧ TwoStageServerProxy.finish_request E 0 (StExc e) w
      = (Ok (PNone, Some e), w, [EvFinishRequest 0 (StExc e)]).
Proof.
  intros E w e.
  destruct (proxy_stages_never_raise E 0 (MkProxy (Some "down") "/" (MkTransport 0) None 0 0) w)
    as [Hstart Hfinish]; [reflexivity|].
  destruct (TwoStageServerProxy.start_request E 0 "ping()" w) as [[o w'] tr] eqn:Hrun.
  destruct (Hstart "ping()" o w' tr Hrun) as (_ & Hy & Hexc & _).
  destruct (TwoStageTransport.start_request E 0 (Some "down") "/" "ping()" 0 w)
    as [[o1 w1] t1] eqn:Ht.
  assert (o1 = Raise e) as -> by (vm_compute in Ht; by injection Ht as <- _ _).
  destruct (Hexc e w1 t1 Ht) as (-> & -> & ->).
  exists w1, (EvStartRequest 0 "ping()" :: t1). split; [done|]. split; [done|].
  destruct (TwoStageServerProxy.finish_request E 0 (StExc e) w) as [[o2 w2] t2] eqn:Hfin.
  destruct (Hfinish (StExc e) o2 w2 t2 Hfin) as (_ & -> & _ & _ & Hs & _).
  by destruct (Hs e eq_refl) as [-> ->].
Defined.

(** X8: a response that cannot be read.  On a handle with the current
    token, an exception raised by [getresponse], or by the parser on a 200
    response, is returned as [(None, exc)]; the connection is closed unless
    the exception is a [Fault], and the store is left as it was. *)
Theorem finish_request_read_failure E p px h v w e :
  heap w !! p = Some (OTwoStage px) →
  conn_getresponse E h = inl e
  ∨ (∃ rb, conn_getresponse E h = inr (200%Z, rb) ∧ xml_parse_response E rb = inl e) →
  TwoStageServerProxy.finish_request E p (StHandle (h, v, t_seq (transport px))) w
  = (Ok (PNone, Some e), w,
     EvFinishRequest p (StHandle (h, v, t_seq (transport px)))
       :: close_unless_Fault p e).
Proof.
  intros Hp Hfail. rewrite (proxy_finish_request_run E p px h v w Hp). simpl.
  destruct Hfail as [-> | (rb & -> & Hparse)]; [done|].
  by rewrite bool_decide_eq_true_2, Hparse.
Qed.

Lemma finish_request_read_failure_witness :
  let E := Demo.env ["reset"; "faulty"] Demo.all_ready Demo.in_order in
  let w := Demo.two_stage_world ["reset"; "faulty"] 0 in
  TwoStageServerProxy.finish_request E 0 (StHandle (1, 0%Z, 0)) w
  = (Ok (PNone, Some (IOError "[Errno 104] Connection reset by peer")), w,
     [EvFinishRequest 0 (StHandle (1, 0%Z, 0)); EvClose 0])
  ∧ TwoStageServerProxy.finish_request E 1 (StHandle (101, 0%Z, 0)) w
    = (Ok (PNone, Some (Fault 1 "boom")), w,
       [EvFinishRequest 1 (StHandle (101, 0%Z, 0))]).
Proof.
  intros E w. split.
  - apply (finish_request_read_failure E 0
             (MkProxy (Some "reset") "/" (MkTransport 0) None 0 0) 1 0%Z w);
      [reflexivity|]. by left.
  - apply (finish_request_read_failure E 1
             (MkProxy (Some "faulty") "/" (MkTransport 0) None 0 0) 101 0%Z w);
      [reflexivity|]. right. by exists "fault".
Defined.

(** X9: [is_ready].  For an exception object it is [True] without any call.
    For a handle whose token is not the current one the assertion of
    [get_sockfd] is not an [OSError] or [IOError], so it leaves [is_ready];
    for a handle with the current token the answer is that of one poll of
    the socket: [True] when [select] lists it or raises an [OSError] or
    [IOError], any other exception of [select] being raised.  The objects of
    the store are never changed. *)
Theorem is_ready_outcomes E select_poll p px w :
  heap w !! p = Some (OTwoStage px) →
  (∀ e, TwoStageServerProxy.is_ready E select_poll p (StExc e) w = (Ok true, w, []))
  ∧ (∀ h v seq,
       seq ≠ t_seq (transport px) →
       TwoStageServerProxy.is_ready E select_poll p (StHandle (h, v, seq)) w
       = (Raise AssertionError, w, []))
  ∧ (∀ h v,
       TwoStageServerProxy.is_ready E select_poll p
         (StHandle (h, v, t_seq (transport px))) w
       = (match select_poll (clock w) (conn_sock E h) with
          | inr (r, e) => Ok (bool_decide (0 < length r + length e))
          | inl exc => if is_OSError_or_IOError exc then Ok true else Raise exc
          end, World (heap w) (S (clock w)), [])).
Proof.
  intros Hp. split_and!.
  - done.
  - intros h v seq Hseq.
    unfold TwoStageServerProxy.is_ready, TwoStageTransport.is_ready.
    munfold; simpl. rewrite Hp; simpl.
    by rewrite bool_decide_eq_false_2.
  - intros h v.
    unfold TwoStageServerProxy.is_ready, TwoStageTransport.is_ready.
    munfold; simpl. rewrite Hp; simpl.
    rewrite bool_decide_eq_true_2 by done. simpl.
    destruct (select_poll (clock w) (conn_sock E h)) as [exc|[r e]]; simpl; [|done].
    by destruct (is_OSError_or_IOError exc).
Qed.

Lemma is_ready_outcomes_witness :
  let E := Demo.env ["a"] Demo.all_ready Demo.in_order in
  let w := Demo.two_stage_world ["a"] 0 in
  let poll := λ (t : nat) (sock : option sockfd),
    match sock with
    | Some fd => if bool_decide (fd = 1) then inr ([fd], []) else inr ([], [])
    | None => inl (TypeError "argument must be an int, or have a fileno() method.")
    end in
  TwoStageServerProxy.is_ready E poll 0 (StHandle (1, 0%Z, 0)) w
  = (Ok true, World (heap w) 1, [])
  ∧ TwoStageServerProxy.is_ready E poll 0 (StHandle (2, 0%Z, 0)) w
    = (Ok false, World (heap w) 1, [])
  ∧ TwoStageServerProxy.is_ready E poll 0 (StHandle (1, 0%Z, 7)) w
    = (Raise AssertionError, w, []).
Proof.
  intros E w poll.
  destruct (is_ready_outcomes E poll 0
              (MkProxy (Some "a") "/" (MkTransport 0) None 0 0) w eq_refl)
    as (_ & Hstale & Hcur).
  split_and!.
  - exact (Hcur 1 0%Z).
  - exact (Hcur 2 0%Z).
  - apply Hstale. discriminate.
Defined.

(** ** Building proxies *)

Lemma init_ok E uri kw w r w' tr :
  TwoStageServerProxy.init E uri kw w = (Ok r, w', tr) →
  (splittype E uri).1 = Some "http"
  ∧ kw_transport kw = None
  ∧ tr = []
  ∧ heap w !! r = None
  ∧ w' = World (<[r := OTwoStage (new_proxy E uri kw)]> (heap w)) (clock w).
Proof.
  unfold TwoStageServerProxy.init, new_proxy.
  destruct (splittype E uri) as [type rest]. simpl.
  case_bool_decide as Htype; [|by intros [=]].
  destruct (splithost E rest) as [h path]. simpl.
  unfold py_assert. destruct (bool_decide (kw_transport kw = None)) eqn:Htr.
  - apply bool_decide_eq_true in Htr.
    rewrite (bind_ok_nil _ _ w tt w) by done.
    intros Hrun. pose proof Hrun as (-> & Hfresh & _)%alloc_run.
    unfold alloc in Hrun. injection Hrun as <- <-.
    by split_and!.
  - erewrite bind_raise by done. by intros [=].
Qed.

Lemma init_http E uri kw w :
  (splittype E uri).1 = Some "http" →
  TwoStageServerProxy.init E uri kw w
  = if bool_decide (kw_transport kw = None)
    then (Ok (fresh (dom (heap w))),
          World (<[fresh (dom (heap w)) := OTwoStage (new_proxy E uri kw)]> (heap w))
                (clock w), [])
    else (Raise AssertionError, w, []).
Proof.
  unfold TwoStageServerProxy.init, new_proxy.
  destruct (splittype E uri) as [type rest]. simpl. intros ->.
  rewrite bool_decide_eq_true_2 by done.
  destruct (splithost E rest) as [h path]. simpl.
  unfold py_assert. destruct (bool_decide (kw_transport kw = None)).
  - by rewrite (bind_ok_nil _ _ w tt w) by done.
  - by erewrite bind_raise by done.
Qed.

Lemma new_proxy_handler E uri kw : handler (new_proxy E uri kw) ≠ "".
Proof. unfold new_proxy. simpl. by case_bool_decide. Qed.

Lemma new_ServerProxy_ok E a kw w r w' tr :
  new_ServerProxy E a kw w = (Ok r, w', tr) →
  tr = [] ∧ heap w !! r = None ∧ heap w' = <[r := OServerProxy a]> (heap w).
Proof.
  unfold new_ServerProxy. destruct (ServerProxy_init E a kw); [by intros [=]|].
  apply alloc_run.
Qed.

(** One item of [servers]. *)
Lemma make_proxy_ok E tssp_lo kw s w r w' tr :
  make_proxy E tssp_lo kw s w = (Ok r, w', tr) →
  tr = []
  ∧ match s with
    | SObject r0 => r = r0 ∧ w' = w
    | SAddr a =>
        heap w !! r = None
        ∧ heap w' = <[r := if two_stage_address E tssp_lo a
                           then OTwoStage (new_proxy E a kw)
                           else OServerProxy a]> (heap w)
    end.
Proof.
  destruct s as [a|r0]; simpl; [|by intros [= <- <- <-]].
  unfold two_stage_address, local_address.
  rewrite <-!orb_assoc.
  destruct (negb tssp_lo || _) eqn:Hroute.
  2: { rewrite andb_false_r. apply new_ServerProxy_ok. }
  rewrite andb_true_r.
  unfold except_UnknownProtocolError, try_except.
  case_bool_decide as Htype.
  - rewrite init_http by done. case_bool_decide; [|done].
    intros [= <- <- <-]. split; [done|]. split; [|done].
    apply not_elem_of_dom, is_fresh.
  - rewrite init_unknown_protocol by done.
    destruct (new_ServerProxy E a kw w) as [[o1 w1] t1] eqn:Hrun.
    intros [= -> <- <-]. apply new_ServerProxy_ok in Hrun as (-> & ? & ?). done.
Qed.

Lemma make_proxies_ok E tssp_lo kw servers :
  ∀ proxies w proxies' w' tr,
    make_proxies E tssp_lo kw servers proxies w = (Ok proxies', w', tr) →
    ∃ new,
      proxies' = proxies ++ new
      ∧ tr = []
      ∧ heap w ⊆ heap w'
      ∧ Forall2 (λ s r,
           match s with
           | SObject r0 => r = r0
           | SAddr a =>
               heap w !! r = None
               ∧ heap w' !! r = Some (if two_stage_address E tssp_lo a
                                      then OTwoStage (new_proxy E a kw)
                                      else OServerProxy a)
           end) servers new
      ∧ NoDup (omap (λ sr : server * ref,
                       match sr.1 with SAddr _ => Some sr.2 | SObject _ => None end)
                    (zip servers new)).
Proof.
  induction servers as [|s servers IH]; intros proxies w proxies' w' tr; simpl.
  { intros [= <- <- <-]. exists []. rewrite app_nil_r.
    split_and!; [done..|constructor|constructor]. }
  intros [(r & w1 & t1 & t2 & Hmk & Hrest & ->)|[(e & _ & ?)|[_ ?]]]%bind_inv;
    [|done..].
  apply IH in Hrest as (new & -> & -> & Hsub & Hnew & Hnd).
  apply make_proxy_ok in Hmk as (-> & Hs).
  assert (heap w ⊆ heap w1) as Hsub1.
  { destruct s as [a|r0]; [|by destruct Hs as [_ ->]].
    destruct Hs as [Hfresh ->]. by apply insert_subseteq. }
  exists (r :: new). rewrite <-app_assoc. split_and!; [done|done|by etrans| |].
  - constructor.
    + destruct s as [a|r0]; [|by destruct Hs].
      destruct Hs as [Hfresh Hheap]. split; [done|].
      eapply lookup_weaken; [|exact Hsub]. rewrite Hheap. apply lookup_insert_eq.
    + eapply Forall2_impl; [exact Hnew|]. intros s' r'. destruct s' as [a'|]; [|done].
      intros [Hfresh' Hlook]. split; [|done].
      destruct (heap w !! r') eqn:Hr'; [|done].
      eapply lookup_weaken in Hr'; [|exact Hsub1]. congruence.
  - simpl. destruct s as [a|r0]; simpl; [|done].
    apply NoDup_cons. split; [|done].
    destruct Hs as [Hfresh Hheap].
    intros (sr & Hin & Hsr)%list_elem_of_omap.
    destruct sr as [s' r']. simpl in *. destruct s' as [a'|]; [|done].
    injection Hsr as ->.
    apply elem_of_lookup_zip_with in Hin as (i & s'' & r'' & [= <- <-] & Hs'' & Hr'').
    eapply Forall2_lookup_lr in Hnew; [|exact Hs''|exact Hr''].
    destruct Hnew as [Hfresh' _]. rewrite Hheap, lookup_insert_eq in Hfresh'. done.
Qed.

(** X10: what a [TwoStageServerProxy] that was constructed is.  The
    constructor returns only for a URI whose scheme is [http] and when no
    transport was passed.  The new proxy is an object that did not exist
    before, every other object is left as it was, the token of its transport
    is 0, its handler is never empty ([/RPC2] when the URI has no path), and
    its request format is the [encoding] and [allow_none] it was given. *)
Theorem init_success E uri kw w r w' tr :
  TwoStageServerProxy.init E uri kw w = (Ok r, w', tr) →
  (splittype E uri).1 = Some "http"
  ∧ kw_transport kw = None
  ∧ heap w !! r = None
  ∧ (∀ q, q ≠ r → heap w' !! q = heap w !! q)
  ∧ ∃ px,
      heap w' !! r = Some (OTwoStage px)
      ∧ t_seq (transport px) = 0
      ∧ handler px ≠ ""
      ∧ ((splithost E (splittype E uri).2).2 = "" → handler px = "/RPC2")
      ∧ TwoStageServerProxy.request_format r w'
        = (Ok (kw_encoding kw, kw_allow_none kw), w', []).
Proof.
  intros (Htype & Htr & -> & Hfresh & ->)%init_ok.
  split_and!; [done..| |].
  - intros q Hq. simpl. by rewrite lookup_insert_ne.
  - exists (new_proxy E uri kw). simpl. rewrite lookup_insert_eq.
    split_and!; [done|done|exact (new_proxy_handler E uri kw)| |].
    + intros Hh. unfold new_proxy. simpl. by rewrite bool_decide_eq_true_2.
    + unfold TwoStageServerProxy.request_format, get_proxy.
      unfold mbind, M_bind, bind. simpl. by rewrite lookup_insert_eq.
Qed.

Lemma init_success_witness :
  let E := Demo.env [] Demo.all_ready Demo.in_order in
  let px := MkProxy (Some "localhost:8000") "/RPC2" (MkTransport 0) (Some "utf-8") 0 1 in
  let kw := MkKwargs None (Some "utf-8") 0 1 0 in
  let w' := World {[ 0 := OTwoStage px ]} 0 in
  TwoStageServerProxy.init E "http://localhost:8000" kw Demo.empty_world = (Ok 0, w', [])
  ∧ TwoStageServerProxy.request_format 0 w' = (Ok (Some "utf-8", 1%Z), w', [])
  ∧ (splittype E "http://localhost:8000").1 = Some "http".
Proof.
  intros E px kw w'.
  assert (TwoStageServerProxy.init E "http://localhost:8000" kw Demo.empty_world
          = (Ok 0, w', [])) as Hinit.
  { vm_compute; reflexivity. }
  split; [exact Hinit|].
  destruct (init_success E _ kw _ 0 w' [] Hinit) as (Htype & _ & _ & _ & px' & _ & _ & _ & _ & Hfmt).
  split; [exact Hfmt|exact Htype].
Defined.

(** X11: the proxies of a ParallelServerProxy.  When the constructor
    returns, [self.__proxies] has one entry per item of [servers], in order.
    An item that is not a [str] is kept as it is; for an address the entry
    is an object that did not exist before, and no object that existed is
    changed; the objects made for the addresses are pairwise distinct, so a
    ParallelServerProxy built from addresses never names a proxy twice. *)
Theorem psp_init_one_proxy_per_server E cls servers kwargs w proxies w' tr :
  psp_init E cls servers kwargs w = (Ok proxies, w', tr) →
  length proxies = length servers
  ∧ heap w ⊆ heap w'
  ∧ (∀ i r, servers !! i = Some (SObject r) → proxies !! i = Some r)
  ∧ (∀ i a, servers !! i = Some (SAddr a) →
       ∃ r, proxies !! i = Some r ∧ heap w !! r = None ∧ is_Some (heap w' !! r))
  ∧ (Forall (λ s, ∃ a, s = SAddr a) servers → NoDup proxies).
Proof.
  unfold psp_init. intros (new & -> & _ & Hsub & Hnew & Hnd)%make_proxies_ok.
  simpl in *. split_and!.
  - symmetry. by eapply Forall2_length.
  - done.
  - intros i r Hi. destruct (Forall2_lookup_l _ _ _ _ _ Hnew Hi) as (r' & Hr' & Hs).
    simpl in Hs. by subst r'.
  - intros i a Hi. destruct (Forall2_lookup_l _ _ _ _ _ Hnew Hi) as (r & Hr & Hfresh & Hlook).
    exists r. by rewrite Hlook.
  - intros Haddr.
    assert (omap (λ sr : server * ref,
                    match sr.1 with SAddr _ => Some sr.2 | SObject _ => None end)
                 (zip servers new) = new) as Heq; [|by rewrite <-Heq].
    clear -Hnew Haddr.
    induction Hnew as [|s r servers new _ _ IH]; [done|].
    apply Forall_cons in Haddr as [[a ->] Haddr]. simpl. f_equal. by apply IH.
Qed.

Lemma psp_init_one_proxy_per_server_witness :
  let E := Demo.env [] Demo.all_ready Demo.in_order in
  let w := Demo.two_stage_world [] 1 in
  let servers := [SAddr "http://localhost/a"; SObject 0; SAddr "https://example.org/"] in
  ∃ w',
    psp_init E TwoStageParallelServerProxy servers (MkPspKwargs None default_kwargs) w
    = (Ok [1; 0; 2], w', [])
    ∧ length [1; 0; 2] = length servers
    ∧ heap w ⊆ heap w'.
Proof.
  intros E w servers. eexists.
  assert (psp_init E TwoStageParallelServerProxy servers (MkPspKwargs None default_kwargs) w
          = (Ok [1; 0; 2],
             World (<[2 := OServerProxy "https://example.org/"]>
                     (<[1 := OTwoStage (MkProxy (Some "localhost") "/a" (MkTransport 0) None 0 0)]>
                        (heap w))) 0, [])) as Hinit.
  { vm_compute; reflexivity. }
  split; [exact Hinit|].
  destruct (psp_init_one_proxy_per_server E _ servers _ w _ _ _ Hinit) as (Hlen & Hsub & _).
  by split.
Defined.



(** ** The schedulers behind the ParallelServerProxy classes *)





(** [__close], one proxy at a time. *)
Lemma psp_close_cons E p proxies w :
  psp_close E (p :: proxies) w
  = if is_two_stage w p then
      (Raise (AttributeError
         "'TwoStageServerProxy' object has no attribute '_ParallelServerProxy__close'"),
       w, [])
    else
      let ev := EvCall p "_ParallelServerProxy__close" (PTuple []) in
      let w1 := World (heap w) (S (clock w)) in
      match obj_call E p "_ParallelServerProxy__close" (PTuple []) (clock w) with
      | inl e => (Raise e, w1, [ev])
      | inr _ => let '(o, w2, t2) := psp_close E proxies w1 in (o, w2, ev :: t2)
      end.
Proof.
  unfold psp_close. simpl. munfold. simpl.
  destruct (is_two_stage w p); [done|]. simpl.
  by destruct (obj_call E p _ _ _).
Qed.

Lemma psp_close_run E proxies :
  ∀ w o w' tr,
    psp_close E proxies w = (o, w', tr) →
    Forall (λ ev, ∃ p, ev = EvCall p "_ParallelServerProxy__close" (PTuple [])) tr
    ∧ heap w' = heap w
    ∧ ((∃ p, p ∈ proxies ∧ is_two_stage w p = true) → ∃ e, o = Raise e).
Proof.
  induction proxies as [|p proxies IH]; intros w o w' tr.
  { intros [= <- <- <-]. split_and!; [done..|]. by intros (p & ?%elem_of_nil & _). }
  rewrite psp_close_cons.
  destruct (is_two_stage w p) eqn:Hp.
  { intros [= <- <- <-]. split_and!; [done..|]. intros _. by eexists. }
  cbv zeta.
  destruct (obj_call E p _ _ _) as [e|v] eqn:Hcall.
  { intros [= <- <- <-]. split_and!; [|done|].
    - constructor; [by eexists|done].
    - intros _. by eexists. }
  destruct (psp_close E proxies _) as [[o2 w2] t2] eqn:Hrest.
  intros [= <- <- <-]. apply IH in Hrest as (Ht2 & Hheap & Hraise).
  split_and!; [constructor; [by eexists|done]|done|].
  intros (q & [->|Hq]%elem_of_cons & Hts); [congruence|].
  apply Hraise. exists q. split; [done|].
  by rewrite (heap_two_stage w (World (heap w) (S (clock w)))).
Qed.

(** X14: [__close] closes nothing.  It looks up the attribute
    [_ParallelServerProxy__close] on each proxy, which a
    [TwoStageServerProxy] does not have: the transport of a proxy is never
    closed, the objects of the store are not changed, every proxy before the
    first [TwoStageServerProxy] instead receives a call of a method of that
    name, and on an instance that holds a [TwoStageServerProxy] the method
    raises. *)
Theorem psp_close_closes_nothing E proxies w o w' tr :
  psp_close E proxies w = (o, w', tr) →
  Forall (λ ev, ∃ p, ev = EvCall p "_ParallelServerProxy__close" (PTuple [])) tr
  ∧ Forall (λ ev, ∀ p, ev ≠ EvClose p) tr
  ∧ heap w' = heap w
  ∧ ((∃ p, p ∈ proxies ∧ is_two_stage w p = true) → ∃ e, o = Raise e).
Proof.
  intros (Hev & Hheap & Hraise)%psp_close_run.
  split_and!; [done| |done|done].
  eapply Forall_impl; [exact Hev|]. by intros ev [q ->] p.
Qed.

Lemma psp_close_closes_nothing_witness :
  let E := Demo.env ["a"] Demo.all_ready Demo.in_order in
  let w := Demo.two_stage_world ["a"] 1 in
  psp_close E [1; 0] w
  = (Raise (AttributeError
       "'TwoStageServerProxy' object has no attribute '_ParallelServerProxy__close'"),
     World (heap w) 1, [EvCall 1 "_ParallelServerProxy__close" (PTuple [])])
  ∧ Forall (λ ev, ∀ p, ev ≠ EvClose p) [EvCall 1 "_ParallelServerProxy__close" (PTuple [])].
Proof.
  intros E w.
  assert (psp_close E [1; 0] w
          = (Raise (AttributeError
               "'TwoStageServerProxy' object has no attribute '_ParallelServerProxy__close'"),
             World (heap w) 1, [EvCall 1 "_ParallelServerProxy__close" (PTuple [])])) as Hrun.
  { vm_compute; reflexivity. }
  split; [exact Hrun|].
  exact (proj1 (proj2 (psp_close_closes_nothing E [1; 0] w _ _ _ Hrun))).
Defined.

(** X15: the Pretend class.  A method call on an instance never raises; it
    yields exactly one pair per proxy, in the order of the servers, the
    i-th pair being what [_sequential_request] returns for the i-th proxy
    with the method name and the arguments of the call. *)
Theorem pretend_facade_in_order E proxies m params w :
  ∃ w' tr,
    psp_request E PretendParallelServerProxy proxies m params w = (Ok tt, w', tr)
    ∧ length (yields tr) = length proxies
    ∧ job_results E ((λ p, (p, m, params)) <$> proxies) w (yields tr) w'.
Proof.
  simpl. unfold _sequential_requests.
  destruct (RunSequentialJobs_run E (map (λ p, (p, m, params)) proxies) w)
    as (w' & tr & Hrun & Hres & _).
  exists w', tr. split_and!; [done| |done].
  apply job_results_length in Hres. by rewrite Hres, length_map.
Qed.

(** ** RunTwoStageJobs: encoding and completion *)

Lemma two_stage_jobs_all w jobs :
  Forall (λ j : job, is_two_stage w j.1.1 = true) jobs → two_stage_jobs w jobs = jobs.
Proof.
  unfold two_stage_jobs. induction 1 as [|j jobs Hj _ IH]; [done|].
  rewrite filter_cons_True by (by rewrite Hj). by rewrite IH.
Qed.

Lemma NoDup_fmap_const_length {A B} (f : A → B) (l : list A) k :
  NoDup (f <$> l) → (∀ x, x ∈ l → f x = k) → length l ≤ 1.
Proof.
  destruct l as [|a [|b l]]; simpl; [lia|lia|].
  intros [Hab _]%NoDup_cons Hk. exfalso. apply Hab.
  rewrite (Hk a) by by left. rewrite (Hk b) by (right; by left). by left.
Qed.

Lemma Forall2_eq_fmap {A B} (g : A → B) (l : list A) (k : list B) :
  Forall2 (λ x y, y = g x) l k → k = g <$> l.
Proof. induction 1 as [|x y l k -> _ IH]; [done|]. by rewrite fmap_cons, IH. Qed.

(** X16: one call for all servers.  When [_two_stage_requests] sends the
    same method and arguments to proxies that share a request format, as the
    TwoStage class does, [make_request] is called at most once, whatever
    the number of proxies and the outcome of the run, and only by one of the
    proxies, for that method and those arguments.  When the arguments are
    hashable and can be encoded, it is called exactly once and every proxy,
    in the order of the servers, is sent the body that call returned. *)
Theorem same_call_encoded_once E proxies m params w f o w' tr :
  (∀ d, dict_items E d ≡ₚ d) →
  Forall (λ p, is_two_stage w p = true ∧ format_of w p = f) proxies →
  _two_stage_requests E proxies m params w = (o, w', tr) →
  length (make_request_calls tr) ≤ 1
  ∧ (∀ c, c ∈ make_request_calls tr → c.1.1 ∈ proxies ∧ c.1.2 = m ∧ c.2 = params)
  ∧ (∀ body,
       proxies ≠ [] →
       hashable params = true →
       xml_dumps E params m f.1 f.2 = inr body →
       length (make_request_calls tr) = 1
       ∧ start_request_calls tr = (λ p, (p, body)) <$> proxies).
Proof.
  intros Hperm Hproxies. unfold _two_stage_requests.
  set (jobs := map (λ p, (p, m, params)) proxies).
  assert (∀ j, j ∈ jobs → j.1.1 ∈ proxies ∧ j.1.2 = m ∧ j.2 = params
                          ∧ key_of w j = (m, params, f)) as Hjobs.
  { intros j (p & -> & Hp)%list_elem_of_fmap. split_and!; [done..|].
    eapply Forall_forall in Hproxies as [_ Hf]; [|done].
    unfold key_of. simpl. by rewrite Hf. }
  assert (Forall (λ j : job, is_two_stage w j.1.1 = true) jobs) as Hts.
  { apply Forall_forall. intros j (p & -> & Hp)%list_elem_of_fmap.
    by eapply Forall_forall in Hproxies as [? _]. }
  pose proof (two_stage_jobs_all w jobs Hts) as Hall.
  assert (∀ body, proxies ≠ [] → hashable params = true →
            xml_dumps E params m f.1 f.2 = inr body →
            ∃ started w1 t1,
              start_phase E jobs w = (Ok started, w1, t1)
              ∧ length (make_request_calls t1) = 1
              ∧ start_request_calls t1 = (λ p, (p, body)) <$> proxies) as Hexact.
  { intros body Hne Hhash Hdumps.
    destruct (start_phase_run E jobs w Hperm Hts)
      as (started & w1 & t1 & Hstart & _ & Hnd & Hkeys & Hin & Hstarts).
    { apply Forall_forall. by intros j (_ & _ & -> & _)%Hjobs. }
    { apply Forall_forall. intros j (_ & _ & _ & Hk)%Hjobs. exists body.
      by rewrite Hk. }
    exists started, w1, t1. split; [done|]. split.
    - apply Nat.le_antisymm.
      + eapply (NoDup_fmap_const_length (key_class w) _ (py_key (m, params, f))); [done|].
        intros c (_ & _ & _ & Hk)%Hin%first_of_key_elem%Hjobs.
        unfold key_class. by rewrite Hk.
      + destruct proxies as [|p0 rest]; [done|].
        assert (py_key (m, params, f) ∈ key_class w <$> make_request_calls t1) as Hk.
        { apply Hkeys. apply list_elem_of_fmap. exists (p0, m, params).
          assert ((p0, m, params) ∈ jobs) as Hj by by left.
          split; [|done]. unfold key_class.
          by destruct (Hjobs _ Hj) as (_ & _ & _ & ->). }
        destruct (make_request_calls t1); [by apply elem_of_nil in Hk|simpl; lia].
    - assert (start_request_calls t1 = (λ j : job, (j.1.1, body)) <$> jobs) as ->.
      { apply Forall2_eq_fmap. eapply Forall2_impl_elem; [exact Hstarts|].
        intros j [q b] Hj (Hq & c & Hc & _ & Hb). simpl in *. subst q. f_equal.
        destruct (Hjobs c (first_of_key_elem _ _ _ (Hin c Hc))) as (_ & _ & _ & Hk).
        rewrite Hk in Hb. unfold dumps_key in Hb. simpl in Hb. congruence. }
      unfold jobs. rewrite <-list_fmap_compose. done. }
  intros [(Hnil & _ & _ & ->)|[(_ & e & Hstart & _)
      |(_ & started & w1 & t1 & t2 & Hstart & Hfin & ->)]]%RunTwoStageJobs_run.
  - split_and!; [simpl; lia|by intros c ?%elem_of_nil|].
    intros body Hne _ _. rewrite Hall in Hnil. unfold jobs in Hnil.
    by apply fmap_nil_inv in Hnil.
  - rewrite Hall in Hstart.
    pose proof (start_phase_calls E jobs w _ _ _ Hperm Hts Hstart) as [Hnd Hin].
    split_and!.
    + eapply (NoDup_fmap_const_length (key_class w) _ (py_key (m, params, f))); [done|].
      intros c (_ & _ & _ & Hk)%Hin%first_of_key_elem%Hjobs.
      unfold key_class. by rewrite Hk.
    + by intros c (? & ? & ? & _)%Hin%first_of_key_elem%Hjobs.
    + intros body Hne Hhash Hdumps.
      destruct (Hexact body Hne Hhash Hdumps) as (? & ? & ? & Hstart' & _). congruence.
  - rewrite Hall in Hstart.
    pose proof (start_phase_calls E jobs w _ _ _ Hperm Hts Hstart) as [Hnd Hin].
    pose proof Hstart as (_ & _ & Hw1)%emits_start_phase.
    apply finish_phase_calls in Hfin as [Hmk Hst].
    2: { eapply Forall_impl; [apply other_jobs_Forall|]. intros j Hj. simpl in *.
         by rewrite (same_objects_two_stage w w1). }
    rewrite make_request_calls_app, start_request_calls_app, Hmk, Hst, !app_nil_r.
    split_and!.
    + eapply (NoDup_fmap_const_length (key_class w) _ (py_key (m, params, f))); [done|].
      intros c (_ & _ & _ & Hk)%Hin%first_of_key_elem%Hjobs.
      unfold key_class. by rewrite Hk.
    + by intros c (? & ? & ? & _)%Hin%first_of_key_elem%Hjobs.
    + intros body Hne Hhash Hdumps.
      destruct (Hexact body Hne Hhash Hdumps) as (? & ? & ? & Hstart' & Hlen & Hstarts).
      rewrite Hstart in Hstart'. by injection Hstart' as <- <- <-.
Qed.

Lemma same_call_encoded_once_witness :
  let E := Demo.env ["a"; "b"; "c"] Demo.all_ready Demo.in_order in
  let w := Demo.two_stage_world ["a"; "b"; "c"] 0 in
  ∃ o w' tr,
    _two_stage_requests E [0; 1; 2] "ping" (PTuple []) w = (o, w', tr)
    ∧ make_request_calls tr = [(0, "ping", PTuple [])]
    ∧ length (make_request_calls tr) = 1
    ∧ start_request_calls tr = [(0, "ping()"); (1, "ping()"); (2, "ping()")].
Proof.
  intros E w.
  destruct (_two_stage_requests E [0; 1; 2] "ping" (PTuple []) w) as [[o w'] tr] eqn:Hrun.
  exists o, w', tr. split; [done|].
  destruct (same_call_encoded_once E [0; 1; 2] "ping" (PTuple []) w (None, 0%Z) o w' tr)
    as (_ & _ & Hexact).
  - intros d. reflexivity.
  - repeat constructor.
  - exact Hrun.
  - destruct (Hexact "ping()") as [Hlen Hstarts]; [done..|].
    split; [|by split].
    vm_compute in Hrun. by injection Hrun as _ _ <-.
Defined.

(** The second loop on items one of which cannot be encoded. *)
Lemma encode_items_raise E items :
  ∀ formats,
    Forall (λ it : fmtkey * fmtval, ∃ p, it.2 = FProxy p) items →
    Exists (λ it : fmtkey * fmtval, ∃ e, dumps_key E it.1 = inl e) items →
    ∃ e k tr,
      encode_items E items formats = (Raise e, tr)
      ∧ k ∈ items.*1
      ∧ dumps_key E k = inl e
      ∧ start_request_calls tr = []
      ∧ yields tr = [].
Proof.
  induction items as [|[k v] items IH]; intros formats Hitems Hex.
  { by apply Exists_nil in Hex. }
  apply Forall_cons in Hitems as [[p Hp] Hitems]. simpl in Hp. subst v.
  simpl. destruct (dumps_key E k) as [e|body] eqn:Hk.
  { exists e, k, [EvMakeRequest p k.1.1 k.1.2]. split_and!; [done| |done..].
    by left. }
  apply Exists_cons in Hex as [[e He]|Hex]; [simpl in He; congruence|].
  destruct (IH (dict_set k (FBody body) formats) Hitems Hex)
    as (e & k' & tr & -> & Hk' & He & Hst & Hy).
  exists e, k', (EvMakeRequest p k.1.1 k.1.2 :: tr).
  split_and!; [done|by right|done..].
Qed.

Lemma encode_items_events E items :
  ∀ formats,
    Forall (λ ev, ∃ p m a, ev = EvMakeRequest p m a) (encode_items E items formats).2.
Proof.
  induction items as [|[k [p|b]] items IH]; intros formats; simpl; [done| |done].
  destruct (dumps_key E k) as [e|body].
  { constructor; [by eexists _, _, _|done]. }
  specialize (IH (dict_set k (FBody body) formats)).
  destruct (encode_items E items _) as [o1 tr1]. simpl in *.
  constructor; [by eexists _, _, _|done].
Qed.

(** X17: arguments that cannot be encoded.  When the argument lists of the
    two-stage jobs are hashable and [xmlrpclib.dumps] rejects those of a
    job that is the first of the batch with its key (no earlier two-stage
    job has a key equal to it under [==]), [RunTwoStageJobs] raises the
    error of [dumps] while the request bodies are built: no request has
    been started, nothing is yielded for any job of the batch, the fallback
    has not run, and the store is as it was.  (On its own,
    [_sequential_request] reports such a job by the pair [(None, exc)].
    The arguments of a job that comes after one with an equal key are never
    passed to [dumps].) *)
Theorem RunTwoStageJobs_unencodable_args E jobs fallback w :
  (∀ d, dict_items E d ≡ₚ d) →
  Forall (λ j : job, hashable j.2 = true) (two_stage_jobs w jobs) →
  Exists (λ j : job, (∃ e, dumps_key E (key_of w j) = inl e)
                     ∧ first_of_key w (two_stage_jobs w jobs) j)
         (two_stage_jobs w jobs) →
  ∃ e j tr,
    j ∈ two_stage_jobs w jobs
    ∧ dumps_key E (key_of w j) = inl e
    ∧ RunTwoStageJobs E jobs fallback w = (Raise e, w, tr)
    ∧ Forall (λ ev, ∃ p m a, ev = EvMakeRequest p m a) tr.
Proof.
  intros Hperm Hhash Hex.
  pose proof (two_stage_jobs_Forall w jobs) as Hts.
  destruct (collect_keys_items E (two_stage_jobs w jobs) w Hperm Hts)
    as (Hitems & Horigin & _ & _ & _ & Helem).
  set (formats := collect_keys w (two_stage_jobs w jobs) []) in *.
  set (items := dict_items E formats) in *.
  destruct (encode_items_raise E items formats) as (e & k & tr & Henc & Hk & He & _).
  { eapply Forall_impl; [exact Horigin|]. intros it (j & _ & ->). by eexists. }
  { apply Exists_exists in Hex as (j & Hj & [e He] & Hfirst).
    apply Exists_exists. exists (key_of w j, FProxy j.1.1). split; [|by exists e].
    unfold items. rewrite Hperm. by apply collect_keys_first. }
  apply list_elem_of_fmap in Hk as (it & -> & Hit).
  pose proof (proj1 (Forall_forall _ _) Horigin it Hit) as (j & Hj%first_of_key_elem & Heq).
  subst it. simpl in He.
  exists e, j, tr. split_and!; [done..| |].
  - rewrite RunTwoStageJobs_unfold.
    rewrite bool_decide_eq_false_2
      by (intros Hnil; rewrite Hnil in Hj; by apply elem_of_nil in Hj).
    erewrite bind_raise; [done|]. unfold start_phase.
    rewrite (bind_ok_nil _ _ w formats w).
    2: { rewrite collect_formats_run by done.
         rewrite (proj2 (forallb_forall _ _)); [done|].
         intros j' Hj'%list_elem_of_In. by eapply Forall_forall in Hhash. }
    erewrite bind_raise; [done|].
    fold items. by rewrite encode_formats_run, Henc.
  - pose proof (encode_items_events E items formats) as Hev.
    by rewrite Henc in Hev.
Qed.

Lemma RunTwoStageJobs_unencodable_args_witness :
  let E := MkEnv (λ a m enc an,
                    if bool_decide (a = PTuple [PNone])
                    then inl (TypeError "cannot marshal None unless allow_none is enabled")
                    else inr m)
             (λ p h seq, inr (100 * p + seq)) (λ h host handler body, None) (λ h, Some h)
             (λ h, inr (200%Z, "ok")) (λ body, inr [PStr body]) Demo.all_ready remove_dups id
             (λ p m a t, inr PNone) Demo.in_order Demo.demo_splittype Demo.demo_splithost
             (λ uri kw, None) in
  let w := Demo.two_stage_world ["a"; "b"] 0 in
  let jobs := [(0, "get", PTuple []); (1, "put", PTuple [PNone])] in
  ∃ e j tr,
    j ∈ two_stage_jobs w jobs
    ∧ dumps_key E (key_of w j) = inl e
    ∧ RunTwoStageJobs E jobs Fn_RunSequentialJobs w = (Raise e, w, tr)
    ∧ Forall (λ ev, ∃ p m a, ev = EvMakeRequest p m a) tr.
Proof.
  intros E w jobs.
  apply (RunTwoStageJobs_unencodable_args E jobs Fn_RunSequentialJobs w).
  - intros d. reflexivity.
  - repeat constructor.
  - apply Exists_cons_tl, Exists_cons_hd. split; [eexists; reflexivity|].
    exists [(0, "get", PTuple [])], []. split; [reflexivity|].
    vm_compute. by intros [[=]|?%elem_of_nil]%elem_of_cons.
Defined.

(** The arguments of a job that comes after one with an equal key are not
    encoded: with a [dumps] that rejects the integer [2 ** 40] and accepts
    the float of the same value, the batch below completes, the second job
    is sent the body built for the first, and no error is reported. *)
Lemma unencodable_args_behind_equal_key :
  let E := MkEnv (λ a m enc an,
                    if bool_decide (a = PTuple [PInt (2 ^ 40)])
                    then inl (OtherException "OverflowError" "int exceeds XML-RPC limits")
                    else inr m)
             (λ p h seq, inr (100 * p + seq)) (λ h host handler body, None) (λ h, Some h)
             (λ h, inr (200%Z, "ok")) (λ body, inr [PStr body]) Demo.all_ready remove_dups id
             (λ p m a t, inr PNone) Demo.in_order Demo.demo_splittype Demo.demo_splithost
             (λ uri kw, None) in
  let w := Demo.two_stage_world ["a"; "b"] 0 in
  let j0 : job := (0, "put", PTuple [PFloat (FFinite false 1 40)]) in
  let j1 : job := (1, "put", PTuple [PInt (2 ^ 40)]) in
  dumps_key E (key_of w j1)
  = inl (OtherException "OverflowError" "int exceeds XML-RPC limits")
  ∧ ∃ w' tr,
      RunTwoStageJobs E [j0; j1] Fn_RunSequentialJobs w = (Ok tt, w', tr)
      ∧ make_request_calls tr = [j0]
      ∧ start_request_calls tr = [(0, "put"); (1, "put")]
      ∧ yields tr = [(PStr "ok", None); (PStr "ok", None)].
Proof.
  intros E w j0 j1. split; [reflexivity|].
  eexists _, _. split; [vm_compute; reflexivity|]. by split_and!.
Qed.

(** [RunThreadedJobs] as the fallback, when every thread completes. *)
Lemma RunThreadedJobs_completes E others :
  (∀ t n, thread_schedule E t n ≡ₚ seq 0 n) →
  fallback_completes E Fn_RunThreadedJobs others.
Proof.
  intros Hsched w _. simpl. unfold RunThreadedJobs, tick.
  erewrite bind_ok_nil by done.
  set (sched := thread_schedule E (clock w) (length others)).
  assert (∀ k, k ∈ sched ↔ k < length others) as Hin.
  { intros k. unfold sched. rewrite Hsched, elem_of_seq. lia. }
  destruct (join_all_run E others (length others) 0 sched [] (World (heap w) (S (clock w))))
    as (w' & tr & Hrun & Hres).
  - done.
  - unfold sched. rewrite Hsched. apply NoDup_seq.
  - intros k _. apply not_elem_of_nil.
  - intros k. apply Hin.
  - intros k Hk. left. by apply Hin.
  - intros k Hk. lia.
  - exists w', tr. split; [done|].
    apply job_results_length in Hres. rewrite Hres.
    rewrite omap_lookup_length by (intros k; apply Hin).
    unfold sched. by rewrite Hsched, length_seq.
Qed.

(** X18: one result per job.  On a batch with at least one two-stage job,
    in which no [TwoStageServerProxy] is named twice and the argument lists
    of the two-stage jobs are hashable and can be encoded, with
    [RunSequentialJobs] or [RunThreadedJobs] as the fallback and a [select]
    that keeps reporting descriptors, [RunTwoStageJobs] returns normally
    after yielding exactly as many pairs as there are jobs, whatever the
    jobs do and whether the requests succeed or fail. *)
Theorem RunTwoStageJobs_one_result_per_job E jobs fallback w :
  (∀ d, dict_items E d ≡ₚ d) →
  select_responsive E →
  fallback = Fn_RunSequentialJobs
  ∨ (fallback = Fn_RunThreadedJobs ∧ ∀ t n, thread_schedule E t n ≡ₚ seq 0 n) →
  two_stage_jobs w jobs ≠ [] →
  Forall (λ j : job, hashable j.2 = true) (two_stage_jobs w jobs) →
  Forall (λ j : job, ∃ body, dumps_key E (key_of w j) = inr body)
         (two_stage_jobs w jobs) →
  NoDup ((λ j : job, j.1.1) <$> two_stage_jobs w jobs) →
  ∃ w' tr,
    RunTwoStageJobs E jobs fallback w = (Ok tt, w', tr)
    ∧ length (yields tr) = length jobs.
Proof.
  intros Hperm Hsel Hfb Hts Hhash Hdumps Hnd.
  apply RunTwoStageJobs_completes; [done..|].
  destruct Hfb as [-> | [-> Hsched]].
  - apply RunSequentialJobs_completes.
  - by apply RunThreadedJobs_completes.
Qed.

Lemma RunTwoStageJobs_one_result_per_job_witness :
  let E := Demo.env ["a"; "down"; "missing"] Demo.all_ready
             (λ _ n, reverse (seq 0 n)) in
  let w := Demo.two_stage_world ["a"; "down"; "missing"] 2 in
  let jobs := [(3, "x", PTuple []); (0, "ping", PTuple []); (1, "ping", PTuple []);
               (4, "y", PTuple []); (2, "ping", PTuple [])] in
  ∃ w' tr,
    RunTwoStageJobs E jobs Fn_RunThreadedJobs w = (Ok tt, w', tr)
    ∧ length (yields tr) = length jobs
    ∧ yields tr
      = [(PStr "y", None); (PStr "x", None);
         (PNone, Some (TypeError "object of type 'NoneType' has no len()"));
         (PStr "a", None);
         (PNone, Some (IOError "[Errno 111] Connection refused"))].
Proof.
  intros E w jobs.
  destruct (RunTwoStageJobs_one_result_per_job E jobs Fn_RunThreadedJobs w)
    as (w' & tr & Hrun & Hlen).
  - intros d. reflexivity.
  - apply Demo_select_responsive.
  - right. split; [done|]. intros t n. apply reverse_Permutation.
  - discriminate.
  - repeat constructor.
  - repeat constructor; eexists; reflexivity.
  - change (NoDup [0; 1; 2]). repeat (apply NoDup_cons; split; [set_solver|]).
    apply NoDup_nil_2.
  - exists w', tr. split; [exact Hrun|]. split; [exact Hlen|].
    vm_compute in Hrun. by injection Hrun as _ <-.
Defined.
